(** * pydu: a live disk-usage browser (Pydu/pydu.py)

    Shallow embedding of the size formatter, the ancestor walk, the shared
    scan state, the two-pass scanner, the key handling of the browser, the
    rows and the bar it draws and the root [main] starts from, together with
    the properties proved about them.

    Python [str] values are lists of characters with code points below
    256; a Python [dict] is a [gmap], a [set] a [gset], an [int] a [Z].  The functions of
    [posixpath] the program calls are written out after their CPython
    sources. *)

From Stdlib Require Import ZArith QArith Qabs Qminmax List Ascii String Permutation Sorted Lia.
From stdpp Require Import gmap strings list fin_maps pretty.

Local Open Scope Z_scope.
Local Set Warnings "-register-all".

(** ** Python strings *)

Abbreviation str := (list ascii).

(** A string literal. *)
Definition py (s : string) : str := list_ascii_of_string s.

Definition sep : ascii := "/"%char.

Definition is_sep (c : ascii) : bool := bool_decide (c = sep).

Fixpoint dropwhile {A} (f : A -> bool) (l : list A) : list A :=
  match l with
  | [] => []
  | x :: l' => if f x then dropwhile f l' else l
  end.

Fixpoint takewhile {A} (f : A -> bool) (l : list A) : list A :=
  match l with
  | [] => []
  | x :: l' => if f x then x :: takewhile f l' else []
  end.

(** [s.rstrip('/')] *)
Definition rstrip_sep (s : str) : str := rev (dropwhile is_sep (rev s)).

(** [s == '/' * len(s)] *)
Definition all_sep (s : str) : bool := forallb is_sep s.

Definition startswith_sep (s : str) : bool :=
  match s with
  | c :: _ => is_sep c
  | [] => false
  end.

Definition endswith_sep (s : str) : bool := startswith_sep (rev s).

(** [c.lower()] for a code point below 256: the capital letters are
    A to Z (65 to 90), and 192 to 222 without the multiplication sign 215;
    each has its small letter 32 places further. *)
Definition lower_char (c : ascii) : ascii :=
  let n := nat_of_ascii c in
  if (((65 <=? n) && (n <=? 90))
      || ((192 <=? n) && (n <=? 214))
      || ((216 <=? n) && (n <=? 222)))%nat
  then ascii_of_nat (n + 32) else c.

(** [s.lower()] *)
Definition lower (s : str) : str := map lower_char s.

(** Comparison of two strings by code points, as Python's [<=] on [str]. *)
Fixpoint str_leb (a b : str) : bool :=
  match a, b with
  | [], _ => true
  | _ :: _, [] => false
  | x :: a', y :: b' =>
      if (nat_of_ascii x <? nat_of_ascii y)%nat then true
      else if (nat_of_ascii y <? nat_of_ascii x)%nat then false
      else str_leb a' b'
  end.

(** ** posixpath *)

Module posixpath.

(** [p[:p.rfind('/') + 1]]: everything up to and including the last
    slash. *)
Definition head_of (p : str) : str := rev (dropwhile (fun c => negb (is_sep c)) (rev p)).

(** [p[p.rfind('/') + 1:]] *)
Definition basename (p : str) : str := rev (takewhile (fun c => negb (is_sep c)) (rev p)).

Definition dirname (p : str) : str :=
  let head := head_of p in
  if bool_decide (head <> []) && negb (all_sep head) then rstrip_sep head else head.

(** [os.path.join(a, b)] with one component. *)
Definition join (a b : str) : str :=
  if startswith_sep b then b
  else if bool_decide (a = []) || endswith_sep a then a ++ b
  else a ++ sep :: b.

Definition isabs (p : str) : bool := startswith_sep p.

(** [p.split('/')] *)
Fixpoint split_sep (p : str) : list str :=
  match p with
  | [] => [[]]
  | c :: p' =>
      if is_sep c then [] :: split_sep p'
      else match split_sep p' with
           | w :: ws => (c :: w) :: ws
           | [] => [[c]]
           end
  end.

(** ['/'.join(comps)] *)
Fixpoint join_sep (comps : list str) : str :=
  match comps with
  | [] => []
  | [c] => c
  | c :: cs => c ++ sep :: join_sep cs
  end.

(** One round of the loop of [normpath] over [comps]. *)
Definition norm_step (initial_slashes : nat) (new_comps : list str) (comp : str) : list str :=
  if bool_decide (comp = []) || bool_decide (comp = py ".") then new_comps
  else if bool_decide (comp <> py "..")
          || (bool_decide (initial_slashes = 0%nat) && bool_decide (new_comps = []))
          || (bool_decide (new_comps <> []) && bool_decide (last new_comps = Some (py "..")))
       then new_comps ++ [comp]
       else removelast new_comps.

Definition normpath (path : str) : str :=
  if bool_decide (path = []) then py "."
  else
    let initial_slashes : nat :=
      if startswith_sep path then
        match path with
        | _ :: c2 :: rest =>
            if is_sep c2 && negb (startswith_sep rest) then 2%nat else 1%nat
        | _ => 1%nat
        end
      else 0%nat in
    let comps := fold_left (norm_step initial_slashes) (split_sep path) [] in
    let path' := replicate initial_slashes sep ++ join_sep comps in
    if bool_decide (path' = []) then py "." else path'.

(** [os.path.abspath(path)]; [cwd] is what [os.getcwd()] answers. *)
Definition abspath (cwd path : str) : str :=
  normpath (if isabs path then path else join cwd path).

End posixpath.

(** ** Utilities *)

(** *** Size formatter: [human] *)

(** A Python [float]: a finite value (an exact rational), the negative
    zero, an infinity or a NaN. *)
Inductive pyfloat :=
| Finite (q : Q)
| NegZero
| Inf (negative : bool)
| NaN.

(** The objects [human] may be handed. *)
Inductive pyobj :=
| PyInt (z : Z)
| PyFloat (x : pyfloat)
| PyStr (s : str)
| PyNone.

(** [float(z)] for an [int]: the nearest double, ties to even; an [int]
    beyond the range of a double raises [OverflowError]. *)
Definition float_of_int (z : Z) : option pyfloat :=
  let a := Z.abs z in
  let bits := Z.log2 a + 1 in
  let r :=
    if bits <=? 53 then a
    else
      let sh := bits - 53 in
      let m := Z.shiftr a sh in
      let rest := Z.land a (Z.ones sh) in
      let half := Z.shiftl 1 (sh - 1) in
      let up := (half <? rest) || ((rest =? half) && Z.odd m) in
      Z.shiftl (if up then m + 1 else m) sh in
  if 2 ^ 1024 <=? r then None
  else Some (Finite (inject_Z (if z <? 0 then - r else r))).

(** Round a non-negative rational to the nearest integer, ties to even. *)
Definition round_half_even (q : Q) : Z :=
  let n := Qnum q in
  let d := Zpos (Qden q) in
  let fl := n / d in
  let r := n mod d in
  if 2 * r <? d then fl
  else if d <? 2 * r then fl + 1
  else if Z.even fl then fl else fl + 1.

(** [f"{x:.1f}"] *)
Definition format_1f (x : pyfloat) : str :=
  match x with
  | Finite q =>
      let t := round_half_even (Qabs q * 10)%Q in
      (if Qlt_le_dec q 0 then py "-" else [])
        ++ py (pretty (t / 10)) ++ py "." ++ py (pretty (t mod 10))
  | NegZero => py "-0.0"
  | Inf true => py "-inf"
  | Inf false => py "inf"
  | NaN => py "nan"
  end.

(** [x < 1024] on floats. *)
Definition lt_1024 (x : pyfloat) : bool :=
  match x with
  | Finite q => if Qlt_le_dec q 1024 then true else false
  | NegZero => true
  | Inf negative => negative
  | NaN => false
  end.

(** [x / 1024.0]; the loop only divides values that are at least 1024,
    where the division of a double by a power of two is exact. *)
Definition div_1024 (x : pyfloat) : pyfloat :=
  match x with
  | Finite q => Finite (q / 1024)%Q
  | NegZero => NegZero
  | Inf negative => Inf negative
  | NaN => NaN
  end.

Definition units : list ascii := ["B"; "K"; "M"; "G"; "T"; "P"]%char.

(** The suffixes in order, with the one used when the list is exhausted. *)
Definition all_units : list ascii := units ++ ["E"%char].

Definition is_digit (c : ascii) : bool :=
  ((48 <=? nat_of_ascii c) && (nat_of_ascii c <=? 57))%nat.

Fixpoint human_loop (us : list ascii) (n : pyfloat) : str :=
  match us with
  | [] => format_1f n ++ py "E"
  | unit :: us' =>
      if lt_1024 n then format_1f n ++ [unit]
      else human_loop us' (div_1024 n)
  end.

Section Pydu.

(** [float(s)] for a [str], the parser of the Python runtime: [None] when
    it raises [ValueError]. *)
Variable float_of_str : str -> option pyfloat.

(** What [os.getcwd()] answers. *)
Variable getcwd : str.

(** [float(n)]; [None] when it raises. *)
Definition py_float (n : pyobj) : option pyfloat :=
  match n with
  | PyInt z => float_of_int z
  | PyFloat x => Some x
  | PyStr s => float_of_str s
  | PyNone => None
  end.

Definition human (n : pyobj) : str :=
  match py_float n with
  | None => py "?"
  | Some x => human_loop units x
  end.



(** Return all ancestor directories from path up to and including stop_at.
    The loop runs at most once per character of [path]: [fuel] counts the
    rounds that are left. *)
Fixpoint ancestors_loop (fuel : nat) (p stop_at : str) : list str :=
  match fuel with
  | O => []
  | S fuel' =>
      p :: (if bool_decide (p = stop_at) || bool_decide (p = posixpath.dirname p) then []
            else ancestors_loop fuel' (posixpath.dirname p) stop_at)
  end.

Definition ancestors (path stop_at : str) : list str :=
  ancestors_loop (S (length path)) path (posixpath.abspath getcwd stop_at).

Arguments ancestors : simpl never.

(** ** Shared state between scanner and TUI *)

Record State := mkState {
  root : str;
  size : gmap str Z;                (* path -> cumulative bytes *)
  exists_ : gset str;               (* paths discovered (dirs and files) *)
  children : gmap str (list str);   (* dir -> immediate children paths *)
  is_dir : gmap str bool;           (* path -> bool *)
  total_files : Z;
  seen_files : Z;
  total_dirs : Z;
  seen_dirs : Z;
  scanning : bool;
  errors : Z
}.

(** [State.__init__] *)
Definition State_init (root0 : str) : State :=
  {| root := posixpath.abspath getcwd root0;
     size := ∅; exists_ := ∅; children := ∅; is_dir := ∅;
     total_files := 1; seen_files := 0; total_dirs := 1; seen_dirs := 0;
     scanning := true; errors := 0 |}.

(** [st.size[p]] and [st.size.get(p, 0)] of the [defaultdict(int)]. *)
Definition size_get (st : State) (p : str) : Z := default 0 (size st !! p).

(** [st.children[d]] and [st.children.get(d, [])]. *)
Definition children_get (st : State) (d : str) : list str := default [] (children st !! d).

(** [st.is_dir.get(p, False)] *)
Definition is_dir_get (st : State) (p : str) : bool := default false (is_dir st !! p).

(** ** The directory tree as [os.walk] and [os.path.getsize] see it *)

Inductive entry :=
| File (name : str) (getsize : option Z)
    (* not a directory; [getsize] is what [os.path.getsize] answers for
       it, [None] when it raises *)
| Dir (name : str) (listing : list entry)
    (* a directory [os.walk] descends into *)
| Link (name : str).
    (* listed among the directories but never yielded: a symbolic link to
       a directory ([followlinks=False]) or a directory that cannot be
       listed *)

Definition entry_name (e : entry) : str :=
  match e with
  | File n _ | Dir n _ | Link n => n
  end.

Definition dirnames (es : list entry) : list str :=
  flat_map (fun e => match e with Dir n _ | Link n => [n] | File _ _ => [] end) es.

(** The other names, each with the answer of [os.path.getsize] for it. *)
Definition filenames (es : list entry) : list (str * option Z) :=
  flat_map (fun e => match e with File n r => [(n, r)] | _ => [] end) es.

(** [os.walk(top, topdown=True, followlinks=False)] below a directory
    [top] that can be listed: the directory itself with its listing, then
    the walk of each of its subdirectories. *)
Fixpoint walk_entry (top : str) (e : entry) : list (str * list str * list (str * option Z)) :=
  match e with
  | Dir n sub =>
      let d := posixpath.join top n in
      (d, dirnames sub, filenames sub) :: flat_map (walk_entry d) sub
  | _ => []
  end.

Definition walk (top : str) (es : list entry) : list (str * list str * list (str * option Z)) :=
  (top, dirnames es, filenames es) :: flat_map (walk_entry top) es.

(** ** Scanner (producer) *)

(** The critical sections of the scanner, one constructor per
    [with st.lock:] block. *)
Inductive op :=
| PreDir (dirpath : str)                           (* pre_count, first block *)
| PreChild (dirpath d : str)                       (* pre_count, block of the loop *)
| PreFiles (filenames : nat)                       (* pre_count, last block *)
| LiveDir (dirpath : str) (dirnames : list str)    (* scan_live, block of a directory *)
| LiveFile (dirpath fname : str)                   (* scan_live, block of a file *)
| Complete (path : str) (result : option Z)        (* scan_live, block of a completed future *)
| Finish.                                          (* scan_live, last block *)

Definition setdefault_nil (d : str) (m : gmap str (list str)) : gmap str (list str) :=
  match m !! d with
  | Some _ => m
  | None => <[d := []]> m
  end.

(** [m[d].append(x)] on the [defaultdict(list)]. *)
Definition append_child (d x : str) (m : gmap str (list str)) : gmap str (list str) :=
  <[d := default [] (m !! d) ++ [x]]> m.

(** [if x not in m[d]: m[d].append(x)]; reading [m[d]] creates the entry. *)
Definition append_new (d : str) (m : gmap str (list str)) (x : str) : gmap str (list str) :=
  if bool_decide (x ∈ default [] (m !! d)) then setdefault_nil d m
  else append_child d x m.

(** [for anc in chain: size[anc] += sz] *)
Definition bubble (sz : Z) (chain : list str) (m : gmap str Z) : gmap str Z :=
  fold_left (fun m anc => <[anc := default 0 (m !! anc) + sz]> m) chain m.

Definition exec (st : State) (o : op) : State :=
  match o with
  | PreDir dirpath =>
      {| root := root st; size := size st;
         exists_ := {[dirpath]} ∪ exists_ st;
         children := setdefault_nil dirpath (children st);
         is_dir := <[dirpath := true]> (is_dir st);
         total_files := total_files st; seen_files := seen_files st;
         total_dirs := total_dirs st + 1; seen_dirs := seen_dirs st;
         scanning := scanning st; errors := errors st |}
  | PreChild dirpath d =>
      let dp := posixpath.join dirpath d in
      {| root := root st; size := size st;
         exists_ := {[dp]} ∪ exists_ st;
         children := append_child dirpath dp (children st);
         is_dir := <[dp := true]> (is_dir st);
         total_files := total_files st; seen_files := seen_files st;
         total_dirs := total_dirs st; seen_dirs := seen_dirs st;
         scanning := scanning st; errors := errors st |}
  | PreFiles n =>
      {| root := root st; size := size st; exists_ := exists_ st;
         children := children st; is_dir := is_dir st;
         total_files := total_files st + Z.of_nat n; seen_files := seen_files st;
         total_dirs := total_dirs st; seen_dirs := seen_dirs st;
         scanning := scanning st; errors := errors st |}
  | LiveDir dirpath dns =>
      {| root := root st; size := size st;
         exists_ := {[dirpath]} ∪ exists_ st;
         children :=
           fold_left (append_new dirpath) (map (posixpath.join dirpath) dns)
             (setdefault_nil dirpath (children st));
         is_dir := <[dirpath := true]> (is_dir st);
         total_files := total_files st; seen_files := seen_files st;
         total_dirs := total_dirs st; seen_dirs := seen_dirs st + 1;
         scanning := scanning st; errors := errors st |}
  | LiveFile dirpath fname =>
      let fpath := posixpath.join dirpath fname in
      {| root := root st; size := size st;
         exists_ := {[fpath]} ∪ exists_ st;
         children := append_child dirpath fpath (children st);
         is_dir := <[fpath := false]> (is_dir st);
         total_files := total_files st; seen_files := seen_files st;
         total_dirs := total_dirs st; seen_dirs := seen_dirs st;
         scanning := scanning st; errors := errors st |}
  | Complete path result =>
      (* file_size: a failed read reports 0 and counts one error, in a
         block of its own in the worker, which no other block reads and
         which is put together with the block of the completed future
         here *)
      let sz := default 0 result in
      {| root := root st;
         size := bubble sz (ancestors (posixpath.dirname path) (root st))
                   (<[path := sz]> (size st));
         exists_ := exists_ st; children := children st; is_dir := is_dir st;
         total_files := total_files st; seen_files := seen_files st + 1;
         total_dirs := total_dirs st; seen_dirs := seen_dirs st;
         scanning := scanning st;
         errors := if result is None then errors st + 1 else errors st |}
  | Finish =>
      {| root := root st; size := size st; exists_ := exists_ st;
         children := children st; is_dir := is_dir st;
         total_files := total_files st; seen_files := seen_files st;
         total_dirs := total_dirs st; seen_dirs := seen_dirs st;
         scanning := false; errors := errors st |}
  end.

Definition run (ops : list op) (st : State) : State := fold_left exec ops st.

(** The critical sections of [pre_count], in order. *)
Definition pre_count_ops (top : str) (es : list entry) : list op :=
  flat_map (fun '(dirpath, dns, fns) =>
              PreDir dirpath :: map (PreChild dirpath) dns ++ [PreFiles (length fns)])
           (walk top es).

Definition pre_count (top : str) (es : list entry) (st : State) : State :=
  run (pre_count_ops top es) st.

(** The critical sections of the second walk of [scan_live], in order. *)
Definition live_ops (top : str) (es : list entry) : list op :=
  flat_map (fun '(dirpath, dns, fns) =>
              LiveDir dirpath dns :: map (fun f => LiveFile dirpath f.1) fns)
           (walk top es).

(** The futures submitted to the pool, in order of submission: the path
    and what [file_size] will find for it. *)
Definition submitted (top : str) (es : list entry) : list (str * option Z) :=
  flat_map (fun '(dirpath, dns, fns) =>
              map (fun f => (posixpath.join dirpath f.1, f.2)) fns)
           (walk top es).

(** All critical sections of [scan_live], in order.  [order] is the order
    in which [as_completed] hands the futures back. *)
Definition scan_ops (top : str) (es : list entry) (order : list (str * option Z)) : list op :=
  pre_count_ops top es ++ live_ops top es
    ++ map (fun t => Complete t.1 t.2) order ++ [Finish].

Definition scan_live (top : str) (es : list entry) (order : list (str * option Z))
    (st : State) : State :=
  run (scan_ops top es order) st.

(** *** A root that cannot be listed *)

(** What [os.walk] meets at its top: a directory with its listing, or a
    path [scandir] fails on (a regular file, a directory that may not be
    read); [main] only checks that the root exists. *)
Inductive top_listing :=
| Listed (es : list entry)
| Unlisted.

(** [os.walk(top, topdown=True, followlinks=False)], which swallows the
    error of [scandir] and then yields nothing. *)
Definition os_walk (top : str) (t : top_listing)
    : list (str * list str * list (str * option Z)) :=
  match t with
  | Listed es => walk top es
  | Unlisted => []
  end.

(** [pre_count] on what [os.walk] yields. *)
Definition pre_count_at (top : str) (t : top_listing) (st : State) : State :=
  run (flat_map (fun '(dirpath, dns, fns) =>
                   PreDir dirpath :: map (PreChild dirpath) dns ++ [PreFiles (length fns)])
                (os_walk top t)) st.

(** The futures submitted to the pool. *)
Definition submitted_at (top : str) (t : top_listing) : list (str * option Z) :=
  flat_map (fun '(dirpath, dns, fns) =>
              map (fun f => (posixpath.join dirpath f.1, f.2)) fns)
           (os_walk top t).

(** [scan_live] on what [os.walk] yields. *)
Definition scan_live_at (top : str) (t : top_listing) (order : list (str * option Z))
    (st : State) : State :=
  let st := pre_count_at top t st in
  let st := run (flat_map (fun '(dirpath, dns, fns) =>
                             LiveDir dirpath dns :: map (fun f => LiveFile dirpath f.1) fns)
                          (os_walk top t)) st in
  let st := run (map (fun t => Complete t.1 t.2) order) st in
  exec st Finish.


(** ** TUI *)

Record Browser := mkBrowser {
  cwd : str;
  pos : Z;
  sort_mode : Z;       (* 0=size desc, 1=name asc, 2=type *)
  spinner_idx : Z
}.

(** [Browser.__init__] *)
Definition Browser_init (st : State) : Browser :=
  {| cwd := root st; pos := 0; sort_mode := 0; spinner_idx := 0 |}.

(** [False < True] *)
Definition bool_ltb (a b : bool) : bool := negb a && b.

(** [<=] on the tuples [(bool, str)] and [(bool, int, str)]. *)
Definition key2_leb (a b : bool * str) : bool :=
  if bool_ltb a.1 b.1 then true
  else if bool_ltb b.1 a.1 then false
  else str_leb a.2 b.2.

Definition key3_leb (a b : bool * Z * str) : bool :=
  if bool_ltb a.1.1 b.1.1 then true
  else if bool_ltb b.1.1 a.1.1 then false
  else if a.1.2 <? b.1.2 then true
  else if b.1.2 <? a.1.2 then false
  else str_leb a.2 b.2.

(** [list.sort(key=...)]: the stable sort, as an insertion sort that puts
    an element before the later ones whose key is not smaller. *)
Fixpoint sort_insert {K} (leb : K -> K -> bool) (key : str -> K) (x : str) (l : list str)
    : list str :=
  match l with
  | [] => [x]
  | y :: l' => if leb (key x) (key y) then x :: l else y :: sort_insert leb key x l'
  end.

Definition sort_by {K} (leb : K -> K -> bool) (key : str -> K) (l : list str) : list str :=
  foldr (sort_insert leb key) [] l.

(** The entry [sizes[k]] of the snapshot [Browser._sorted_children] takes
    for the children of [path]: a directory without a size yet gets the
    size of [path]. *)
Definition snapshot_size (st : State) (path k : str) : Z :=
  default (if default false (is_dir st !! k) then default 0 (size st !! path) else 0)
          (size st !! k).

(** The sort key of mode 1. *)
Definition key_name (st : State) (p : str) : bool * str :=
  (negb (default false (is_dir st !! p)), lower (posixpath.basename p)).

(** The sort key of modes 0 and 2. *)
Definition key_size (st : State) (path p : str) : bool * Z * str :=
  (negb (default false (is_dir st !! p)), - snapshot_size st path p,
   lower (posixpath.basename p)).

(** [Browser._sorted_children], with the sort mode of the browser. *)
Definition sorted_children (st : State) (mode : Z) (path : str) : list str :=
  let kids := default [] (children st !! path) in
  (* Hide entries that no longer exist (rare) *)
  let kids := filter (fun k => k ∈ exists_ st) kids in
  if mode =? 1 then sort_by key2_leb (key_name st) kids
  else if mode =? 2 then sort_by key3_leb (key_size st path) kids
  else sort_by key3_leb (key_size st path) kids.

(** The percentage [pct] of the header of [Browser.draw]. *)
Definition progress_pct (st : State) : Q :=
  let seen := seen_files st + seen_dirs st in
  let tot := total_files st + total_dirs st in
  (100 * Qmin 1 (seen # Z.to_pos (Z.max 1 tot)))%Q.

(** What a [Browser.draw] that returns does to the browser: the spinner
    advances while the scan runs, and the selection is clamped to the rows
    there are.  What [curses] does on a screen too small for the header or
    the footer, where [addstr] raises, is not part of this. *)
Definition draw (st : State) (b : Browser) : Browser :=
  let kids := sorted_children st (sort_mode b) (cwd b) in
  {| cwd := cwd b;
     pos := if bool_decide (kids <> [])
            then Z.max 0 (Z.min (pos b) (Z.of_nat (length kids) - 1)) else pos b;
     sort_mode := sort_mode b;
     spinner_idx := if scanning st then spinner_idx b + 1 else spinner_idx b |}.

(** *** The rows of [Browser.draw] *)

(** [range(a, b)] *)
Definition py_range (a b : Z) : list Z :=
  map (fun i => a + Z.of_nat i) (seq 0 (Z.to_nat (b - a))).

(** The rounds of the row loop of [Browser.draw] on a screen of [h] lines:
    the screen line [row] and the index [idx] into the sorted children, the
    selection being the one the same drawing has just clamped. *)
Definition drawn_rows (h : Z) (st : State) (b : Browser) : list (Z * Z) :=
  let kids := sorted_children st (sort_mode b) (cwd b) in
  let pos := pos (draw st b) in
  let row := 5 in
  let max_rows := h - row - 1 in
  (* Simple viewport: keep cursor in view *)
  let top := if max_rows <=? pos then pos - max_rows + 1 else 0 in
  imap (fun i idx => (row + Z.of_nat i, idx))
       (py_range top (Z.min (Z.of_nat (length kids)) (top + max_rows))).

(** [os.path.basename(p) or p]: the name a row shows. *)
Definition row_name (p : str) : str :=
  let name := posixpath.basename p in
  if bool_decide (name = []) then p else name.

(** [x < y] on floats. *)
Definition float_ltb (x y : pyfloat) : bool :=
  match x, y with
  | NaN, _ | _, NaN => false
  | Inf nx, Inf ny => nx && negb ny
  | Inf nx, _ => nx
  | _, Inf ny => negb ny
  | Finite a, Finite b => if Qlt_le_dec a b then true else false
  | Finite a, NegZero => if Qlt_le_dec a 0 then true else false
  | NegZero, Finite b => if Qlt_le_dec 0 b then true else false
  | NegZero, NegZero => false
  end.

(** [int(x)] for a finite float: the fraction is cut off. *)
Definition int_of_Q (x : Q) : Z := Z.quot (Qnum x) (Zpos (Qden x)).

(** How the floating-point unit rounds the exact result of [*] and [+]
    to a double. *)
Variable fround : Q -> Q.

(** [Browser._format_bar]; [None] when [frac * width] raises
    [OverflowError], the width being too large for a float. *)
Definition format_bar (frac : pyfloat) (width : Z) : option str :=
  let width := Z.max 3 width in
  (* min(1.0, frac), then max(0.0, ...): the second argument is taken when
     it is smaller, respectively larger *)
  let m := if float_ltb frac (Finite 1) then frac else Finite 1 in
  let frac := if float_ltb (Finite 0) m then m else Finite 0 in
  match float_of_int width with
  | None => None
  | Some w =>
      match frac, w with
      | Finite q, Finite w =>
          let filled := int_of_Q (fround (fround (q * w) + (1 # 2))) in
          Some (replicate (Z.to_nat filled) "@"%char
                  ++ replicate (Z.to_nat (width - filled)) "-"%char)
      | _, _ => None
      end
  end.

(** Key codes of [curses] and [ord]. *)
Definition KEY_DOWN : Z := 258.
Definition KEY_UP : Z := 259.
Definition KEY_LEFT : Z := 260.
Definition KEY_RIGHT : Z := 261.
Definition ord_q : Z := 113.
Definition ESC : Z := 27.
Definition ord_k : Z := 107.
Definition ord_j : Z := 106.
Definition ord_newline : Z := 10.
Definition ord_s : Z := 115.

Inductive outcome :=
| Next (b : Browser)      (* the loop goes on *)
| Break                   (* q or ESC *)
| IndexError.             (* [kids[self.pos]] out of range *)

(** One key in [Browser.run].  [st] is the shared state as the first
    critical section of the branch reads it, [st'] the state as the second
    one of the descend branch reads it: the scanner may run in between. *)
Definition on_key (st st' : State) (ch : Z) (b : Browser) : outcome :=
  if (ch =? ord_q) || (ch =? ESC) then Break
  else if (ch =? KEY_UP) || (ch =? ord_k) then
    Next {| cwd := cwd b; pos := Z.max 0 (pos b - 1);
            sort_mode := sort_mode b; spinner_idx := spinner_idx b |}
  else if (ch =? KEY_DOWN) || (ch =? ord_j) then
    Next {| cwd := cwd b; pos := pos b + 1;
            sort_mode := sort_mode b; spinner_idx := spinner_idx b |}
  else if (ch =? KEY_RIGHT) || (ch =? ord_newline) then
    let kids := sorted_children st (sort_mode b) (cwd b) in
    if bool_decide (kids = []) then Next b
    else
      let pos' := Z.max 0 (Z.min (pos b) (Z.of_nat (length kids) - 1)) in
      match kids !! Z.to_nat pos' with
      | None => IndexError
      | Some sel =>
          if default false (is_dir st' !! sel)
          then Next {| cwd := sel; pos := 0;
                       sort_mode := sort_mode b; spinner_idx := spinner_idx b |}
          else Next {| cwd := cwd b; pos := pos';
                       sort_mode := sort_mode b; spinner_idx := spinner_idx b |}
      end
  else if ch =? KEY_LEFT then
    let parent := posixpath.dirname (cwd b) in
    if bool_decide (parent <> []) && bool_decide (parent ∈ exists_ st)
    then Next {| cwd := parent; pos := 0;
                 sort_mode := sort_mode b; spinner_idx := spinner_idx b |}
    else Next b
  else if ch =? ord_s then
    Next {| cwd := cwd b; pos := pos b;
            sort_mode := (sort_mode b + 1) mod 3; spinner_idx := spinner_idx b |}
  else Next b.

(** ** Scanner thread and browser loop together *)

(** What happens next: the scanner runs its next critical section, the
    browser redraws, or the browser reads a key, the scanner running
    [between] critical sections while the key is handled. *)
Inductive event :=
| EvScan
| EvDraw
| EvKey (ch : Z) (between : nat).

Record system := mkSystem {
  todo : list op;          (* critical sections the scanner has yet to run *)
  shared : State;
  browser : Browser;
  running : bool           (* the loop of [Browser.run] has not ended *)
}.

Definition sys_step (s : system) (e : event) : system :=
  match e with
  | EvScan =>
      match todo s with
      | [] => s
      | o :: ops =>
          {| todo := ops; shared := exec (shared s) o;
             browser := browser s; running := running s |}
      end
  | EvDraw =>
      if running s
      then {| todo := todo s; shared := shared s;
              browser := draw (shared s) (browser s); running := true |}
      else s
  | EvKey ch between =>
      if running s then
        let st' := run (take between (todo s)) (shared s) in
        match on_key (shared s) st' ch (browser s) with
        | Next b' =>
            {| todo := drop between (todo s); shared := st';
               browser := b'; running := true |}
        | _ =>
            {| todo := drop between (todo s); shared := st';
               browser := browser s; running := false |}
        end
      else s
  end.

Definition sys_run (evs : list event) (s : system) : system := fold_left sys_step evs s.

(** [main]: the scanner thread starts on a fresh state, then the browser. *)
Definition sys_init (root0 : str) (es : list entry) (order : list (str * option Z)) : system :=
  let st := State_init root0 in
  {| todo := scan_ops root0 es order; shared := st;
     browser := Browser_init st; running := true |}.

(** [main]: the root the scan starts from, [sys.argv[1]] if there is one
    and ["/"] otherwise, made absolute. *)
Definition main_root (argv : list str) : str :=
  posixpath.abspath getcwd (match argv with _ :: a :: _ => a | _ => py "/" end).

(** ** Well-formed directory trees *)

(** A name a directory listing can hold: not empty, without a slash. *)
Definition valid_name (n : str) : bool :=
  negb (bool_decide (n = [])) && forallb (fun c => negb (is_sep c)) n.

(** A directory path as [abspath] and [join] produce them: not empty, and
    without a trailing slash unless it is made of slashes only. *)
Definition good_dir (d : str) : bool :=
  negb (bool_decide (d = [])) && (all_sep d || negb (endswith_sep d)).

(** The names of a listing are valid and pairwise distinct, in every
    directory of the tree. *)
Fixpoint wf_entry (e : entry) : bool :=
  valid_name (entry_name e)
  && match e with
     | Dir _ sub => bool_decide (NoDup (map entry_name sub)) && forallb wf_entry sub
     | _ => true
     end.

Definition wf_tree (es : list entry) : bool :=
  bool_decide (NoDup (map entry_name es)) && forallb wf_entry es.

(** [top] joined with the components [cs], one after the other. *)
Definition pjoin (top : str) (cs : list str) : str := fold_left posixpath.join cs top.

(** ** Notions the properties are stated with *)

(** The sum of [f] over a list. *)
Definition sum_with {A} (f : A -> Z) (l : list A) : Z := foldr (fun x acc => f x + acc) 0 l.

(** How often [p] occurs in [l]. *)
Definition occ (p : str) (l : list str) : Z :=
  sum_with (fun x => if bool_decide (x = p) then 1 else 0) l.

(** The bytes of the files below a listing that could be read. *)
Fixpoint entry_bytes (e : entry) : Z :=
  match e with
  | File _ r => default 0 r
  | Dir _ sub => sum_with entry_bytes sub
  | Link _ => 0
  end.

Definition tree_bytes (es : list entry) : Z := sum_with entry_bytes es.

(** The paths the walk registers as directories. *)
Definition dir_paths (top : str) (es : list entry) : list str :=
  top :: flat_map (fun '(d, dns, _) => map (posixpath.join d) dns) (walk top es).

(** The paths the walk registers as files. *)
Definition file_paths (top : str) (es : list entry) : list str := (submitted top es).*1.

(** The children a list of critical sections appends to [children[d]]
    without looking. *)
Definition appended (d : str) (ops : list op) : list str :=
  flat_map (fun o =>
              match o with
              | PreChild d' n => if bool_decide (d' = d) then [posixpath.join d' n] else []
              | LiveFile d' f => if bool_decide (d' = d) then [posixpath.join d' f] else []
              | _ => []
              end) ops.

(** The futures a list of critical sections has completed. *)
Definition completed (ops : list op) : list (str * option Z) :=
  flat_map (fun o => match o with Complete p r => [(p, r)] | _ => [] end) ops.

(** How many times the completion of the future [t] adds its size to
    [size[p]]: once if [p] is the file, once for each time [p] is on the
    chain of its ancestors. *)
Definition weight (rt p : str) (t : str * option Z) : Z :=
  (if bool_decide (p = t.1) then 1 else 0)
  + occ p (ancestors (posixpath.dirname t.1) rt).

(** Every child a [LiveDir] section looks for is already listed. *)
Definition live_dirs_listed (st : State) (o : op) : Prop :=
  match o with
  | LiveDir d dns => forall n, n ∈ dns -> posixpath.join d n ∈ children_get st d
  | _ => True
  end.

(** The paths of the children of the directory [d]: first the directories
    of its listing, then its files. *)
Definition listing_paths (d : str) (dns : list str) (fns : list (str * option Z)) : list str :=
  map (posixpath.join d) dns ++ map (fun f => posixpath.join d f.1) fns.

(** What the completed futures [done] have added to [size[p]]. *)
Definition total (rt : str) (done : list (str * option Z)) (p : str) : Z :=
  sum_with (fun t => default 0 t.2 * weight rt p t) done.

(** By how much a list of critical sections advances [seen_files +
    seen_dirs] and [total_files + total_dirs]. *)
Definition seen_steps (ops : list op) : Z :=
  sum_with (fun o => match o with LiveDir _ _ | Complete _ _ => 1 | _ => 0 end) ops.

Definition total_steps (ops : list op) : Z :=
  sum_with (fun o => match o with PreDir _ => 1 | PreFiles n => Z.of_nat n | _ => 0 end) ops.

(** What holds of the shared state at every point of a scan of the tree
    [es] below [top]: only paths of the tree are recorded, and the recorded
    directories are exactly the ones marked as directories. *)
Definition scan_inv (top : str) (es : list entry) (st : State) : Prop :=
  root st = top
  /\ (forall p, p ∈ exists_ st -> p ∈ dir_paths top es \/ p ∈ file_paths top es)
  /\ (forall p, is_dir st !! p = Some true -> p ∈ dir_paths top es)
  /\ (forall p, p ∈ exists_ st -> p ∈ dir_paths top es -> is_dir st !! p = Some true).

(** The paths a critical section registers are paths of the tree. *)
Definition op_ok (top : str) (es : list entry) (o : op) : Prop :=
  match o with
  | PreDir d | LiveDir d _ => d ∈ dir_paths top es
  | PreChild d n => posixpath.join d n ∈ dir_paths top es
  | LiveFile d f => posixpath.join d f ∈ file_paths top es
  | _ => True
  end.

(** The current directory of the browser is the scan root or a recorded
    path marked as a directory. *)
Definition cwd_ok (st : State) (b : Browser) : Prop :=
  cwd b = root st \/ (cwd b ∈ exists_ st /\ is_dir st !! cwd b = Some true).

(** What holds of scanner and browser together along a scan of [es]
    below [top]: the scanner is somewhere in its list of critical sections,
    and the current directory of the browser is recorded. *)
Definition sys_inv (top : str) (es : list entry) (order : list (str * option Z))
    (s : system) : Prop :=
  exists pre,
    scan_ops top es order = pre ++ todo s
    /\ shared s = run pre (State_init top)
    /\ cwd_ok (shared s) (browser s).

(** [st'] holds everything [st] holds: what was recorded is still
    recorded, the lists of children have only grown at the end, and no
    counter has gone down. *)
Definition grows (st st' : State) : Prop :=
  root st' = root st
  /\ exists_ st ⊆ exists_ st'
  /\ (forall d, children_get st d `prefix_of` children_get st' d)
  /\ (forall p, is_Some (is_dir st !! p) -> is_Some (is_dir st' !! p))
  /\ (forall p, is_Some (size st !! p) -> is_Some (size st' !! p))
  /\ total_files st <= total_files st' /\ seen_files st <= seen_files st'
  /\ total_dirs st <= total_dirs st' /\ seen_dirs st <= seen_dirs st'
  /\ errors st <= errors st'
  /\ (scanning st = false -> scanning st' = false).

(** The paths a list of critical sections records in [exists]. *)
Definition registered (ops : list op) : list str :=
  flat_map (fun o =>
              match o with
              | PreDir d | LiveDir d _ => [d]
              | PreChild d n | LiveFile d n => [posixpath.join d n]
              | _ => []
              end) ops.

(** The futures among [l] whose file could not be read. *)
Definition unreadable (l : list (str * option Z)) : list (str * option Z) :=
  filter (fun t => t.2 = None) l.

(** A component [normpath] keeps in an absolute path: a name that is
    neither [.] nor [..]. *)
Definition plain_name (w : str) : bool :=
  valid_name w && negb (bool_decide (w = py ".")) && negb (bool_decide (w = py "..")).

(** ** A small tree *)

(** A root with a file, a directory of three files, one of which cannot
    be read, and a symbolic link to a directory. *)
Definition example_tree : list entry :=
  [ File (py "r") (Some 400);
    Dir (py "A") [ File (py "a1") (Some 100); File (py "a2") None; File (py "a3") (Some 300) ];
    Link (py "L") ].

Definition example_root : str := py "/data".

Definition example_cwd : str := py "/home/user".

(** The command line [pydu.py /data]. *)
Definition example_argv : list str := [py "pydu.py"; py "/data"].

(** A [float(s)] that accepts no string. *)
Definition example_float_of_str (s : str) : option pyfloat := None.

(** A rounding that leaves every result as it is; the results of the
    example are doubles already. *)
Definition example_fround (q : Q) : Q := q.

(** The scanner pre-counts, the user goes down and descends into [A]
    while the scan goes on, then goes back up. *)
Definition example_events : list event :=
  [EvScan; EvScan; EvScan; EvScan; EvScan; EvScan; EvDraw;
   EvKey KEY_DOWN 2; EvDraw; EvKey KEY_RIGHT 3; EvScan; EvDraw; EvKey KEY_LEFT 0;
   EvKey KEY_LEFT 1; EvDraw].

(** * Properties *)

(** ** Size formatter *)

Lemma human_loop_steps us x :
  exists k : nat,
    (k <= length us)%nat
    /\ (forall j : nat, (j < k)%nat -> lt_1024 (Nat.iter j div_1024 x) = false)
    /\ (k = length us \/ lt_1024 (Nat.iter k div_1024 x) = true)
    /\ human_loop us x
       = format_1f (Nat.iter k div_1024 x) ++ [nth k (us ++ ["E"%char]) "E"%char].
Proof.
  revert x. induction us as [|u us IH]; intros x.
  - exists 0%nat. simpl. split; [lia|]. split; [intros j Hj; lia|]. auto.
  - simpl. destruct (lt_1024 x) eqn:Hx.
    + exists 0%nat. simpl. split; [lia|]. split; [intros j Hj; lia|]. auto.
    + destruct (IH (div_1024 x)) as (k & Hk & Hlt & Hend & Heq).
      exists (S k). repeat split.
      * simpl. lia.
      * intros [|j] Hj; [exact Hx|]. rewrite Nat.iter_succ_r. apply Hlt. lia.
      * destruct Hend as [->|Hend]; [left; reflexivity|right].
        rewrite Nat.iter_succ_r. exact Hend.
      * rewrite Nat.iter_succ_r. exact Heq.
Qed.

Lemma pretty_digit (d : Z) :
  0 <= d < 10 -> exists c, py (pretty d) = [c] /\ is_digit c = true.
Proof.
  intros H.
  assert (d = 0 \/ d = 1 \/ d = 2 \/ d = 3 \/ d = 4 \/ d = 5 \/ d = 6 \/ d = 7
          \/ d = 8 \/ d = 9) as Hd by lia.
  repeat (destruct Hd as [->|Hd]; [eexists; split; vm_compute; reflexivity|]).
  subst d. eexists; split; vm_compute; reflexivity.
Qed.

Lemma format_1f_shape q :
  (0 <= q)%Q ->
  exists (i : Z) (c : ascii),
    is_digit c = true /\ format_1f (Finite q) = py (pretty i) ++ py "." ++ [c].
Proof.
  intros Hq. unfold format_1f.
  destruct (Qlt_le_dec q 0) as [Hneg|_].
  { exfalso. apply (Qlt_not_le _ _ Hneg Hq). }
  set (t := round_half_even (Qabs q * 10)).
  destruct (pretty_digit (t mod 10)) as (c & Hc & Hdig).
  { apply Z.mod_pos_bound. lia. }
  exists (t / 10), c. split; [exact Hdig|]. rewrite Hc. reflexivity.
Qed.

Lemma iter_div_1024_finite k q :
  exists q', Nat.iter k div_1024 (Finite q) = Finite q' /\ ((0 <= q)%Q -> (0 <= q')%Q).
Proof.
  induction k as [|k IH].
  - exists q. split; auto.
  - destruct IH as (q' & Heq & Hpos). simpl. rewrite Heq. simpl.
    exists (q' / 1024)%Q. split; [reflexivity|].
    intros Hq. apply Qle_shift_div_l; [reflexivity|]. rewrite Qmult_0_l. auto.
Qed.

Lemma float_of_int_exact z :
  0 <= z < 2 ^ 53 -> float_of_int z = Some (Finite (inject_Z z)).
Proof.
  intros [H0 H53]. unfold float_of_int.
  rewrite Z.abs_eq by lia.
  assert (Z.log2 z + 1 <= 53) as Hbits.
  { destruct (Z.eq_dec z 0) as [->|Hz]; [simpl; lia|].
    assert (Z.log2 z < 53); [|lia]. apply Z.log2_lt_pow2; lia. }
  rewrite (proj2 (Z.leb_le _ _) Hbits).
  assert ((2 ^ 1024 <=? z) = false) as ->.
  { apply Z.leb_gt. apply Z.lt_trans with (2 ^ 53); [lia|].
    apply Z.pow_lt_mono_r; lia. }
  assert ((z <? 0) = false) as -> by (apply Z.ltb_ge; lia).
  reflexivity.
Qed.

Lemma float_of_int_nonneg z x :
  0 <= z -> float_of_int z = Some x -> exists q, x = Finite q /\ (0 <= q)%Q.
Proof.
  intros Hz. unfold float_of_int.
  rewrite Z.abs_eq by lia.
  assert ((z <? 0) = false) as -> by (apply Z.ltb_ge; lia).
  set (r := if Z.log2 z + 1 <=? 53 then z else _).
  assert (0 <= r) as Hr.
  { subst r. destruct (Z.log2 z + 1 <=? 53); [lia|].
    apply Z.shiftl_nonneg.
    assert (0 <= Z.shiftr z (Z.log2 z + 1 - 53)) by (apply Z.shiftr_nonneg; lia).
    destruct (_ || _); lia. }
  destruct (2 ^ 1024 <=? r); [discriminate|].
  intros [= <-]. eexists. split; [reflexivity|].
  unfold Qle. simpl. lia.
Qed.

(** C8. For a non-negative byte count [z] that [float] accepts, [human]
    divides by 1024 some [k] times, where every value before the [k]-th was
    at least 1024 and the [k]-th is below 1024 unless the six suffixes
    B K M G T P are used up; it then writes the value with one digit after
    the point, followed by the [k]-th suffix of B K M G T P E.  A count
    below 2^53 is converted exactly.  0, 1024, 1536 and 1048576 give
    0.0B, 1.0K, 1.5K and 1.0M. *)
Theorem human_divides_then_formats (z : Z) (x : pyfloat) :
  0 <= z ->
  float_of_int z = Some x ->
  (z < 2 ^ 53 -> x = Finite (inject_Z z))
  /\ (exists (k : nat) (q : Q) (i : Z) (c : ascii),
        (k <= 6)%nat
        /\ (forall j : nat, (j < k)%nat -> lt_1024 (Nat.iter j div_1024 x) = false)
        /\ (k = 6%nat \/ lt_1024 (Nat.iter k div_1024 x) = true)
        /\ Nat.iter k div_1024 x = Finite q
        /\ is_digit c = true
        /\ format_1f (Finite q) = py (pretty i) ++ py "." ++ [c]
        /\ human (PyInt z) = format_1f (Finite q) ++ [nth k all_units "E"%char])
  /\ human (PyInt 0) = py "0.0B"
  /\ human (PyInt 1024) = py "1.0K"
  /\ human (PyInt 1536) = py "1.5K"
  /\ human (PyInt 1048576) = py "1.0M".
Proof.
  intros Hz Hx. split; [|split].
  - intros H53. rewrite float_of_int_exact in Hx by lia. congruence.
  - destruct (float_of_int_nonneg z x Hz Hx) as (q0 & -> & Hq0).
    destruct (human_loop_steps units (Finite q0)) as (k & Hk & Hlt & Hend & Heq).
    destruct (iter_div_1024_finite k q0) as (q & Hq & Hpos).
    destruct (format_1f_shape q (Hpos Hq0)) as (i & c & Hc & Hfmt).
    exists k, q, i, c. repeat split; auto.
    unfold human, py_float. rewrite Hx, Heq, Hq. reflexivity.
  - repeat split; vm_compute; reflexivity.
Qed.

Lemma format_1f_nonempty x : (1 <= length (format_1f x))%nat.
Proof.
  destruct x as [q| |[|]|]; try (simpl; lia).
  unfold format_1f. rewrite !length_app. change (length (py ".")) with 1%nat. lia.
Qed.

Lemma human_loop_length us x : (2 <= length (human_loop us x))%nat.
Proof.
  destruct (human_loop_steps us x) as (k & _ & _ & _ & ->).
  rewrite length_app. pose proof (format_1f_nonempty (Nat.iter k div_1024 x)).
  simpl. lia.
Qed.

(** [float] refuses an [int] of magnitude 2^1024 or more. *)
Lemma float_of_int_overflow z : 2 ^ 1024 <= Z.abs z -> float_of_int z = None.
Proof.
  intros Hz. unfold float_of_int.
  set (a := Z.abs z) in *. set (bits := Z.log2 a + 1).
  assert (0 < 2 ^ 1024) as Hpos by (apply Z.pow_pos_nonneg; lia).
  assert (1024 <= Z.log2 a) as Hlog.
  { change 1024 with (Z.log2 (2 ^ 1024)) at 1. apply Z.log2_le_mono. exact Hz. }
  assert ((bits <=? 53) = false) as -> by (apply Z.leb_gt; unfold bits; lia).
  set (sh := bits - 53). set (m := Z.shiftr a sh).
  assert (0 <= sh) as Hsh by (unfold sh, bits; lia).
  assert (2 ^ 52 * 2 ^ sh <= a) as Ha.
  { rewrite <- Z.pow_add_r by lia. replace (52 + sh) with (Z.log2 a) by (unfold sh, bits; lia).
    apply Z.log2_spec. lia. }
  assert (0 < 2 ^ sh) as Hp by (apply Z.pow_pos_nonneg; lia).
  assert (2 ^ 52 <= m) as Hm.
  { unfold m. rewrite Z.shiftr_div_pow2 by exact Hsh.
    apply Z.div_le_lower_bound; [exact Hp|]. rewrite Z.mul_comm. exact Ha. }
  set (up := _ || _).
  assert (2 ^ 1024 <= Z.shiftl (if up then m + 1 else m) sh) as Hr.
  { rewrite Z.shiftl_mul_pow2 by exact Hsh.
    apply Z.le_trans with (2 ^ 52 * 2 ^ sh).
    - rewrite <- Z.pow_add_r by lia. apply Z.pow_le_mono_r; [lia|].
      unfold sh, bits. lia.
    - apply Z.mul_le_mono_nonneg_r; [lia|]. destruct up; lia. }
  apply Z.leb_le in Hr. rewrite Hr. reflexivity.
Qed.

(** C9. [human] never raises.  It returns the marker, which is the one
    character [?], exactly when [float(n)] raises; that is so for [None],
    for an [int] of magnitude 2^1024 or more, and for a [str] the parser of
    [float] rejects.  Whatever [float] accepts, an infinity or a NaN
    included, is written with a suffix, on two characters at least. *)
Theorem human_not_a_number (n : pyobj) :
  (py_float n = None <-> human n = py "?")
  /\ (py_float n <> None -> (2 <= length (human n))%nat)
  /\ human PyNone = py "?"
  /\ (forall z, 2 ^ 1024 <= Z.abs z -> human (PyInt z) = py "?")
  /\ (forall s, float_of_str s = None -> human (PyStr s) = py "?")
  /\ (forall x, py_float (PyFloat x) = Some x).
Proof.
  assert (forall x, py_float n = Some x -> (2 <= length (human n))%nat) as Hlen.
  { intros x Hx. unfold human. rewrite Hx. apply human_loop_length. }
  split; [split|split; [|split; [|split; [|split]]]].
  - intros H. unfold human. rewrite H. reflexivity.
  - intros H. destruct (py_float n) as [x|] eqn:Hx; [|reflexivity].
    specialize (Hlen x eq_refl). rewrite H in Hlen. simpl in Hlen. lia.
  - intros H. destruct (py_float n) as [x|]; [eauto|congruence].
  - reflexivity.
  - intros z Hz. unfold human, py_float. rewrite (float_of_int_overflow z Hz). reflexivity.
  - intros s Hs. unfold human, py_float. rewrite Hs. reflexivity.
  - reflexivity.
Qed.


(** ** Paths *)

Lemma dropwhile_app_all {A} (f : A -> bool) (l1 l2 : list A) :
  forallb f l1 = true -> dropwhile f (l1 ++ l2) = dropwhile f l2.
Proof.
  induction l1 as [|x l1 IH]; simpl; [reflexivity|].
  intros H. apply andb_prop in H as [Hx Hl]. rewrite Hx. auto.
Qed.

Lemma forallb_rev {A} (f : A -> bool) (l : list A) :
  forallb f (rev l) = forallb f l.
Proof.
  induction l as [|x l IH]; simpl; [reflexivity|].
  rewrite forallb_app, IH. simpl. rewrite andb_true_r. apply andb_comm.
Qed.

Lemma valid_name_nonempty n : valid_name n = true -> n <> [].
Proof.
  unfold valid_name. intros H. apply andb_prop in H as [H _].
  apply negb_true_iff in H. apply bool_decide_eq_false in H. exact H.
Qed.

Lemma valid_name_nosep n :
  valid_name n = true -> forallb (fun c => negb (is_sep c)) n = true.
Proof. unfold valid_name. intros H. apply andb_prop in H as [_ H]. exact H. Qed.

Lemma valid_name_start n : valid_name n = true -> startswith_sep n = false.
Proof.
  intros H. pose proof (valid_name_nosep n H) as Hs.
  destruct n as [|c n]; [reflexivity|]. simpl in *.
  apply andb_prop in Hs as [Hc _]. apply negb_true_iff in Hc. exact Hc.
Qed.

Lemma good_dir_nonempty d : good_dir d = true -> d <> [].
Proof.
  unfold good_dir. intros H. apply andb_prop in H as [H _].
  apply negb_true_iff in H. apply bool_decide_eq_false in H. exact H.
Qed.

Lemma all_sep_endswith d : d <> [] -> all_sep d = true -> endswith_sep d = true.
Proof.
  intros Hd Hall. unfold endswith_sep, all_sep in *.
  rewrite <- forallb_rev in Hall.
  destruct (rev d) as [|c r] eqn:Hr.
  - apply (f_equal (@rev ascii)) in Hr. rewrite rev_involutive in Hr. contradiction.
  - simpl in *. apply andb_prop in Hall as [Hc _]. exact Hc.
Qed.

Lemma join_cases d n :
  good_dir d = true -> valid_name n = true ->
  (all_sep d = true /\ posixpath.join d n = d ++ n)
  \/ (all_sep d = false /\ endswith_sep d = false /\ posixpath.join d n = d ++ sep :: n).
Proof.
  intros Hd Hn. unfold posixpath.join. rewrite (valid_name_start n Hn).
  pose proof (good_dir_nonempty d Hd) as Hne.
  rewrite bool_decide_eq_false_2 by exact Hne. simpl.
  unfold good_dir in Hd. apply andb_prop in Hd as [_ Hd].
  destruct (all_sep d) eqn:Hall.
  - left. rewrite (all_sep_endswith d Hne Hall). auto.
  - right. simpl in Hd. apply negb_true_iff in Hd. rewrite Hd. auto.
Qed.

Lemma join_length d n :
  good_dir d = true -> valid_name n = true ->
  (length d < length (posixpath.join d n))%nat.
Proof.
  intros Hd Hn. pose proof (valid_name_nonempty n Hn) as Hne.
  destruct n as [|c n]; [contradiction|].
  destruct (join_cases d (c :: n) Hd Hn) as [[_ ->]|(_ & _ & ->)];
    rewrite length_app; simpl; lia.
Qed.

Lemma join_inj d n n' :
  good_dir d = true -> valid_name n = true -> valid_name n' = true ->
  posixpath.join d n = posixpath.join d n' -> n = n'.
Proof.
  intros Hd Hn Hn' Heq.
  destruct (join_cases d n Hd Hn) as [[Ha Hi]|(Ha & _ & Hi)];
    destruct (join_cases d n' Hd Hn') as [[Ha' Hj]|(Ha' & _ & Hj)];
    rewrite Hi, Hj in Heq; try congruence.
  - apply app_inv_head in Heq. exact Heq.
  - apply app_inv_head in Heq. congruence.
Qed.

Lemma join_good d n :
  good_dir d = true -> valid_name n = true -> good_dir (posixpath.join d n) = true.
Proof.
  intros Hd Hn.
  assert (exists pre, posixpath.join d n = pre ++ n) as [pre Hj].
  { destruct (join_cases d n Hd Hn) as [[_ ->]|(_ & _ & ->)].
    - exists d. reflexivity.
    - exists (d ++ [sep]). rewrite <- app_assoc. reflexivity. }
  rewrite Hj. unfold good_dir.
  pose proof (valid_name_nonempty n Hn) as Hne.
  pose proof (valid_name_nosep n Hn) as Hns.
  apply andb_true_intro. split.
  - apply negb_true_iff. apply bool_decide_eq_false. intros H.
    apply app_eq_nil in H as [_ H]. contradiction.
  - apply orb_true_iff. right. apply negb_true_iff.
    unfold endswith_sep. rewrite rev_app_distr.
    rewrite <- forallb_rev in Hns.
    destruct (rev n) as [|c r] eqn:Hr.
    + apply (f_equal (@rev ascii)) in Hr. rewrite rev_involutive in Hr. contradiction.
    + simpl in *. apply andb_prop in Hns as [Hc _]. apply negb_true_iff in Hc. exact Hc.
Qed.

Lemma dropwhile_stop {A} (f : A -> bool) (x : A) (l : list A) :
  f x = false -> dropwhile f (x :: l) = x :: l.
Proof. intros H. simpl. rewrite H. reflexivity. Qed.

Lemma dropwhile_skip {A} (f : A -> bool) (x : A) (l : list A) :
  f x = true -> dropwhile f (x :: l) = dropwhile f l.
Proof. intros H. simpl. rewrite H. reflexivity. Qed.

Lemma rev_nonempty {A} (l : list A) : l <> [] -> exists c r, rev l = c :: r.
Proof.
  intros Hne. destruct (rev l) as [|c r] eqn:Hr; [|eauto].
  apply (f_equal (@rev A)) in Hr. rewrite rev_involutive in Hr. contradiction.
Qed.

Lemma dirname_join d n :
  good_dir d = true -> valid_name n = true ->
  posixpath.dirname (posixpath.join d n) = d.
Proof.
  intros Hd Hn.
  pose proof (good_dir_nonempty d Hd) as Hne.
  pose proof (valid_name_nosep n Hn) as Hns. rewrite <- forallb_rev in Hns.
  destruct (rev_nonempty d Hne) as (c & r & Hr).
  unfold posixpath.dirname, posixpath.head_of.
  destruct (join_cases d n Hd Hn) as [[Ha ->]|(Ha & He & ->)].
  - rewrite rev_app_distr, dropwhile_app_all by exact Hns.
    pose proof (all_sep_endswith d Hne Ha) as He. unfold endswith_sep in He.
    rewrite Hr in He. simpl in He.
    rewrite Hr, dropwhile_stop by (rewrite He; reflexivity).
    rewrite <- Hr, rev_involutive, Ha. rewrite andb_false_r. reflexivity.
  - assert (rev (d ++ sep :: n) = rev n ++ sep :: rev d) as ->.
    { rewrite rev_app_distr. simpl. rewrite <- app_assoc. reflexivity. }
    rewrite dropwhile_app_all by exact Hns.
    rewrite dropwhile_stop by (unfold is_sep; rewrite bool_decide_eq_true_2; reflexivity).
    assert (rev (sep :: rev d) = d ++ [sep]) as ->.
    { simpl. rewrite rev_involutive. reflexivity. }
    assert (all_sep (d ++ [sep]) = false) as ->.
    { unfold all_sep in *. rewrite forallb_app, Ha. reflexivity. }
    rewrite bool_decide_eq_true_2.
    2:{ intros H. apply app_eq_nil in H as [_ H]. discriminate. }
    cbn [andb negb]. unfold rstrip_sep.
    assert (rev (d ++ [sep]) = sep :: rev d) as ->.
    { rewrite rev_app_distr. reflexivity. }
    rewrite dropwhile_skip by (unfold is_sep; rewrite bool_decide_eq_true_2; reflexivity).
    unfold endswith_sep in He. rewrite Hr in He. simpl in He.
    rewrite Hr, dropwhile_stop by exact He.
    rewrite <- Hr. apply rev_involutive.
Qed.

Lemma split_sep_nosep p :
  Forall (fun w => forallb (fun c => negb (is_sep c)) w = true) (posixpath.split_sep p).
Proof.
  induction p as [|c p IH]; simpl.
  - constructor; [reflexivity|constructor].
  - destruct (is_sep c) eqn:Hc.
    + constructor; [reflexivity|exact IH].
    + destruct (posixpath.split_sep p) as [|w ws].
      * constructor; [simpl; rewrite Hc; reflexivity|constructor].
      * inversion IH as [|? ? Hw Hws]; subst.
        constructor; [simpl; rewrite Hc; exact Hw|exact Hws].
Qed.

Lemma Forall_removelast {A} (P : A -> Prop) (l : list A) :
  Forall P l -> Forall P (removelast l).
Proof.
  induction 1 as [|x l Hx Hl IH]; [constructor|].
  simpl. destruct l; [constructor|]. constructor; assumption.
Qed.

Lemma norm_step_valid k acc comp :
  Forall (fun w => valid_name w = true) acc ->
  forallb (fun c => negb (is_sep c)) comp = true ->
  Forall (fun w => valid_name w = true) (posixpath.norm_step k acc comp).
Proof.
  intros Hacc Hcomp. unfold posixpath.norm_step.
  destruct (bool_decide (comp = [])) eqn:He; [exact Hacc|]. simpl.
  destruct (bool_decide (comp = ["."%char])); [exact Hacc|].
  destruct (_ || _).
  - apply Forall_app. split; [exact Hacc|]. constructor; [|constructor].
    unfold valid_name. rewrite He, Hcomp. reflexivity.
  - apply Forall_removelast. exact Hacc.
Qed.

Lemma norm_fold_valid k l acc :
  Forall (fun w => valid_name w = true) acc ->
  Forall (fun w => forallb (fun c => negb (is_sep c)) w = true) l ->
  Forall (fun w => valid_name w = true) (fold_left (posixpath.norm_step k) l acc).
Proof.
  revert acc. induction l as [|x l IH]; intros acc Hacc Hl; simpl; [exact Hacc|].
  inversion Hl; subst. apply IH; [|assumption].
  apply norm_step_valid; assumption.
Qed.

Lemma join_sep_last comps :
  comps <> [] -> Forall (fun w => valid_name w = true) comps ->
  exists c r, rev (posixpath.join_sep comps) = c :: r /\ is_sep c = false.
Proof.
  induction comps as [|w ws IH]; [contradiction|]. intros _ Hall.
  inversion Hall as [|? ? Hw Hws]; subst.
  destruct ws as [|w' ws'].
  - simpl. pose proof (valid_name_nosep w Hw) as Hns. rewrite <- forallb_rev in Hns.
    destruct (rev_nonempty w (valid_name_nonempty w Hw)) as (c & r & Hr).
    exists c, r. split; [exact Hr|]. rewrite Hr in Hns. simpl in Hns.
    apply andb_prop in Hns as [Hc _]. apply negb_true_iff in Hc. exact Hc.
  - destruct IH as (c & r & Hr & Hc); [discriminate|exact Hws|].
    exists c, (r ++ sep :: rev w). split; [|exact Hc].
    change (posixpath.join_sep (w :: w' :: ws'))
      with (w ++ sep :: posixpath.join_sep (w' :: ws')).
    rewrite rev_app_distr.
    change (rev (sep :: posixpath.join_sep (w' :: ws')))
      with (rev (posixpath.join_sep (w' :: ws')) ++ [sep]).
    rewrite Hr. simpl. rewrite <- app_assoc. reflexivity.
Qed.

Lemma normpath_good x : good_dir (posixpath.normpath x) = true.
Proof.
  unfold posixpath.normpath.
  destruct (bool_decide (x = [])); [reflexivity|].
  set (k := if startswith_sep x then _ else _).
  set (comps := fold_left (posixpath.norm_step k) (posixpath.split_sep x) []).
  assert (Forall (fun w => valid_name w = true) comps) as Hcomps.
  { apply norm_fold_valid; [constructor|apply split_sep_nosep]. }
  destruct (bool_decide (replicate k sep ++ posixpath.join_sep comps = [])) eqn:He;
    [reflexivity|].
  apply bool_decide_eq_false in He.
  unfold good_dir. rewrite bool_decide_eq_false_2 by exact He. simpl.
  destruct comps as [|w ws].
  - simpl. rewrite app_nil_r. apply orb_true_iff. left.
    unfold all_sep. clear. induction k as [|k IHk]; [reflexivity|exact IHk].
  - destruct (join_sep_last (w :: ws)) as (c & r & Hr & Hc); [discriminate|exact Hcomps|].
    apply orb_true_iff. right. unfold endswith_sep.
    rewrite rev_app_distr, Hr. simpl. rewrite Hc. reflexivity.
Qed.

Lemma abspath_good r : posixpath.abspath getcwd r = r -> good_dir r = true.
Proof. intros <-. apply normpath_good. Qed.

(** [pjoin] *)

Lemma pjoin_snoc d cs n : pjoin d (cs ++ [n]) = posixpath.join (pjoin d cs) n.
Proof. unfold pjoin. rewrite fold_left_app. reflexivity. Qed.

Lemma pjoin_cons d n cs : pjoin d (n :: cs) = pjoin (posixpath.join d n) cs.
Proof. reflexivity. Qed.

Lemma pjoin_good d cs :
  good_dir d = true -> Forall (fun w => valid_name w = true) cs ->
  good_dir (pjoin d cs) = true.
Proof.
  revert d. induction cs as [|n cs IH]; intros d Hd Hcs; [exact Hd|].
  inversion Hcs; subst. rewrite pjoin_cons. apply IH; [|assumption].
  apply join_good; assumption.
Qed.

Lemma pjoin_length d cs :
  good_dir d = true -> Forall (fun w => valid_name w = true) cs ->
  (length d <= length (pjoin d cs))%nat
  /\ (cs <> [] -> (length d < length (pjoin d cs))%nat).
Proof.
  revert d. induction cs as [|n cs IH]; intros d Hd Hcs.
  - split; [reflexivity|]. intros H. contradiction.
  - inversion Hcs; subst. rewrite pjoin_cons.
    pose proof (join_length d n Hd ltac:(assumption)) as Hl.
    destruct (IH (posixpath.join d n)) as [Hle _]; [apply join_good; assumption|assumption|].
    split; [lia|]. intros _. lia.
Qed.

Lemma pjoin_inj d cs cs' :
  good_dir d = true ->
  Forall (fun w => valid_name w = true) cs -> Forall (fun w => valid_name w = true) cs' ->
  pjoin d cs = pjoin d cs' -> cs = cs'.
Proof.
  intros Hd. revert cs'. induction cs as [|n cs IH] using rev_ind; intros cs' Hcs Hcs' Heq.
  - destruct cs' as [|n' cs']; [reflexivity|].
    destruct (pjoin_length d (n' :: cs') Hd Hcs') as [_ Hlt].
    rewrite <- Heq in Hlt. simpl in Hlt. specialize (Hlt ltac:(discriminate)). lia.
  - apply Forall_app in Hcs as [Hcs Hn]. inversion Hn; subst.
    destruct cs' as [|n' cs' _] using rev_ind.
    + destruct (pjoin_length d (cs ++ [n]) Hd) as [_ Hlt].
      { apply Forall_app. split; assumption. }
      rewrite Heq in Hlt. simpl in Hlt.
      specialize (Hlt ltac:(intros H; apply app_eq_nil in H as [_ H]; discriminate)). lia.
    + apply Forall_app in Hcs' as [Hcs' Hn']. inversion Hn'; subst.
      rewrite !pjoin_snoc in Heq.
      assert (pjoin d cs = pjoin d cs') as Hd'.
      { rewrite <- (dirname_join (pjoin d cs) n), <- (dirname_join (pjoin d cs') n');
          auto using pjoin_good. rewrite Heq. reflexivity. }
      rewrite (IH cs' Hcs Hcs' Hd'). f_equal. f_equal.
      rewrite Hd' in Heq. eapply join_inj; [| | |exact Heq]; auto using pjoin_good.
Qed.

(** [ancestors] *)

Lemma dropwhile_suffix {A} (f : A -> bool) (l : list A) :
  exists pre, l = pre ++ dropwhile f l.
Proof.
  induction l as [|x l [pre IH]]; simpl.
  - exists []. reflexivity.
  - destruct (f x).
    + exists (x :: pre). simpl. f_equal. exact IH.
    + exists []. reflexivity.
Qed.

Lemma rev_dropwhile_rev_prefix {A} (f : A -> bool) (l : list A) :
  exists suf, l = rev (dropwhile f (rev l)) ++ suf.
Proof.
  destruct (dropwhile_suffix f (rev l)) as [pre Hpre].
  exists (rev pre). rewrite <- rev_app_distr, <- Hpre, rev_involutive. reflexivity.
Qed.

Lemma dirname_prefix p : exists suf, p = posixpath.dirname p ++ suf.
Proof.
  unfold posixpath.dirname, posixpath.head_of.
  destruct (rev_dropwhile_rev_prefix (fun c => negb (is_sep c)) p) as [suf Hsuf].
  destruct (_ && _).
  - unfold rstrip_sep.
    destruct (rev_dropwhile_rev_prefix is_sep
                (rev (dropwhile (fun c => negb (is_sep c)) (rev p)))) as [suf' Hsuf'].
    exists (suf' ++ suf). rewrite app_assoc, <- Hsuf'. exact Hsuf.
  - exists suf. exact Hsuf.
Qed.

Lemma dirname_shorter p :
  p <> posixpath.dirname p -> (length (posixpath.dirname p) < length p)%nat.
Proof.
  intros Hne. destruct (dirname_prefix p) as [suf Hsuf].
  destruct suf as [|c suf].
  - rewrite app_nil_r in Hsuf. contradiction.
  - rewrite Hsuf at 2. rewrite length_app. simpl. lia.
Qed.

Lemma ancestors_loop_fuel f f' p s :
  (length p < f)%nat -> (length p < f')%nat ->
  ancestors_loop f p s = ancestors_loop f' p s.
Proof.
  revert f' p. induction f as [|f IH]; intros f' p Hf Hf'; [lia|].
  destruct f' as [|f']; [lia|]. simpl. f_equal.
  destruct (bool_decide (p = s)); [reflexivity|]. simpl.
  destruct (bool_decide (p = posixpath.dirname p)) eqn:Hd; [reflexivity|].
  apply bool_decide_eq_false in Hd. pose proof (dirname_shorter p Hd).
  apply IH; lia.
Qed.

(** The loop of [ancestors] ends, and the list it returns is the one the
    source builds: [fuel] never runs out. *)
Lemma ancestors_unfold p s :
  ancestors p s
  = p :: (if bool_decide (p = posixpath.abspath getcwd s)
             || bool_decide (p = posixpath.dirname p)
          then [] else ancestors (posixpath.dirname p) s).
Proof.
  unfold ancestors.
  change (ancestors_loop (S (length p)) p (posixpath.abspath getcwd s))
    with (p :: (if bool_decide (p = posixpath.abspath getcwd s)
                   || bool_decide (p = posixpath.dirname p)
                then []
                else ancestors_loop (length p) (posixpath.dirname p)
                       (posixpath.abspath getcwd s))).
  f_equal.
  destruct (bool_decide (p = posixpath.abspath getcwd s)); [reflexivity|].
  destruct (bool_decide (p = posixpath.dirname p)) eqn:Hd; [reflexivity|].
  apply bool_decide_eq_false in Hd. pose proof (dirname_shorter p Hd).
  cbn [orb]. apply ancestors_loop_fuel; lia.
Qed.

Section Chain.

Variable rt : str.
Hypothesis Hrt : posixpath.abspath getcwd rt = rt.

Lemma rt_good : good_dir rt = true.
Proof. apply abspath_good. exact Hrt. Qed.

Lemma ancestors_root : ancestors rt rt = [rt].
Proof.
  rewrite ancestors_unfold, Hrt. rewrite bool_decide_eq_true_2 by reflexivity.
  reflexivity.
Qed.

Lemma ancestors_join d n :
  good_dir d = true -> valid_name n = true -> posixpath.join d n <> rt ->
  ancestors (posixpath.join d n) rt = posixpath.join d n :: ancestors d rt.
Proof.
  intros Hd Hn Hne. rewrite ancestors_unfold, Hrt.
  rewrite bool_decide_eq_false_2 by exact Hne.
  rewrite dirname_join by assumption.
  rewrite bool_decide_eq_false_2; [reflexivity|].
  intros H. pose proof (join_length d n Hd Hn) as Hl. rewrite H in Hl. lia.
Qed.

Lemma pjoin_ne_root cs :
  Forall (fun w => valid_name w = true) cs -> cs <> [] -> pjoin rt cs <> rt.
Proof.
  intros Hcs Hne H. destruct (pjoin_length rt cs rt_good Hcs) as [_ Hlt].
  specialize (Hlt Hne). rewrite H in Hlt. lia.
Qed.

(** The chain from a directory below the root up to the root. *)
Lemma ancestors_pjoin cs :
  Forall (fun w => valid_name w = true) cs ->
  ancestors (pjoin rt cs) rt
  = map (fun k => pjoin rt (take k cs)) (rev (seq 0 (S (length cs)))).
Proof.
  induction cs as [|n cs IH] using rev_ind; intros Hcs.
  - simpl. apply ancestors_root.
  - apply Forall_app in Hcs as [Hcs Hn]. inversion Hn; subst.
    rewrite pjoin_snoc, ancestors_join; auto using pjoin_good, rt_good.
    2:{ rewrite <- pjoin_snoc. apply pjoin_ne_root.
        - apply Forall_app. split; assumption.
        - intros H. apply app_eq_nil in H as [_ H]. discriminate. }
    rewrite IH by assumption.
    rewrite length_app. change (length [n]) with 1%nat.
    replace (S (length cs + 1)) with (S (S (length cs))) by lia.
    rewrite (seq_S (S (length cs)) 0), rev_app_distr.
    change (rev [(0 + S (length cs))%nat]) with [S (length cs)].
    change ([S (length cs)] ++ rev (seq 0 (S (length cs))))
      with (S (length cs) :: rev (seq 0 (S (length cs)))).
    rewrite map_cons. f_equal.
    + replace (S (length cs)) with (length (cs ++ [n]))
        by (rewrite length_app; simpl; lia).
      rewrite firstn_all. rewrite pjoin_snoc. reflexivity.
    + apply map_ext_in. intros k Hk. apply in_rev in Hk. apply in_seq in Hk.
      rewrite take_app_le by lia. reflexivity.
Qed.

End Chain.

(** ** The tree and the walk *)

Lemma entry_ind' (P : entry -> Prop) :
  (forall n r, P (File n r)) ->
  (forall n sub, Forall P sub -> P (Dir n sub)) ->
  (forall n, P (Link n)) ->
  forall e, P e.
Proof.
  intros Hf Hd Hl. fix IH 1. intros [n r|n sub|n]; [apply Hf| |apply Hl].
  apply Hd. induction sub as [|e sub IHs]; constructor; [apply IH|exact IHs].
Qed.

Lemma elem_of_flat_map {A B} (f : A -> list B) (l : list A) (b : B) :
  b ∈ flat_map f l <-> exists a, a ∈ l /\ b ∈ f a.
Proof.
  rewrite list_elem_of_In, in_flat_map. split; intros (a & Ha & Hb); exists a.
  - rewrite !list_elem_of_In. auto.
  - rewrite <- !list_elem_of_In. auto.
Qed.

Lemma NoDup_flat_map_rel {A B K} (R : A -> B -> Prop) (g : A -> K)
    (f : A -> list B) (l : list A) :
  (forall a b, a ∈ l -> b ∈ f a -> R a b) ->
  (forall a a' b, R a b -> R a' b -> g a = g a') ->
  NoDup (map g l) ->
  (forall a, a ∈ l -> NoDup (f a)) ->
  NoDup (flat_map f l).
Proof.
  intros HR Hdisj Hnd Hf. induction l as [|a l IH]; simpl; [constructor|].
  inversion Hnd as [|? ? Hna Hnd']; subst.
  apply NoDup_app. split; [apply Hf; left|]. split.
  - intros b Hb Hb'. apply elem_of_flat_map in Hb' as (a' & Ha' & Hb').
    apply Hna. rewrite (Hdisj a a' b).
    + apply list_elem_of_fmap. exists a'. auto.
    + apply HR; [left|exact Hb].
    + apply HR; [right; exact Ha'|exact Hb'].
  - apply IH; auto.
    + intros a' b Ha'. apply HR. right. exact Ha'.
    + intros a' Ha'. apply Hf. right. exact Ha'.
Qed.

Lemma wf_entry_valid e : wf_entry e = true -> valid_name (entry_name e) = true.
Proof. destruct e; simpl; intros H; apply andb_prop in H as [H _]; exact H. Qed.

Lemma wf_entry_dir n sub :
  wf_entry (Dir n sub) = true ->
  NoDup (map entry_name sub) /\ Forall (fun e => wf_entry e = true) sub.
Proof.
  simpl. intros H. apply andb_prop in H as [_ H]. apply andb_prop in H as [Hnd Hall].
  split; [apply bool_decide_eq_true in Hnd; exact Hnd|].
  apply Forall_forall. intros e He. rewrite forallb_forall in Hall. apply Hall.
  apply list_elem_of_In. exact He.
Qed.

Lemma wf_tree_spec es :
  wf_tree es = true ->
  NoDup (map entry_name es) /\ Forall (fun e => wf_entry e = true) es.
Proof.
  unfold wf_tree. intros H. apply andb_prop in H as [Hnd Hall].
  split; [apply bool_decide_eq_true in Hnd; exact Hnd|].
  apply Forall_forall. intros e He. rewrite forallb_forall in Hall. apply Hall.
  apply list_elem_of_In. exact He.
Qed.

Lemma elem_of_dirnames n es :
  n ∈ dirnames es <-> exists e, e ∈ es /\ entry_name e = n /\ (forall r, e <> File n r).
Proof.
  unfold dirnames. rewrite elem_of_flat_map. split.
  - intros (e & He & Hn). exists e. split; [exact He|].
    destruct e; simpl in *; try (apply elem_of_nil in Hn; contradiction);
      apply list_elem_of_singleton in Hn; subst; split; auto; discriminate.
  - intros (e & He & Hn & Hnf). exists e. split; [exact He|].
    destruct e; simpl in *; subst; try apply list_elem_of_singleton; auto.
    exfalso. eapply Hnf. reflexivity.
Qed.

Lemma elem_of_filenames n r es : (n, r) ∈ filenames es <-> File n r ∈ es.
Proof.
  unfold filenames. rewrite elem_of_flat_map. split.
  - intros (e & He & Hn).
    destruct e; simpl in *; try (apply elem_of_nil in Hn; contradiction).
    apply list_elem_of_singleton in Hn. congruence.
  - intros He. exists (File n r). split; [exact He|]. apply list_elem_of_singleton. reflexivity.
Qed.

Lemma listing_names_valid es :
  Forall (fun e => wf_entry e = true) es ->
  Forall (fun w => valid_name w = true) (dirnames es)
  /\ Forall (fun w => valid_name w = true) (filenames es).*1.
Proof.
  intros Hall. rewrite Forall_forall in Hall. split; apply Forall_forall; intros n Hn.
  - apply elem_of_dirnames in Hn as (e & He & <- & _). apply wf_entry_valid. auto.
  - apply list_elem_of_fmap in Hn as ([n' r] & -> & Hn). apply elem_of_filenames in Hn.
    apply (wf_entry_valid (File n' r)). auto.
Qed.

Lemma listing_names_nodup es :
  NoDup (map entry_name es) -> NoDup (dirnames es ++ (filenames es).*1).
Proof.
  induction es as [|e es IH]; simpl; [constructor|].
  intros Hnd. inversion Hnd as [|? ? Hn Hnd']; subst. specialize (IH Hnd').
  assert (forall x, x ∈ dirnames es ++ (filenames es).*1 -> x ∈ map entry_name es) as Hsub.
  { intros x Hx. apply elem_of_app in Hx as [Hx|Hx].
    - apply elem_of_dirnames in Hx as (e' & He' & <- & _).
      apply list_elem_of_fmap. exists e'. auto.
    - apply list_elem_of_fmap in Hx as ([n r] & -> & Hx). apply elem_of_filenames in Hx.
      apply list_elem_of_fmap. exists (File n r). auto. }
  destruct e as [n r|n sub|n]; simpl in *.
  - apply NoDup_app in IH as (Hd & Hdf & Hf).
    apply NoDup_app. split; [exact Hd|]. split.
    + intros x Hx Hx'. apply elem_of_cons in Hx' as [->|Hx']; [|eapply Hdf; eauto].
      apply Hn. apply Hsub. apply elem_of_app. auto.
    + constructor; [|exact Hf]. intros Hx. apply Hn. apply Hsub. apply elem_of_app. auto.
  - constructor; [|exact IH]. intros Hx. apply Hn. apply Hsub. exact Hx.
  - constructor; [|exact IH]. intros Hx. apply Hn. apply Hsub. exact Hx.
Qed.

(** What [os.walk] yields below [top] for a well-formed entry. *)
Lemma walk_entry_local e : forall top d dns fns,
  good_dir top = true -> wf_entry e = true ->
  (d, dns, fns) ∈ walk_entry top e ->
  (exists cs, Forall (fun w => valid_name w = true) cs /\ d = pjoin top (entry_name e :: cs))
  /\ Forall (fun w => valid_name w = true) dns
  /\ Forall (fun w => valid_name w = true) fns.*1
  /\ NoDup (dns ++ fns.*1).
Proof.
  induction e as [n r|n sub IH|n] using entry_ind'; intros top d dns fns Htop Hwf Hin;
    try (apply elem_of_nil in Hin; contradiction).
  pose proof (wf_entry_valid _ Hwf) as Hn. simpl in Hn.
  destruct (wf_entry_dir n sub Hwf) as [Hnd Hall].
  simpl in Hin. apply elem_of_cons in Hin as [Heq|Hin].
  - injection Heq as -> -> ->. split; [exists []; split; [constructor|reflexivity]|].
    destruct (listing_names_valid sub Hall) as [H1 H2].
    split; [exact H1|]. split; [exact H2|]. apply listing_names_nodup. exact Hnd.
  - apply elem_of_flat_map in Hin as (e & He & Hin).
    rewrite Forall_forall in IH, Hall.
    destruct (IH e He (posixpath.join top n) d dns fns) as ((cs & Hcs & ->) & H1 & H2 & H3);
      auto using join_good.
    split; [|auto].
    exists (entry_name e :: cs). split; [|reflexivity].
    constructor; [apply wf_entry_valid; auto|exact Hcs].
Qed.

Lemma walk_entry_dir top n sub :
  walk_entry top (Dir n sub)
  = (posixpath.join top n, dirnames sub, filenames sub)
      :: flat_map (walk_entry (posixpath.join top n)) sub.
Proof. reflexivity. Qed.

Lemma map_flat_map {A B C} (g : B -> C) (f : A -> list B) (l : list A) :
  map g (flat_map f l) = flat_map (fun a => map g (f a)) l.
Proof.
  induction l as [|a l IH]; simpl; [reflexivity|]. rewrite map_app, IH. reflexivity.
Qed.

Lemma walk_entry_nodup e : forall top,
  good_dir top = true -> wf_entry e = true ->
  NoDup (map (fun t => t.1.1) (walk_entry top e)).
Proof.
  induction e as [n r|n sub IH|n] using entry_ind'; intros top Htop Hwf;
    [simpl; constructor| |simpl; constructor].
  pose proof (wf_entry_valid _ Hwf) as Hn. simpl in Hn.
  destruct (wf_entry_dir n sub Hwf) as [Hnd Hall].
  rewrite Forall_forall in IH, Hall.
  pose proof (join_good top n Htop Hn) as Hd.
  rewrite walk_entry_dir, map_cons. apply NoDup_cons. split.
  - intros Hin. apply list_elem_of_fmap in Hin as ([[d dns] fns] & Hd' & Hin). simpl in Hd'.
    apply elem_of_flat_map in Hin as (e & He & Hin).
    destruct (walk_entry_local e _ d dns fns Hd (Hall e He) Hin) as ((cs & Hcs & ->) & _).
    destruct (pjoin_length (posixpath.join top n) (entry_name e :: cs) Hd) as [_ Hlt].
    { constructor; [apply wf_entry_valid; auto|exact Hcs]. }
    rewrite <- Hd' in Hlt. specialize (Hlt ltac:(discriminate)). lia.
  - rewrite map_flat_map.
    apply (NoDup_flat_map_rel
             (fun e p => wf_entry e = true /\ exists cs, Forall (fun w => valid_name w = true) cs
                         /\ p = pjoin (posixpath.join top n) (entry_name e :: cs))
             entry_name).
    + intros e p He Hp. split; [auto|].
      apply list_elem_of_fmap in Hp as ([[d dns] fns] & -> & Hin).
      destruct (walk_entry_local e _ d dns fns Hd (Hall e He) Hin) as (Hcs & _). exact Hcs.
    + intros e e' p (Hwe & cs & Hcs & ->) (Hwe' & cs' & Hcs' & Heq).
      apply pjoin_inj in Heq; [congruence|exact Hd| |].
      * constructor; [apply wf_entry_valid; auto|exact Hcs].
      * constructor; [apply wf_entry_valid; auto|exact Hcs'].
    + exact Hnd.
    + intros e He. apply IH; auto.
Qed.

Lemma walk_entry_parent e : forall top d dns fns,
  good_dir top = true -> wf_entry e = true ->
  (d, dns, fns) ∈ walk_entry top e ->
  (exists sub, e = Dir (entry_name e) sub /\ d = posixpath.join top (entry_name e))
  \/ (exists d' dns' fns' n,
        (d', dns', fns') ∈ walk_entry top e /\ n ∈ dns' /\ d = posixpath.join d' n).
Proof.
  induction e as [n r|n sub IH|n] using entry_ind'; intros top d dns fns Htop Hwf Hin;
    try (apply elem_of_nil in Hin; contradiction).
  pose proof (wf_entry_valid _ Hwf) as Hn. simpl in Hn.
  destruct (wf_entry_dir n sub Hwf) as [Hnd Hall].
  rewrite walk_entry_dir in Hin. apply elem_of_cons in Hin as [Heq|Hin].
  - injection Heq as -> -> ->. left. exists sub. auto.
  - right. apply elem_of_flat_map in Hin as (e & He & Hin).
    rewrite Forall_forall in IH, Hall.
    destruct (IH e He (posixpath.join top n) d dns fns) as [(sub' & Hsub & ->)|Hpar];
      auto using join_good.
    + exists (posixpath.join top n), (dirnames sub), (filenames sub), (entry_name e).
      split; [rewrite walk_entry_dir; left|]. split; [|reflexivity].
      apply elem_of_dirnames. exists e. split; [exact He|]. split; [reflexivity|].
      intros r Hr. rewrite Hr in Hsub. discriminate.
    + destruct Hpar as (d' & dns' & fns' & n' & Hin' & Hn' & ->).
      exists d', dns', fns', n'. split; [|auto].
      rewrite walk_entry_dir. right. apply elem_of_flat_map. exists e. auto.
Qed.

Lemma NoDup_fst_functional {A B} (l : list (A * B)) a b b' :
  NoDup l.*1 -> (a, b) ∈ l -> (a, b') ∈ l -> b = b'.
Proof.
  induction l as [|[x y] l IH]; intros Hnd H1 H2; [apply elem_of_nil in H1; contradiction|].
  simpl in Hnd. inversion Hnd as [|? ? Hx Hnd']; subst.
  apply elem_of_cons in H1 as [H1|H1]; apply elem_of_cons in H2 as [H2|H2].
  - congruence.
  - simplify_eq. exfalso. apply Hx. apply list_elem_of_fmap. exists (x, b'). auto.
  - simplify_eq. exfalso. apply Hx. apply list_elem_of_fmap. exists (x, b). auto.
  - auto.
Qed.

Section Walk.

Variable rt : str.
Variable tree : list entry.
Hypothesis Hrt : posixpath.abspath getcwd rt = rt.
Hypothesis Hwf : wf_tree tree = true.

Local Abbreviation valid_names := (Forall (fun w : str => valid_name w = true)).

Lemma walk_local d dns fns :
  (d, dns, fns) ∈ walk rt tree ->
  (exists cs, valid_names cs /\ d = pjoin rt cs)
  /\ valid_names dns /\ valid_names fns.*1 /\ NoDup (dns ++ fns.*1).
Proof.
  destruct (wf_tree_spec tree Hwf) as [Hnd Hall].
  unfold walk. intros Hin. apply elem_of_cons in Hin as [Heq|Hin].
  - injection Heq as -> -> ->. split; [exists []; split; [constructor|reflexivity]|].
    destruct (listing_names_valid tree Hall) as [H1 H2].
    split; [exact H1|]. split; [exact H2|]. apply listing_names_nodup. exact Hnd.
  - apply elem_of_flat_map in Hin as (e & He & Hin). rewrite Forall_forall in Hall.
    destruct (walk_entry_local e rt d dns fns (rt_good rt Hrt) (Hall e He) Hin)
      as ((cs & Hcs & ->) & H1 & H2 & H3).
    split; [|auto]. exists (entry_name e :: cs). split; [|reflexivity].
    constructor; [apply wf_entry_valid; auto|exact Hcs].
Qed.

Lemma walk_good d dns fns : (d, dns, fns) ∈ walk rt tree -> good_dir d = true.
Proof.
  intros Hin. destruct (walk_local d dns fns Hin) as ((cs & Hcs & ->) & _).
  apply pjoin_good; [apply rt_good; exact Hrt|exact Hcs].
Qed.

Lemma walk_nodup : NoDup (map (fun t => t.1.1) (walk rt tree)).
Proof.
  destruct (wf_tree_spec tree Hwf) as [Hnd Hall]. rewrite Forall_forall in Hall.
  pose proof (rt_good rt Hrt) as Hg.
  unfold walk. rewrite map_cons. apply NoDup_cons. split.
  - intros Hin. apply list_elem_of_fmap in Hin as ([[d dns] fns] & Hd' & Hin). simpl in Hd'.
    apply elem_of_flat_map in Hin as (e & He & Hin).
    destruct (walk_entry_local e _ d dns fns Hg (Hall e He) Hin) as ((cs & Hcs & ->) & _).
    destruct (pjoin_length rt (entry_name e :: cs) Hg) as [_ Hlt].
    { constructor; [apply wf_entry_valid; auto|exact Hcs]. }
    rewrite <- Hd' in Hlt. specialize (Hlt ltac:(discriminate)). lia.
  - rewrite map_flat_map.
    apply (NoDup_flat_map_rel
             (fun e p => wf_entry e = true /\ exists cs, valid_names cs
                         /\ p = pjoin rt (entry_name e :: cs))
             entry_name).
    + intros e p He Hp. split; [auto|].
      apply list_elem_of_fmap in Hp as ([[d dns] fns] & -> & Hin).
      destruct (walk_entry_local e _ d dns fns Hg (Hall e He) Hin) as (Hcs & _). exact Hcs.
    + intros e e' p (Hwe & cs & Hcs & ->) (Hwe' & cs' & Hcs' & Heq).
      apply pjoin_inj in Heq; [congruence|exact Hg| |].
      * constructor; [apply wf_entry_valid; auto|exact Hcs].
      * constructor; [apply wf_entry_valid; auto|exact Hcs'].
    + exact Hnd.
    + intros e He. apply walk_entry_nodup; auto.
Qed.

Lemma walk_functional d dns fns dns' fns' :
  (d, dns, fns) ∈ walk rt tree -> (d, dns', fns') ∈ walk rt tree ->
  dns = dns' /\ fns = fns'.
Proof.
  intros H1 H2.
  assert ((dns, fns) = (dns', fns')) as Heq; [|injection Heq; auto].
  apply (NoDup_fst_functional (map (fun t => (t.1.1, (t.1.2, t.2))) (walk rt tree)) d).
  - rewrite <- list_fmap_compose. exact walk_nodup.
  - apply list_elem_of_fmap. exists (d, dns, fns). auto.
  - apply list_elem_of_fmap. exists (d, dns', fns'). auto.
Qed.

Lemma walk_parent d dns fns :
  (d, dns, fns) ∈ walk rt tree ->
  d = rt
  \/ (exists d' dns' fns' n,
        (d', dns', fns') ∈ walk rt tree /\ n ∈ dns' /\ d = posixpath.join d' n).
Proof.
  destruct (wf_tree_spec tree Hwf) as [Hnd Hall]. rewrite Forall_forall in Hall.
  unfold walk. intros Hin. apply elem_of_cons in Hin as [Heq|Hin].
  - injection Heq as -> -> ->. left. reflexivity.
  - right. apply elem_of_flat_map in Hin as (e & He & Hin).
    destruct (walk_entry_parent e rt d dns fns (rt_good rt Hrt) (Hall e He) Hin)
      as [(sub' & Hsub & ->)|Hpar].
    + exists rt, (dirnames tree), (filenames tree), (entry_name e).
      split; [left|]. split; [|reflexivity].
      apply elem_of_dirnames. exists e. split; [exact He|]. split; [reflexivity|].
      intros r Hr. rewrite Hr in Hsub. discriminate.
    + destruct Hpar as (d' & dns' & fns' & n' & Hin' & Hn' & ->).
      exists d', dns', fns', n'. split; [|auto].
      right. apply elem_of_flat_map. exists e. auto.
Qed.

Lemma elem_of_submitted t :
  t ∈ submitted rt tree
  <-> exists d dns fns f,
        (d, dns, fns) ∈ walk rt tree /\ f ∈ fns /\ t = (posixpath.join d f.1, f.2).
Proof.
  unfold submitted. rewrite elem_of_flat_map. split.
  - intros ([[d dns] fns] & Hin & Ht). apply list_elem_of_fmap in Ht as (f & -> & Hf).
    exists d, dns, fns, f. auto.
  - intros (d & dns & fns & f & Hin & Hf & ->). exists (d, dns, fns). split; [exact Hin|].
    apply list_elem_of_fmap. exists f. auto.
Qed.

Lemma elem_of_file_paths p :
  p ∈ file_paths rt tree
  <-> exists d dns fns f,
        (d, dns, fns) ∈ walk rt tree /\ f ∈ fns /\ p = posixpath.join d f.1.
Proof.
  unfold file_paths. rewrite list_elem_of_fmap. split.
  - intros (t & -> & Ht). apply elem_of_submitted in Ht as (d & dns & fns & f & Hin & Hf & ->).
    exists d, dns, fns, f. auto.
  - intros (d & dns & fns & f & Hin & Hf & ->). exists (posixpath.join d f.1, f.2).
    split; [reflexivity|]. apply elem_of_submitted. exists d, dns, fns, f. auto.
Qed.

Lemma elem_of_dir_paths p :
  p ∈ dir_paths rt tree
  <-> p = rt
      \/ exists d dns fns n,
           (d, dns, fns) ∈ walk rt tree /\ n ∈ dns /\ p = posixpath.join d n.
Proof.
  unfold dir_paths. rewrite elem_of_cons, elem_of_flat_map. split.
  - intros [->|([[d dns] fns] & Hin & Hp)]; [left; reflexivity|right].
    apply list_elem_of_fmap in Hp as (n & -> & Hn). exists d, dns, fns, n. auto.
  - intros [->|(d & dns & fns & n & Hin & Hn & ->)]; [left; reflexivity|right].
    exists (d, dns, fns). split; [exact Hin|]. apply list_elem_of_fmap. exists n. auto.
Qed.

Lemma walk_dir_path d dns fns : (d, dns, fns) ∈ walk rt tree -> d ∈ dir_paths rt tree.
Proof.
  intros Hin. apply elem_of_dir_paths.
  destruct (walk_parent d dns fns Hin) as [->|Hpar]; [left; reflexivity|right; exact Hpar].
Qed.

Lemma walk_child_valid d dns fns n :
  (d, dns, fns) ∈ walk rt tree -> n ∈ dns -> valid_name n = true.
Proof.
  intros Hin Hn. destruct (walk_local d dns fns Hin) as (_ & Hdns & _).
  rewrite Forall_forall in Hdns. auto.
Qed.

Lemma walk_file_valid d dns fns f :
  (d, dns, fns) ∈ walk rt tree -> f ∈ fns -> valid_name f.1 = true.
Proof.
  intros Hin Hf. destruct (walk_local d dns fns Hin) as (_ & _ & Hfns & _).
  rewrite Forall_forall in Hfns. apply Hfns.
  apply list_elem_of_fmap. exists f. auto.
Qed.

Lemma walk_length d dns fns : (d, dns, fns) ∈ walk rt tree -> (length rt <= length d)%nat.
Proof.
  intros Hin. destruct (walk_local d dns fns Hin) as ((cs & Hcs & ->) & _).
  apply pjoin_length; [apply rt_good; exact Hrt|exact Hcs].
Qed.

Lemma walk_join_ne_root d dns fns n :
  (d, dns, fns) ∈ walk rt tree -> valid_name n = true -> posixpath.join d n <> rt.
Proof.
  intros Hin Hn Heq. pose proof (walk_length d dns fns Hin).
  pose proof (join_length d n (walk_good d dns fns Hin) Hn). rewrite Heq in *. lia.
Qed.

(** A file path is not a directory path. *)
Lemma file_not_dir p : p ∈ file_paths rt tree -> p ∉ dir_paths rt tree.
Proof.
  intros Hf Hd.
  apply elem_of_file_paths in Hf as (d & dns & fns & f & Hin & Hf & ->).
  pose proof (walk_file_valid d dns fns f Hin Hf) as Hfv.
  pose proof (walk_good d dns fns Hin) as Hg.
  apply elem_of_dir_paths in Hd as [Heq|(d' & dns' & fns' & n & Hin' & Hn & Heq)].
  - exact (walk_join_ne_root d dns fns f.1 Hin Hfv Heq).
  - pose proof (walk_child_valid d' dns' fns' n Hin' Hn) as Hnv.
    pose proof (walk_good d' dns' fns' Hin') as Hg'.
    assert (d = d') as <-.
    { rewrite <- (dirname_join d f.1 Hg Hfv), Heq. apply dirname_join; assumption. }
    destruct (walk_functional d dns fns dns' fns' Hin Hin') as [<- <-].
    apply join_inj in Heq; [|assumption..].
    destruct (walk_local d dns fns Hin) as (_ & _ & _ & Hnd).
    apply NoDup_app in Hnd as (_ & Hdisj & _). apply (Hdisj n Hn).
    rewrite <- Heq. apply list_elem_of_fmap. exists f. auto.
Qed.

Lemma under_root p :
  p ∈ dir_paths rt tree \/ p ∈ file_paths rt tree ->
  exists cs, valid_names cs /\ p = pjoin rt cs.
Proof.
  intros [Hd|Hf].
  - apply elem_of_dir_paths in Hd as [->|(d & dns & fns & n & Hin & Hn & ->)].
    + exists []. split; [constructor|reflexivity].
    + destruct (walk_local d dns fns Hin) as ((cs & Hcs & ->) & _).
      exists (cs ++ [n]). split; [|rewrite pjoin_snoc; reflexivity].
      apply Forall_app. split; [exact Hcs|]. constructor; [|constructor].
      eapply walk_child_valid; eauto.
  - apply elem_of_file_paths in Hf as (d & dns & fns & f & Hin & Hf & ->).
    destruct (walk_local d dns fns Hin) as ((cs & Hcs & ->) & _).
    exists (cs ++ [f.1]). split; [|rewrite pjoin_snoc; reflexivity].
    apply Forall_app. split; [exact Hcs|]. constructor; [|constructor].
    eapply walk_file_valid; eauto.
Qed.

(** Induction from the root down the directories the walk yields. *)
Lemma walk_chain_ind (P : str -> Prop) :
  P rt ->
  (forall d dns fns n dns' fns',
     (d, dns, fns) ∈ walk rt tree -> n ∈ dns ->
     (posixpath.join d n, dns', fns') ∈ walk rt tree ->
     P d -> P (posixpath.join d n)) ->
  forall d dns fns, (d, dns, fns) ∈ walk rt tree -> P d.
Proof.
  intros Hroot Hstep d.
  induction d as [d IH] using (induction_ltof1 _ (@length ascii)). unfold ltof in IH.
  intros dns fns Hin.
  destruct (walk_parent d dns fns Hin) as [->|(d' & dns' & fns' & n & Hin' & Hn & ->)];
    [exact Hroot|].
  apply (Hstep d' dns' fns' n dns fns Hin' Hn Hin).
  apply (IH d' ) with dns' fns'; [|exact Hin'].
  apply join_length; [eapply walk_good; eauto|eapply walk_child_valid; eauto].
Qed.

Lemma ancestors_walk_join d dns fns n :
  (d, dns, fns) ∈ walk rt tree -> n ∈ dns ->
  ancestors (posixpath.join d n) rt = posixpath.join d n :: ancestors d rt.
Proof.
  intros Hin Hn. pose proof (walk_child_valid d dns fns n Hin Hn) as Hnv.
  apply ancestors_join; [exact Hrt|eapply walk_good; eauto|exact Hnv|].
  eapply walk_join_ne_root; eauto.
Qed.

(** The chain from a walked directory to the root stays among the
    directories. *)
Lemma ancestors_dir_paths d dns fns :
  (d, dns, fns) ∈ walk rt tree ->
  forall p, p ∈ ancestors d rt -> p ∈ dir_paths rt tree.
Proof.
  intros Hin. revert d dns fns Hin.
  apply (walk_chain_ind (fun d => forall p, p ∈ ancestors d rt -> p ∈ dir_paths rt tree)).
  - intros p. rewrite (ancestors_root rt Hrt). intros Hp.
    apply list_elem_of_singleton in Hp as ->. apply elem_of_dir_paths. left. reflexivity.
  - intros d dns fns n dns' fns' Hin Hn _ IH p.
    rewrite (ancestors_walk_join d dns fns n Hin Hn). intros Hp.
    apply elem_of_cons in Hp as [->|Hp]; [|auto].
    apply elem_of_dir_paths. right. exists d, dns, fns, n. auto.
Qed.

(** ** The scanner, one critical section at a time *)

Lemma run_app l1 l2 st : run (l1 ++ l2) st = run l2 (run l1 st).
Proof. unfold run. apply fold_left_app. Qed.

Lemma run_cons o ops st : run (o :: ops) st = run ops (exec st o).
Proof. reflexivity. Qed.

Lemma root_exec st o : root (exec st o) = root st.
Proof. destruct o; reflexivity. Qed.

Lemma root_run ops st : root (run ops st) = root st.
Proof.
  revert st. induction ops as [|o ops IH]; intros st; [reflexivity|].
  rewrite run_cons, IH. apply root_exec.
Qed.

Lemma exists_exec_mono st o p : p ∈ exists_ st -> p ∈ exists_ (exec st o).
Proof.
  intros Hp. destruct o; simpl; try exact Hp; apply elem_of_union; right; exact Hp.
Qed.

Lemma exists_run_mono ops st p : p ∈ exists_ st -> p ∈ exists_ (run ops st).
Proof.
  revert st. induction ops as [|o ops IH]; intros st Hp; [exact Hp|].
  rewrite run_cons. apply IH. apply exists_exec_mono. exact Hp.
Qed.

(** *** The children lists *)

Lemma default_setdefault_nil d m k :
  default [] (setdefault_nil d m !! k) = default [] (m !! k).
Proof.
  unfold setdefault_nil. destruct (m !! d) eqn:Hd; [reflexivity|].
  destruct (decide (d = k)) as [->|Hne].
  - rewrite lookup_insert_eq, Hd. reflexivity.
  - rewrite lookup_insert_ne by exact Hne. reflexivity.
Qed.

Lemma default_append_child d x m k :
  default [] (append_child d x m !! k)
  = default [] (m !! k) ++ (if bool_decide (d = k) then [x] else []).
Proof.
  unfold append_child. destruct (decide (d = k)) as [->|Hne].
  - rewrite lookup_insert_eq, bool_decide_eq_true_2 by reflexivity. reflexivity.
  - rewrite lookup_insert_ne, bool_decide_eq_false_2 by exact Hne.
    rewrite app_nil_r. reflexivity.
Qed.

Lemma default_append_new_present d xs m k :
  (forall x, x ∈ xs -> x ∈ default [] (m !! d)) ->
  default [] (fold_left (append_new d) xs m !! k) = default [] (m !! k).
Proof.
  revert m. induction xs as [|x xs IH]; intros m Hxs; [reflexivity|].
  simpl. unfold append_new at 2.
  rewrite bool_decide_eq_true_2 by (apply Hxs; left).
  rewrite IH; [apply default_setdefault_nil|].
  intros y Hy. rewrite default_setdefault_nil. apply Hxs. right. exact Hy.
Qed.

Lemma appended_cons k o ops : appended k (o :: ops) = appended k [o] ++ appended k ops.
Proof. unfold appended. simpl. rewrite app_nil_r. reflexivity. Qed.

Lemma appended_app k l1 l2 : appended k (l1 ++ l2) = appended k l1 ++ appended k l2.
Proof. unfold appended. apply flat_map_app. Qed.

Lemma children_get_exec st o k :
  live_dirs_listed st o ->
  children_get (exec st o) k = children_get st k ++ appended k [o].
Proof.
  unfold children_get, appended. intros Hl.
  destruct o as [d|d n|c|d dns|d f|pth r|]; simpl; rewrite ?app_nil_r; try reflexivity.
  - apply default_setdefault_nil.
  - rewrite default_append_child. destruct (bool_decide (d = k)); reflexivity.
  - rewrite default_append_new_present; [apply default_setdefault_nil|].
    intros x Hx. apply list_elem_of_fmap in Hx as (n & -> & Hn).
    rewrite default_setdefault_nil. apply Hl. exact Hn.
  - rewrite default_append_child. destruct (bool_decide (d = k)); reflexivity.
Qed.

Lemma children_get_run ops : forall st k,
  (forall o, o ∈ ops -> live_dirs_listed st o) ->
  children_get (run ops st) k = children_get st k ++ appended k ops.
Proof.
  induction ops as [|o ops IH]; intros st k Hl.
  - simpl. rewrite app_nil_r. reflexivity.
  - rewrite run_cons, appended_cons, app_assoc.
    rewrite <- (children_get_exec st o k) by (apply Hl; left).
    apply IH. intros o' Ho'.
    assert (live_dirs_listed st o') as Hl' by (apply Hl; right; exact Ho').
    destruct o' as [| | |d dns| | |]; simpl in *; auto.
    intros n Hn. rewrite children_get_exec by (apply Hl; left).
    apply elem_of_app. left. auto.
Qed.

Lemma flat_map_nil {A B} (g : A -> list B) (l : list A) :
  (forall a, a ∈ l -> g a = []) -> flat_map g l = [].
Proof.
  induction l as [|a l IH]; intros Hg; [reflexivity|]. simpl.
  rewrite (Hg a) by left. apply IH. intros b Hb. apply Hg. right. exact Hb.
Qed.

Lemma flat_map_unique {A B K} (key : A -> K) (g : A -> list B) (l : list A) (w : A) :
  NoDup (map key l) -> w ∈ l ->
  (forall w', w' ∈ l -> key w' <> key w -> g w' = []) ->
  flat_map g l = g w.
Proof.
  induction l as [|a l IH]; intros Hnd Hw Hg; [apply elem_of_nil in Hw; contradiction|].
  simpl in *. inversion Hnd as [|? ? Ha Hnd']; subst.
  apply elem_of_cons in Hw as [->|Hw].
  - rewrite flat_map_nil; [apply app_nil_r|].
    intros b Hb. apply Hg; [right; exact Hb|].
    intros Heq. apply Ha. rewrite <- Heq. apply list_elem_of_fmap. exists b. auto.
  - rewrite (Hg a); [|left|].
    + simpl. apply IH; auto. intros w' Hw' Hne. apply Hg; [right; exact Hw'|exact Hne].
    + intros Heq. apply Ha. rewrite Heq. apply list_elem_of_fmap. exists w. auto.
Qed.

Lemma appended_flat_map {A} k (block : A -> list op) (l : list A) :
  appended k (flat_map block l) = flat_map (fun w => appended k (block w)) l.
Proof.
  induction l as [|a l IH]; [reflexivity|]. simpl. rewrite appended_app, IH. reflexivity.
Qed.

Lemma appended_pre_block k d dns (c : nat) :
  appended k (PreDir d :: map (PreChild d) dns ++ [PreFiles c])
  = if bool_decide (d = k) then map (posixpath.join d) dns else [].
Proof.
  rewrite appended_cons. simpl. rewrite appended_app. unfold appended at 2. simpl.
  rewrite app_nil_r. unfold appended.
  induction dns as [|n dns IH]; simpl; [destruct (bool_decide (d = k)); reflexivity|].
  rewrite IH. destruct (bool_decide (d = k)); reflexivity.
Qed.

Lemma appended_live_block k d dns (fns : list (str * option Z)) :
  appended k (LiveDir d dns :: map (fun f => LiveFile d f.1) fns)
  = if bool_decide (d = k) then map (fun f => posixpath.join d f.1) fns else [].
Proof.
  rewrite appended_cons. simpl. unfold appended.
  induction fns as [|f fns IH]; simpl; [destruct (bool_decide (d = k)); reflexivity|].
  rewrite IH. destruct (bool_decide (d = k)); reflexivity.
Qed.

Lemma appended_complete k (order : list (str * option Z)) :
  appended k (map (fun t => Complete t.1 t.2) order ++ [Finish]) = [].
Proof.
  rewrite appended_app. unfold appended. simpl.
  induction order as [|t order IH]; simpl; [reflexivity|exact IH].
Qed.

Lemma appended_pre_count d dns fns :
  (d, dns, fns) ∈ walk rt tree ->
  appended d (pre_count_ops rt tree) = map (posixpath.join d) dns.
Proof.
  intros Hin. unfold pre_count_ops. rewrite appended_flat_map.
  rewrite (flat_map_unique (fun t => t.1.1) _ _ (d, dns, fns) walk_nodup Hin).
  - rewrite appended_pre_block, bool_decide_eq_true_2 by reflexivity. reflexivity.
  - intros [[d' dns'] fns'] _ Hne. simpl in Hne.
    rewrite appended_pre_block, bool_decide_eq_false_2 by exact Hne. reflexivity.
Qed.

Lemma appended_live d dns fns :
  (d, dns, fns) ∈ walk rt tree ->
  appended d (live_ops rt tree) = map (fun f => posixpath.join d f.1) fns.
Proof.
  intros Hin. unfold live_ops. rewrite appended_flat_map.
  rewrite (flat_map_unique (fun t => t.1.1) _ _ (d, dns, fns) walk_nodup Hin).
  - rewrite appended_live_block, bool_decide_eq_true_2 by reflexivity. reflexivity.
  - intros [[d' dns'] fns'] _ Hne. simpl in Hne.
    rewrite appended_live_block, bool_decide_eq_false_2 by exact Hne. reflexivity.
Qed.

Lemma appended_scan d dns fns order :
  (d, dns, fns) ∈ walk rt tree ->
  appended d (scan_ops rt tree order) = listing_paths d dns fns.
Proof.
  intros Hin. unfold scan_ops. rewrite !appended_app, <- appended_app.
  rewrite appended_complete, app_nil_r.
  rewrite (appended_pre_count d dns fns Hin), (appended_live d dns fns Hin). reflexivity.
Qed.

Lemma appended_scan_other k order :
  (forall dns fns, (k, dns, fns) ∉ walk rt tree) ->
  appended k (scan_ops rt tree order) = [].
Proof.
  intros Hk. unfold scan_ops. rewrite !appended_app, <- appended_app.
  rewrite appended_complete, app_nil_r.
  unfold pre_count_ops, live_ops. rewrite !appended_flat_map.
  rewrite !flat_map_nil; [reflexivity| |].
  - intros [[d dns] fns] Hin. rewrite appended_live_block, bool_decide_eq_false_2; [reflexivity|].
    intros ->. exact (Hk dns fns Hin).
  - intros [[d dns] fns] Hin. rewrite appended_pre_block, bool_decide_eq_false_2; [reflexivity|].
    intros ->. exact (Hk dns fns Hin).
Qed.

Lemma listing_paths_nodup d dns fns :
  (d, dns, fns) ∈ walk rt tree -> NoDup (listing_paths d dns fns).
Proof.
  intros Hin. destruct (walk_local d dns fns Hin) as (_ & Hdv & Hfv & Hnd).
  pose proof (walk_good d dns fns Hin) as Hg.
  unfold listing_paths.
  replace (map (fun f : str * option Z => posixpath.join d f.1) fns)
    with (map (posixpath.join d) fns.*1) by (rewrite <- list_fmap_compose; reflexivity).
  rewrite <- map_app.
  assert (valid_names (dns ++ fns.*1)) as Hv by (apply Forall_app; auto).
  rewrite Forall_forall in Hv.
  apply NoDup_fmap_2_strong; [|exact Hnd].
  intros x y Hx Hy Heq. eapply join_inj; eauto.
Qed.

Lemma appended_scan_nodup k order : NoDup (appended k (scan_ops rt tree order)).
Proof.
  destruct (decide (k ∈ map (fun t => t.1.1) (walk rt tree))) as [Hk|Hno].
  - apply list_elem_of_fmap in Hk as ([[d dns] fns] & Hk & Hin). simpl in Hk. subst k.
    rewrite (appended_scan d dns fns order Hin). apply listing_paths_nodup. exact Hin.
  - rewrite appended_scan_other; [constructor|]. intros dns fns Hin. apply Hno.
    apply list_elem_of_fmap. exists (k, dns, fns). auto.
Qed.

Lemma elem_of_pre_count_ops o :
  o ∈ pre_count_ops rt tree ->
  exists d dns fns,
    (d, dns, fns) ∈ walk rt tree
    /\ (o = PreDir d \/ (exists n, n ∈ dns /\ o = PreChild d n) \/ o = PreFiles (length fns)).
Proof.
  unfold pre_count_ops. rewrite elem_of_flat_map. intros ([[d dns] fns] & Hin & Ho).
  exists d, dns, fns. split; [exact Hin|].
  apply elem_of_cons in Ho as [->|Ho]; [auto|].
  apply elem_of_app in Ho as [Ho|Ho].
  - apply list_elem_of_fmap in Ho as (n & -> & Hn). right. left. eauto.
  - apply list_elem_of_singleton in Ho as ->. auto.
Qed.

Lemma elem_of_live_ops o :
  o ∈ live_ops rt tree ->
  exists d dns fns,
    (d, dns, fns) ∈ walk rt tree
    /\ (o = LiveDir d dns \/ exists f, f ∈ fns /\ o = LiveFile d f.1).
Proof.
  unfold live_ops. rewrite elem_of_flat_map. intros ([[d dns] fns] & Hin & Ho).
  exists d, dns, fns. split; [exact Hin|].
  apply elem_of_cons in Ho as [->|Ho]; [auto|].
  apply list_elem_of_fmap in Ho as (f & -> & Hf). right. eauto.
Qed.

Lemma elem_of_after_pre o (order : list (str * option Z)) :
  o ∈ live_ops rt tree ++ map (fun t => Complete t.1 t.2) order ++ [Finish] ->
  o ∈ live_ops rt tree \/ (exists t, t ∈ order /\ o = Complete t.1 t.2) \/ o = Finish.
Proof.
  intros Ho. apply elem_of_app in Ho as [Ho|Ho]; [auto|right].
  apply elem_of_app in Ho as [Ho|Ho].
  - apply list_elem_of_fmap in Ho as (t & -> & Ht). left. eauto.
  - apply list_elem_of_singleton in Ho. auto.
Qed.

Lemma children_get_init k : children_get (State_init rt) k = [].
Proof. unfold children_get. simpl. rewrite lookup_empty. reflexivity. Qed.

Lemma children_pre_prefix pre post k :
  pre_count_ops rt tree = pre ++ post ->
  children_get (run pre (State_init rt)) k = appended k pre.
Proof.
  intros Heq. rewrite children_get_run, children_get_init; [reflexivity|].
  intros o Ho.
  assert (o ∈ pre_count_ops rt tree) as Ho' by (rewrite Heq; apply elem_of_app; auto).
  apply elem_of_pre_count_ops in Ho' as (d & dns & fns & _ & [->|[(n & _ & ->)| ->]]);
    exact I.
Qed.

(** At every point of the scan, [children[k]] holds what the critical
    sections so far appended to it without looking. *)
Lemma children_prefix order pre post k :
  scan_ops rt tree order = pre ++ post ->
  children_get (run pre (State_init rt)) k = appended k pre.
Proof.
  unfold scan_ops. intros Heq. symmetry in Heq.
  apply app_eq_inv in Heq as [(l & Hpre & Hpost)|(l & Hpre & Hpost)].
  2:{ eapply children_pre_prefix. exact Hpre. }
  - subst pre. rewrite run_app, appended_app.
    rewrite children_get_run.
    + f_equal. apply (children_pre_prefix _ []). rewrite app_nil_r. reflexivity.
    + intros o Ho.
      assert (o ∈ live_ops rt tree ++ map (fun t => Complete t.1 t.2) order ++ [Finish])
        as Ho' by (rewrite Hpost; apply elem_of_app; auto).
      apply elem_of_after_pre in Ho' as [Ho'|[(t & _ & ->)| ->]]; try exact I.
      apply elem_of_live_ops in Ho' as (d & dns & fns & Hin & [->|(f & _ & ->)]);
        try exact I.
      intros n Hn. rewrite (children_pre_prefix _ [] d) by (rewrite app_nil_r; reflexivity).
      rewrite (appended_pre_count d dns fns Hin). apply list_elem_of_fmap. exists n. auto.
Qed.

(** C7. At every point of a scan of a well-formed tree, from the fresh
    state, no list [children[d]] holds a path twice; and what the next
    critical section appends to [children[d]], in the pre-count pass or in
    the live pass, was not in it. *)
Theorem children_never_duplicated order pre post :
  scan_ops rt tree order = pre ++ post ->
  (forall d, NoDup (children_get (run pre (State_init rt)) d))
  /\ (forall o post' d,
        post = o :: post' ->
        children_get (exec (run pre (State_init rt)) o) d
        = children_get (run pre (State_init rt)) d ++ appended d [o]
        /\ forall x, x ∈ appended d [o] -> x ∉ children_get (run pre (State_init rt)) d).
Proof.
  intros Heq.
  assert (forall pre' post' d, scan_ops rt tree order = pre' ++ post' ->
            NoDup (children_get (run pre' (State_init rt)) d)) as Hnd.
  { intros pre' post' d Heq'. rewrite (children_prefix order pre' post' d Heq').
    pose proof (appended_scan_nodup d order) as Hall.
    rewrite Heq', appended_app in Hall. apply NoDup_app in Hall as [Hall _]. exact Hall. }
  split; [intros d; apply (Hnd pre post d Heq)|].
  intros o post' d ->.
  assert (scan_ops rt tree order = (pre ++ [o]) ++ post') as Heq'.
  { rewrite Heq, <- app_assoc. reflexivity. }
  pose proof (Hnd _ _ d Heq') as Hnd'.
  pose proof (children_prefix order _ _ d Heq') as Hch.
  rewrite run_app in Hnd', Hch. change (run [o] ?st) with (exec st o) in Hnd', Hch.
  rewrite appended_app, <- (children_prefix order pre (o :: post') d Heq) in Hch.
  split; [exact Hch|].
  rewrite Hch in Hnd'. apply NoDup_app in Hnd' as (_ & Hdisj & _).
  intros x Hx Hx'. exact (Hdisj x Hx' Hx).
Qed.

(** *** Sums *)

Lemma sum_with_app {A} (f : A -> Z) l1 l2 :
  sum_with f (l1 ++ l2) = sum_with f l1 + sum_with f l2.
Proof. induction l1 as [|x l1 IH]; simpl; [reflexivity|]. rewrite IH. lia. Qed.

Lemma sum_with_ext {A} (f g : A -> Z) l :
  (forall x, x ∈ l -> f x = g x) -> sum_with f l = sum_with g l.
Proof.
  induction l as [|x l IH]; intros H; simpl; [reflexivity|].
  rewrite (H x) by left. rewrite IH; [reflexivity|]. intros y Hy. apply H. right. exact Hy.
Qed.

Lemma sum_with_zero {A} (f : A -> Z) l :
  (forall x, x ∈ l -> f x = 0) -> sum_with f l = 0.
Proof.
  induction l as [|x l IH]; intros H; simpl; [reflexivity|].
  rewrite (H x) by left. rewrite IH; [reflexivity|]. intros y Hy. apply H. right. exact Hy.
Qed.

Lemma sum_with_single {A} (f : A -> Z) l x :
  NoDup l -> x ∈ l -> (forall y, y ∈ l -> y <> x -> f y = 0) -> sum_with f l = f x.
Proof.
  induction l as [|a l IH]; intros Hnd Hx H; [apply elem_of_nil in Hx; contradiction|].
  inversion Hnd as [|? ? Ha Hnd']; subst. simpl.
  apply elem_of_cons in Hx as [->|Hx].
  - rewrite sum_with_zero; [lia|]. intros y Hy. apply H; [right; exact Hy|].
    intros ->. contradiction.
  - rewrite (H a); [|left|intros ->; contradiction].
    rewrite IH; auto. intros y Hy. apply H. right. exact Hy.
Qed.

Lemma sum_with_add {A} (f g : A -> Z) l :
  sum_with (fun x => f x + g x) l = sum_with f l + sum_with g l.
Proof. induction l as [|x l IH]; simpl; [reflexivity|]. rewrite IH. lia. Qed.

Lemma sum_with_mul {A} (c : Z) (f : A -> Z) l :
  sum_with (fun x => c * f x) l = c * sum_with f l.
Proof. induction l as [|x l IH]; simpl; [lia|]. rewrite IH. lia. Qed.

Lemma sum_with_map {A B} (f : B -> Z) (g : A -> B) l :
  sum_with f (map g l) = sum_with (fun x => f (g x)) l.
Proof. induction l as [|x l IH]; simpl; [reflexivity|]. rewrite IH. reflexivity. Qed.

Lemma sum_with_flat_map {A B} (f : B -> Z) (g : A -> list B) l :
  sum_with f (flat_map g l) = sum_with (fun x => sum_with f (g x)) l.
Proof.
  induction l as [|x l IH]; simpl; [reflexivity|]. rewrite sum_with_app, IH. reflexivity.
Qed.

Lemma sum_with_swap {A B} (f : A -> B -> Z) la lb :
  sum_with (fun a => sum_with (f a) lb) la = sum_with (fun b => sum_with (fun a => f a b) la) lb.
Proof.
  induction la as [|a la IH]; simpl.
  - symmetry. apply sum_with_zero. reflexivity.
  - rewrite IH, <- sum_with_add. reflexivity.
Qed.

Lemma sum_with_perm {A} (f : A -> Z) l1 l2 :
  Permutation l1 l2 -> sum_with f l1 = sum_with f l2.
Proof. induction 1; simpl; lia. Qed.

Lemma occ_cons p x l : occ p (x :: l) = (if bool_decide (x = p) then 1 else 0) + occ p l.
Proof. reflexivity. Qed.

Lemma occ_not_in p l : p ∉ l -> occ p l = 0.
Proof.
  intros Hp. unfold occ. apply sum_with_zero. intros x Hx.
  rewrite bool_decide_eq_false_2; [reflexivity|]. intros ->. contradiction.
Qed.

(** *** The sizes *)

Lemma bubble_lookup sz chain m p :
  default 0 (bubble sz chain m !! p) = default 0 (m !! p) + sz * occ p chain.
Proof.
  unfold bubble. revert m. induction chain as [|a chain IH]; intros m.
  - unfold occ. simpl. lia.
  - cbn [fold_left]. rewrite IH, occ_cons. destruct (decide (a = p)) as [->|Hne].
    + rewrite lookup_insert_eq, bool_decide_eq_true_2 by reflexivity. simpl. lia.
    + rewrite lookup_insert_ne, bool_decide_eq_false_2 by exact Hne. lia.
Qed.

Lemma size_get_exec st o p :
  size_get (exec st o) p
  = match o with
    | Complete pth r =>
        (if bool_decide (p = pth) then default 0 r else size_get st p)
        + default 0 r * occ p (ancestors (posixpath.dirname pth) (root st))
    | _ => size_get st p
    end.
Proof.
  destruct o as [d|d n|c|d dns|d f|pth r|]; try reflexivity.
  unfold size_get. cbn [exec size]. rewrite bubble_lookup. f_equal.
  destruct (decide (p = pth)) as [->|Hne].
  - rewrite lookup_insert_eq, bool_decide_eq_true_2 by reflexivity. reflexivity.
  - rewrite lookup_insert_ne, bool_decide_eq_false_2 by congruence. reflexivity.
Qed.

Lemma completed_cons o ops : completed (o :: ops) = completed [o] ++ completed ops.
Proof. unfold completed. simpl. rewrite app_nil_r. reflexivity. Qed.

Lemma completed_app l1 l2 : completed (l1 ++ l2) = completed l1 ++ completed l2.
Proof. unfold completed. apply flat_map_app. Qed.

Lemma total_app r l1 l2 p : total r (l1 ++ l2) p = total r l1 p + total r l2 p.
Proof. unfold total. apply sum_with_app. Qed.

(** As long as no completed future is for a path that already has a size,
    is completed twice or lies on the chain of another one, the sizes are
    the weighted sums of what was completed. *)
Lemma size_get_run ops : forall st p,
  (forall t, t ∈ completed ops -> size_get st t.1 = 0) ->
  NoDup (completed ops).*1 ->
  (forall t t', t ∈ completed ops -> t' ∈ completed ops ->
     t.1 ∉ ancestors (posixpath.dirname t'.1) (root st)) ->
  size_get (run ops st) p = size_get st p + total (root st) (completed ops) p.
Proof.
  induction ops as [|o ops IH]; intros st p Hzero Hnd Hanc.
  - simpl. unfold total. simpl. lia.
  - rewrite run_cons, completed_cons, total_app.
    rewrite completed_cons in Hzero, Hnd, Hanc.
    assert (forall t, t ∈ completed ops -> t ∈ completed [o] ++ completed ops) as Hin
      by (intros t Ht; apply elem_of_app; auto).
    rewrite fmap_app in Hnd. apply NoDup_app in Hnd as (_ & Hdisj & Hnd).
    rewrite IH, root_exec.
    + assert (size_get (exec st o) p = size_get st p + total (root st) (completed [o]) p)
        as ->; [|lia].
      rewrite size_get_exec. destruct o as [d|d n|c|d dns|d f|pth r|];
        unfold total, completed; simpl; try lia.
      unfold weight. simpl. destruct (bool_decide (p = pth)) eqn:Hp; [|lia].
      apply bool_decide_eq_true in Hp as ->.
      pose proof (Hzero (pth, r) ltac:(apply elem_of_app; left; left)) as Hz.
      simpl in Hz. rewrite Hz. lia.
    + intros t Ht. rewrite size_get_exec. destruct o as [d|d n|c|d dns|d f|pth r|]; auto.
      rewrite bool_decide_eq_false_2.
      * rewrite (Hzero t (Hin t Ht)). rewrite occ_not_in; [lia|].
        apply (Hanc t (pth, r)); [auto|]. apply elem_of_app. left. left.
      * intros Heq. apply (Hdisj pth); [left|].
        rewrite <- Heq. apply list_elem_of_fmap. exists t. auto.
    + exact Hnd.
    + intros t t' Ht Ht'. rewrite root_exec. apply Hanc; auto.
Qed.

Lemma completed_flat_map_nil {A} (block : A -> list op) (l : list A) :
  (forall a o, a ∈ l -> o ∈ block a -> forall pth r, o <> Complete pth r) ->
  completed (flat_map block l) = [].
Proof.
  intros H. unfold completed. apply flat_map_nil. intros o Ho.
  apply elem_of_flat_map in Ho as (a & Ha & Ho).
  destruct o; try reflexivity. exfalso. eapply H; eauto.
Qed.

Lemma completed_pre_count : completed (pre_count_ops rt tree) = [].
Proof.
  apply completed_flat_map_nil. intros [[d dns] fns] o _ Ho pth r ->.
  apply elem_of_cons in Ho as [Ho|Ho]; [discriminate|].
  apply elem_of_app in Ho as [Ho|Ho].
  - apply list_elem_of_fmap in Ho as (n & Ho & _). discriminate.
  - apply list_elem_of_singleton in Ho. discriminate.
Qed.

Lemma completed_live : completed (live_ops rt tree) = [].
Proof.
  apply completed_flat_map_nil. intros [[d dns] fns] o _ Ho pth r ->.
  apply elem_of_cons in Ho as [Ho|Ho]; [discriminate|].
  apply list_elem_of_fmap in Ho as (n & Ho & _). discriminate.
Qed.

Lemma completed_scan order : completed (scan_ops rt tree order) = order.
Proof.
  unfold scan_ops. rewrite !completed_app, completed_pre_count, completed_live. simpl.
  unfold completed. rewrite app_nil_r.
  induction order as [|[pth r] order IH]; [reflexivity|]. simpl. f_equal. exact IH.
Qed.

Lemma file_paths_nodup : NoDup (file_paths rt tree).
Proof.
  unfold file_paths, submitted.
  change (fmap fst) with (map (@fst str (option Z))). rewrite map_flat_map.
  apply (NoDup_flat_map_rel
           (fun (w : str * list str * list (str * option Z)) p =>
              w ∈ walk rt tree /\ exists f, f ∈ w.2 /\ p = posixpath.join w.1.1 f.1)
           (fun w => w.1.1)).
  - intros [[d dns] fns] p Hin Hp. split; [exact Hin|].
    apply list_elem_of_fmap in Hp as (t & -> & Ht).
    apply list_elem_of_fmap in Ht as (f & -> & Hf). exists f. auto.
  - intros [[d dns] fns] [[d' dns'] fns'] p (Hin & f & Hf & ->) (Hin' & f' & Hf' & Heq).
    simpl in *.
    rewrite <- (dirname_join d f.1 (walk_good _ _ _ Hin) (walk_file_valid _ _ _ _ Hin Hf)).
    rewrite Heq.
    apply dirname_join; [exact (walk_good _ _ _ Hin')|exact (walk_file_valid _ _ _ _ Hin' Hf')].
  - exact walk_nodup.
  - intros [[d dns] fns] Hin. rewrite map_map. simpl.
    destruct (walk_local d dns fns Hin) as (_ & _ & Hfv & Hnd).
    apply NoDup_app in Hnd as (_ & _ & Hnd).
    replace (map (fun x : str * option Z => posixpath.join d x.1) fns)
      with (map (posixpath.join d) fns.*1) by (rewrite <- list_fmap_compose; reflexivity).
    rewrite Forall_forall in Hfv.
    apply NoDup_fmap_2_strong; [|exact Hnd].
    intros x y Hx Hy Heq. eapply join_inj; eauto. eapply walk_good; eauto.
Qed.

Lemma submitted_dirname t :
  t ∈ submitted rt tree ->
  exists d dns fns f,
    (d, dns, fns) ∈ walk rt tree /\ f ∈ fns /\ t = (posixpath.join d f.1, f.2)
    /\ posixpath.dirname t.1 = d.
Proof.
  intros Ht. apply elem_of_submitted in Ht as (d & dns & fns & f & Hin & Hf & ->).
  exists d, dns, fns, f. repeat split; auto. simpl.
  apply dirname_join; [eapply walk_good; eauto|eapply walk_file_valid; eauto].
Qed.

(** A file is on no chain of ancestors. *)
Lemma submitted_not_ancestor t t' :
  t ∈ submitted rt tree -> t' ∈ submitted rt tree ->
  t.1 ∉ ancestors (posixpath.dirname t'.1) rt.
Proof.
  intros Ht Ht' Hin.
  apply submitted_dirname in Ht' as (d & dns & fns & f & Hw & _ & _ & Hd).
  rewrite Hd in Hin. apply (ancestors_dir_paths d dns fns Hw) in Hin.
  revert Hin. apply file_not_dir. apply list_elem_of_fmap. exists t. auto.
Qed.

Lemma root_init : root (State_init rt) = rt.
Proof. exact Hrt. Qed.

Lemma size_get_init p : size_get (State_init rt) p = 0.
Proof. unfold size_get. simpl. rewrite lookup_empty. reflexivity. Qed.

(** At every point of the scan the sizes are the weighted sums of the
    futures completed so far. *)
Lemma size_prefix order pre post p :
  Permutation order (submitted rt tree) ->
  scan_ops rt tree order = pre ++ post ->
  size_get (run pre (State_init rt)) p = total rt (completed pre) p.
Proof.
  intros Hperm Heq.
  pose proof (completed_scan order) as Hc. rewrite Heq, completed_app in Hc.
  assert (forall t, t ∈ completed pre -> t ∈ submitted rt tree) as Hsub.
  { intros t Ht. rewrite <- Hperm, <- Hc. apply elem_of_app. auto. }
  rewrite size_get_run, root_init, size_get_init; [lia| | |].
  - intros t _. apply size_get_init.
  - pose proof file_paths_nodup as Hnd. unfold file_paths in Hnd.
    rewrite <- Hperm, <- Hc, fmap_app in Hnd. apply NoDup_app in Hnd as [Hnd _]. exact Hnd.
  - intros t t' Ht Ht'. rewrite root_init. apply submitted_not_ancestor; auto.
Qed.

Lemma ancestors_walk_nodup d dns fns :
  (d, dns, fns) ∈ walk rt tree ->
  NoDup (ancestors d rt)
  /\ (forall p, p ∈ ancestors d rt -> (length p <= length d)%nat)
  /\ occ rt (ancestors d rt) = 1.
Proof.
  intros Hin. revert d dns fns Hin.
  apply (walk_chain_ind (fun d => NoDup (ancestors d rt)
           /\ (forall p, p ∈ ancestors d rt -> (length p <= length d)%nat)
           /\ occ rt (ancestors d rt) = 1)).
  - rewrite (ancestors_root rt Hrt). split; [apply NoDup_singleton|]. split.
    + intros p Hp. apply list_elem_of_singleton in Hp as ->. reflexivity.
    + unfold occ. simpl. rewrite bool_decide_eq_true_2 by reflexivity. reflexivity.
  - intros d dns fns n dns' fns' Hin Hn _ (Hnd & Hlen & Hocc).
    rewrite (ancestors_walk_join d dns fns n Hin Hn).
    pose proof (join_length d n (walk_good d dns fns Hin)
                  (walk_child_valid d dns fns n Hin Hn)) as Hl.
    split; [|split].
    + apply NoDup_cons. split; [|exact Hnd]. intros Hp. apply Hlen in Hp. lia.
    + intros p Hp. apply elem_of_cons in Hp as [->|Hp]; [reflexivity|].
      apply Hlen in Hp. lia.
    + rewrite occ_cons, Hocc, bool_decide_eq_false_2; [reflexivity|].
      eapply walk_join_ne_root; eauto. eapply walk_child_valid; eauto.
Qed.

Lemma occ_nodup p l : NoDup l -> p ∈ l -> occ p l = 1.
Proof.
  intros Hnd Hp. unfold occ. rewrite (sum_with_single _ l p Hnd Hp).
  - rewrite bool_decide_eq_true_2 by reflexivity. reflexivity.
  - intros y _ Hne. rewrite bool_decide_eq_false_2 by exact Hne. reflexivity.
Qed.

(** C2. In a scan of a well-formed tree, for every completed future with
    path [p] and size [sz]: [p] lies [length cs + 1] components below the
    root, the chain of its ancestors runs from its directory up to the root
    and has that length, and the critical section of the completion sets
    [size[p]] to [sz] and adds [sz] to [size[a]] for exactly the [a] on the
    chain.  The section is one step of the scanner: at every point between
    two critical sections, each size is the sum over the futures completed so
    far, each counted in full. *)
Theorem bubble_whole_chain_at_once order :
  Permutation order (submitted rt tree) ->
  (forall t, t ∈ order ->
     (exists cs f,
        Forall (fun w => valid_name w = true) (cs ++ [f])
        /\ t.1 = pjoin rt (cs ++ [f])
        /\ ancestors (posixpath.dirname t.1) rt
           = map (fun k => pjoin rt (take k cs)) (rev (seq 0 (S (length cs))))
        /\ length (ancestors (posixpath.dirname t.1) rt) = length (cs ++ [f]))
     /\ (forall st x, root st = rt ->
           size_get (exec st (Complete t.1 t.2)) x
           = if bool_decide (x = t.1) then default 0 t.2
             else if bool_decide (x ∈ ancestors (posixpath.dirname t.1) rt)
                  then size_get st x + default 0 t.2
                  else size_get st x))
  /\ (forall pre post x,
        scan_ops rt tree order = pre ++ post ->
        size_get (run pre (State_init rt)) x = total rt (completed pre) x).
Proof.
  intros Hperm. split.
  - intros t Ht. rewrite Hperm in Ht.
    pose proof (submitted_not_ancestor t t Ht Ht) as Hself.
    destruct (submitted_dirname t Ht) as (d & dns & fns & f & Hw & Hf & Heq & Hd).
    destruct (ancestors_walk_nodup d dns fns Hw) as (Hnd & _ & _).
    destruct (walk_local d dns fns Hw) as ((cs & Hcs & Hdcs) & _).
    pose proof (walk_file_valid d dns fns f Hw Hf) as Hfv.
    rewrite Hd in *. split.
    + exists cs, f.1. split; [apply Forall_app; split; [exact Hcs|repeat constructor; exact Hfv]|].
      split; [subst t d; simpl; rewrite pjoin_snoc; reflexivity|].
      rewrite Hdcs, (ancestors_pjoin rt Hrt cs Hcs). split; [reflexivity|].
      rewrite length_map, length_rev, length_seq, length_app. simpl. lia.
    + intros st x Hroot. rewrite size_get_exec, Hroot, Hd.
      destruct (bool_decide (x = t.1)) eqn:Hx.
      * apply bool_decide_eq_true in Hx as ->. rewrite occ_not_in by exact Hself. lia.
      * destruct (bool_decide (x ∈ ancestors d rt)) eqn:Hc.
        -- apply bool_decide_eq_true in Hc. rewrite (occ_nodup x _ Hnd Hc). lia.
        -- apply bool_decide_eq_false in Hc. rewrite occ_not_in by exact Hc. lia.
  - intros pre post x Heq. eapply size_prefix; eauto.
Qed.

(** *** Totals of a directory and of its children *)

(** A directory is on the chain of [d0] if it is [d0] or if one of its
    subdirectories is on that chain. *)
Lemma occ_chain_children d dns fns d0 dns0 fns0 :
  (d, dns, fns) ∈ walk rt tree -> (d0, dns0, fns0) ∈ walk rt tree ->
  occ d (ancestors d0 rt)
  = (if bool_decide (d0 = d) then 1 else 0)
    + sum_with (fun n => occ (posixpath.join d n) (ancestors d0 rt)) dns.
Proof.
  intros Hin Hin0. revert d0 dns0 fns0 Hin0.
  apply (walk_chain_ind (fun d0 => occ d (ancestors d0 rt)
           = (if bool_decide (d0 = d) then 1 else 0)
             + sum_with (fun n => occ (posixpath.join d n) (ancestors d0 rt)) dns)).
  - rewrite (ancestors_root rt Hrt), occ_cons. unfold occ at 1. simpl.
    rewrite sum_with_zero; [lia|]. intros n Hn. unfold occ. simpl.
    rewrite bool_decide_eq_false_2; [reflexivity|]. intros Heq. symmetry in Heq. revert Heq.
    eapply walk_join_ne_root; eauto. eapply walk_child_valid; eauto.
  - intros d' dns' fns' n' dns'' fns'' Hin' Hn' _ IH.
    rewrite (ancestors_walk_join d' dns' fns' n' Hin' Hn'), occ_cons, IH.
    rewrite (sum_with_ext
               (fun n => occ (posixpath.join d n) (posixpath.join d' n' :: ancestors d' rt))
               (fun n => (if bool_decide (posixpath.join d' n' = posixpath.join d n)
                          then 1 else 0)
                         + occ (posixpath.join d n) (ancestors d' rt)) dns)
      by (intros n _; apply occ_cons).
    rewrite sum_with_add.
    assert (sum_with (fun n => if bool_decide (posixpath.join d' n' = posixpath.join d n)
                               then 1 else 0) dns
            = if bool_decide (d' = d) then 1 else 0) as ->; [|lia].
    pose proof (walk_good d dns fns Hin) as Hg.
    pose proof (walk_good d' dns' fns' Hin') as Hg'.
    pose proof (walk_child_valid d' dns' fns' n' Hin' Hn') as Hv'.
    destruct (bool_decide (d' = d)) eqn:Hd.
    + apply bool_decide_eq_true in Hd. subst d'.
      destruct (walk_functional d dns fns dns' fns' Hin Hin') as [<- <-].
      destruct (walk_local d dns fns Hin) as (_ & _ & _ & Hnd).
      apply NoDup_app in Hnd as (Hnd & _ & _).
      rewrite (sum_with_single _ dns n' Hnd Hn').
      * rewrite bool_decide_eq_true_2 by reflexivity. reflexivity.
      * intros y Hy Hne. rewrite bool_decide_eq_false_2; [reflexivity|].
        intros Heq. apply Hne. symmetry. eapply join_inj; eauto.
        eapply walk_child_valid; eauto.
    + apply bool_decide_eq_false in Hd. apply sum_with_zero. intros n Hn.
      rewrite bool_decide_eq_false_2; [reflexivity|]. intros Heq. apply Hd.
      rewrite <- (dirname_join d' n' Hg' Hv'), Heq. apply dirname_join; [exact Hg|].
      exact (walk_child_valid d dns fns n Hin Hn).
Qed.

(** What a completed future adds to a directory, it adds to exactly one
    of the children of the directory. *)
Lemma weight_children d dns fns t :
  (d, dns, fns) ∈ walk rt tree -> t ∈ submitted rt tree ->
  weight rt d t = sum_with (fun c => weight rt c t) (listing_paths d dns fns).
Proof.
  intros Hin Ht.
  destruct (submitted_dirname t Ht) as (d0 & dns0 & fns0 & f0 & Hw0 & Hf0 & Heq & Hd0).
  pose proof (walk_good d dns fns Hin) as Hg.
  assert (t.1 ∈ file_paths rt tree) as Hfile by (apply list_elem_of_fmap; exists t; auto).
  pose proof (file_not_dir t.1 Hfile) as Hnotdir.
  unfold listing_paths. rewrite sum_with_app, !sum_with_map. unfold weight. rewrite Hd0.
  rewrite bool_decide_eq_false_2.
  2:{ intros Hdt. apply Hnotdir. rewrite <- Hdt. eapply walk_dir_path; eauto. }
  rewrite (occ_chain_children d dns fns d0 dns0 fns0 Hin Hw0).
  rewrite (sum_with_ext
             (fun n => (if bool_decide (posixpath.join d n = t.1) then 1 else 0)
                       + occ (posixpath.join d n) (ancestors d0 rt))
             (fun n => occ (posixpath.join d n) (ancestors d0 rt)) dns).
  2:{ intros n Hn. rewrite bool_decide_eq_false_2; [lia|].
      intros Hdt. apply Hnotdir. rewrite <- Hdt. apply elem_of_dir_paths. right.
      exists d, dns, fns, n. auto. }
  rewrite (sum_with_ext
             (fun f : str * option Z =>
                (if bool_decide (posixpath.join d f.1 = t.1) then 1 else 0)
                + occ (posixpath.join d f.1) (ancestors d0 rt))
             (fun f => if bool_decide (posixpath.join d f.1 = t.1) then 1 else 0) fns).
  2:{ intros f Hf. rewrite occ_not_in; [lia|]. intros Hanc.
      apply (ancestors_dir_paths d0 dns0 fns0 Hw0) in Hanc. revert Hanc.
      apply file_not_dir. apply elem_of_file_paths. exists d, dns, fns, f. auto. }
  assert (sum_with (fun f : str * option Z =>
                      if bool_decide (posixpath.join d f.1 = t.1) then 1 else 0) fns
          = if bool_decide (d0 = d) then 1 else 0) as ->; [|lia].
  subst t. simpl.
  pose proof (walk_good d0 dns0 fns0 Hw0) as Hg0.
  pose proof (walk_file_valid d0 dns0 fns0 f0 Hw0 Hf0) as Hv0.
  destruct (bool_decide (d0 = d)) eqn:Hd.
  - apply bool_decide_eq_true in Hd. subst d0.
    destruct (walk_functional d dns fns dns0 fns0 Hin Hw0) as [<- <-].
    destruct (walk_local d dns fns Hin) as (_ & _ & _ & Hnd).
    apply NoDup_app in Hnd as (_ & _ & Hnd).
    rewrite (sum_with_single _ fns f0 (NoDup_fmap_1 fst fns Hnd) Hf0).
    + rewrite bool_decide_eq_true_2 by reflexivity. reflexivity.
    + intros y Hy Hne. rewrite bool_decide_eq_false_2; [reflexivity|].
      intros Hj. apply Hne. apply join_inj in Hj; auto.
      2:{ eapply walk_file_valid; eauto. }
      destruct y as [y1 y2], f0 as [f1 f2]. simpl in Hj. subst y1. f_equal.
      eapply (NoDup_fst_functional fns f1); eauto.
  - apply bool_decide_eq_false in Hd. apply sum_with_zero. intros f Hf.
    rewrite bool_decide_eq_false_2; [reflexivity|]. intros Hj. apply Hd.
    rewrite <- (dirname_join d0 f0.1 Hg0 Hv0), <- Hj. apply dirname_join; [exact Hg|].
    exact (walk_file_valid d dns fns f Hin Hf).
Qed.

Lemma sum_with_cons {A} (f : A -> Z) x l : sum_with f (x :: l) = f x + sum_with f l.
Proof. reflexivity. Qed.

Lemma listing_bytes es :
  sum_with (fun f : str * option Z => default 0 f.2) (filenames es)
  + sum_with (fun e => match e with Dir _ sub => sum_with entry_bytes sub | _ => 0 end) es
  = sum_with entry_bytes es.
Proof.
  induction es as [|e es IH]; [reflexivity|].
  destruct e as [n r|n sub|n]; simpl in *; lia.
Qed.

Lemma walk_entry_bytes e : forall top,
  sum_with (fun w : str * list str * list (str * option Z) =>
              sum_with (fun f : str * option Z => default 0 f.2) w.2) (walk_entry top e)
  = match e with Dir _ sub => sum_with entry_bytes sub | _ => 0 end.
Proof.
  induction e as [n r|n sub IH|n] using entry_ind'; intros top; try reflexivity.
  rewrite walk_entry_dir, sum_with_cons. cbn [snd].
  rewrite sum_with_flat_map. rewrite <- listing_bytes. f_equal.
  apply sum_with_ext. intros e He. rewrite Forall_forall in IH. apply IH. exact He.
Qed.

Lemma submitted_bytes top es :
  sum_with (fun t : str * option Z => default 0 t.2) (submitted top es) = tree_bytes es.
Proof.
  unfold submitted, tree_bytes. rewrite sum_with_flat_map.
  rewrite (sum_with_ext _ (fun w => sum_with (fun f : str * option Z => default 0 f.2) w.2)).
  2:{ intros [[d dns] fns] _. rewrite sum_with_map. reflexivity. }
  unfold walk. rewrite sum_with_cons. cbn [snd].
  rewrite sum_with_flat_map. rewrite <- listing_bytes. f_equal.
  apply sum_with_ext. intros e _. apply walk_entry_bytes.
Qed.

Lemma sum_with_filter {A} (f : A -> Z) (P : A -> Prop) `{forall x, Decision (P x)} l :
  (forall x, x ∈ l -> ~ P x -> f x = 0) -> sum_with f (filter P l) = sum_with f l.
Proof.
  induction l as [|x l IH]; intros Hz; [reflexivity|].
  rewrite filter_cons. destruct (decide (P x)) as [Hp|Hp]; simpl.
  - rewrite IH; [reflexivity|]. intros y Hy. apply Hz. right. exact Hy.
  - rewrite (Hz x) by (auto; left). rewrite IH; [reflexivity|].
    intros y Hy. apply Hz. right. exact Hy.
Qed.

Lemma scanning_scan order st : scanning (scan_live rt tree order st) = false.
Proof.
  unfold scan_live, scan_ops. rewrite !app_assoc, run_app. reflexivity.
Qed.

(** *** What is recorded *)

Lemma scan_ops_ok order : Forall (op_ok rt tree) (scan_ops rt tree order).
Proof.
  apply Forall_forall. intros o Ho. unfold scan_ops in Ho.
  apply elem_of_app in Ho as [Ho|Ho].
  - apply elem_of_pre_count_ops in Ho as (d & dns & fns & Hin & [->|[(n & Hn & ->)| ->]]);
      simpl; auto.
    + eapply walk_dir_path; eauto.
    + apply elem_of_dir_paths. right. exists d, dns, fns, n. auto.
  - apply elem_of_after_pre in Ho as [Ho|[(t & _ & ->)| ->]]; simpl; auto.
    apply elem_of_live_ops in Ho as (d & dns & fns & Hin & [->|(f & Hf & ->)]); simpl.
    + eapply walk_dir_path; eauto.
    + apply elem_of_file_paths. exists d, dns, fns, f. auto.
Qed.

Lemma scan_inv_init : scan_inv rt tree (State_init rt).
Proof.
  split; [exact Hrt|]. simpl. split; [|split].
  - intros p Hp. apply elem_of_empty in Hp. contradiction.
  - intros p Hp. rewrite lookup_empty in Hp. discriminate.
  - intros p Hp. apply elem_of_empty in Hp. contradiction.
Qed.

Lemma scan_inv_exec st o :
  scan_inv rt tree st -> op_ok rt tree o -> scan_inv rt tree (exec st o).
Proof.
  intros (Hroot & Hreg & Hmark & Hdir) Hok.
  assert (forall (d : str) (st' : State),
            d ∈ dir_paths rt tree ->
            root st' = rt ->
            exists_ st' = {[d]} ∪ exists_ st ->
            is_dir st' = <[d := true]> (is_dir st) ->
            scan_inv rt tree st') as Hadd_dir.
  { intros d st' Hd Hr He Hi. split; [exact Hr|]. rewrite He, Hi. split; [|split].
    - intros p Hp. apply elem_of_union in Hp as [Hp|Hp]; [|auto].
      apply elem_of_singleton in Hp as ->. auto.
    - intros p Hp. destruct (decide (d = p)) as [<-|Hne]; [exact Hd|].
      rewrite lookup_insert_ne in Hp by exact Hne. auto.
    - intros p Hp Hpd. destruct (decide (d = p)) as [<-|Hne].
      + apply lookup_insert_eq.
      + rewrite lookup_insert_ne by exact Hne. apply Hdir; [|exact Hpd].
        apply elem_of_union in Hp as [Hp|Hp]; [|exact Hp].
        apply elem_of_singleton in Hp. congruence. }
  destruct o as [d|d n|c|d dns|d f|pth r|]; simpl in Hok;
    try (apply (Hadd_dir _ _ Hok); [exact Hroot|reflexivity|reflexivity]);
    try (split; [exact Hroot|]; simpl; auto).
  pose proof (file_not_dir _ Hok) as Hnd. split; [|split].
  - intros p Hp. apply elem_of_union in Hp as [Hp|Hp]; [|auto].
    apply elem_of_singleton in Hp as ->. auto.
  - intros p Hp. destruct (decide (posixpath.join d f = p)) as [<-|Hne].
    + rewrite lookup_insert_eq in Hp. discriminate.
    + rewrite lookup_insert_ne in Hp by exact Hne. auto.
  - intros p Hp Hpd. destruct (decide (posixpath.join d f = p)) as [<-|Hne]; [contradiction|].
    rewrite lookup_insert_ne by exact Hne. apply Hdir; [|exact Hpd].
    apply elem_of_union in Hp as [Hp|Hp]; [|exact Hp].
    apply elem_of_singleton in Hp. congruence.
Qed.

Lemma scan_inv_run ops : forall st,
  scan_inv rt tree st -> Forall (op_ok rt tree) ops -> scan_inv rt tree (run ops st).
Proof.
  induction ops as [|o ops IH]; intros st Hinv Hok; [exact Hinv|].
  inversion Hok; subst. rewrite run_cons. apply IH; [|assumption].
  apply scan_inv_exec; assumption.
Qed.

Lemma scan_inv_prefix order pre post :
  scan_ops rt tree order = pre ++ post -> scan_inv rt tree (run pre (State_init rt)).
Proof.
  intros Heq. apply scan_inv_run; [apply scan_inv_init|].
  pose proof (scan_ops_ok order) as Hok. rewrite Heq in Hok.
  apply Forall_app in Hok as [Hok _]. exact Hok.
Qed.

(** A recorded path whose [dirname] is recorded: the [dirname] is the
    root or a recorded directory. *)
Lemma recorded_parent st p :
  scan_inv rt tree st ->
  p = rt \/ p ∈ dir_paths rt tree ->
  posixpath.dirname p ∈ exists_ st ->
  posixpath.dirname p ∈ dir_paths rt tree
  /\ (p = rt -> posixpath.dirname p = rt).
Proof.
  intros (Hroot & Hreg & Hmark & Hdir) Hp Hpar.
  assert (p = rt -> posixpath.dirname p = rt) as Hrootcase.
  { intros ->. destruct (under_root _ (Hreg _ Hpar)) as (cs & Hcs & Heq).
    destruct cs as [|c cs]; [exact Heq|].
    destruct (pjoin_length rt (c :: cs) (rt_good rt Hrt) Hcs) as [_ Hlt].
    specialize (Hlt ltac:(discriminate)). rewrite <- Heq in Hlt.
    destruct (dirname_prefix rt) as [suf Hsuf].
    apply (f_equal (@length ascii)) in Hsuf. rewrite length_app in Hsuf. lia. }
  split; [|exact Hrootcase].
  assert (p ∈ dir_paths rt tree) as Hpd.
  { destruct Hp as [->|Hp]; [apply elem_of_dir_paths; left; reflexivity|exact Hp]. }
  apply elem_of_dir_paths in Hpd as [->|(d & dns & fns & n & Hin & Hn & ->)].
  - rewrite Hrootcase by reflexivity. apply elem_of_dir_paths. left. reflexivity.
  - rewrite dirname_join; [eapply walk_dir_path; eauto|eapply walk_good; eauto|].
    eapply walk_child_valid; eauto.
Qed.

(** The chain from a walked directory to the root runs through walked
    directories. *)
Lemma ancestors_walked d dns fns :
  (d, dns, fns) ∈ walk rt tree ->
  forall p, p ∈ ancestors d rt -> exists dns' fns', (p, dns', fns') ∈ walk rt tree.
Proof.
  intros Hin. revert d dns fns Hin.
  apply (walk_chain_ind (fun d => forall p, p ∈ ancestors d rt ->
           exists dns' fns', (p, dns', fns') ∈ walk rt tree)).
  - intros p. rewrite (ancestors_root rt Hrt). intros Hp.
    apply list_elem_of_singleton in Hp as ->.
    exists (dirnames tree), (filenames tree). left.
  - intros d dns fns n dns' fns' Hin Hn Hw IH p.
    rewrite (ancestors_walk_join d dns fns n Hin Hn). intros Hp.
    apply elem_of_cons in Hp as [->|Hp]; [eauto|auto].
Qed.

(** C1. After a whole scan of a well-formed tree, in whatever order the
    futures complete: the scanning flag is cleared; for every directory
    [d] the walk yields, and for every path marked as a directory,
    [size[d]] is the sum of [size[c]] over the children [c] in
    [children[d]]; [size[root]] is the sum of the sizes of the files that
    could be read; and every size is the weighted sum over the files that
    could be read alone, the others adding 0 everywhere. *)
Theorem sizes_add_up order :
  Permutation order (submitted rt tree) ->
  let fin := scan_live rt tree order (State_init rt) in
  scanning fin = false
  /\ (forall d dns fns,
        (d, dns, fns) ∈ walk rt tree ->
        size_get fin d = sum_with (size_get fin) (children_get fin d))
  /\ (forall d,
        is_dir fin !! d = Some true ->
        size_get fin d = sum_with (size_get fin) (children_get fin d))
  /\ size_get fin rt = tree_bytes tree
  /\ (forall p,
        size_get fin p
        = total rt (filter (fun t => is_Some t.2) (submitted rt tree)) p).
Proof.
  intros Hperm fin.
  assert (scan_ops rt tree order = scan_ops rt tree order ++ []) as Happ
    by (rewrite app_nil_r; reflexivity).
  assert (forall x, size_get fin x = total rt order x) as Hsize.
  { intros x. unfold fin, scan_live. rewrite (size_prefix order _ [] x Hperm Happ).
    rewrite completed_scan. reflexivity. }
  assert (forall t, t ∈ order -> t ∈ submitted rt tree) as Hsub
    by (intros t Ht; rewrite <- Hperm; exact Ht).
  assert (forall d dns fns,
            (d, dns, fns) ∈ walk rt tree ->
            size_get fin d = sum_with (size_get fin) (children_get fin d)) as Hwalked.
  { intros d dns fns Hin.
    assert (children_get fin d = listing_paths d dns fns) as ->.
    { unfold fin, scan_live.
      rewrite (children_prefix order _ [] d Happ). apply appended_scan. exact Hin. }
    rewrite (sum_with_ext _ (total rt order)) by (intros; apply Hsize).
    rewrite Hsize. unfold total.
    rewrite (sum_with_ext (fun t => default 0 t.2 * weight rt d t)
               (fun t => sum_with (fun c => default 0 t.2 * weight rt c t)
                           (listing_paths d dns fns))).
    2:{ intros t Ht. rewrite sum_with_mul. f_equal. apply weight_children; auto. }
    apply sum_with_swap. }
  split; [apply scanning_scan|]. split; [exact Hwalked|]. split; [|split].
  - intros d Hd.
    destruct (scan_inv_prefix order _ [] Happ) as (_ & _ & Hmark & _).
    apply Hmark in Hd.
    destruct (decide (d ∈ map (fun t => t.1.1) (walk rt tree))) as [Hw|Hw].
    { apply list_elem_of_fmap in Hw as ([[d' dns] fns] & Hd' & Hw). simpl in Hd'. subst d'.
      eapply Hwalked; eauto. }
    assert (forall dns fns, (d, dns, fns) ∉ walk rt tree) as Hnot.
    { intros dns fns Hin. apply Hw. apply list_elem_of_fmap. exists (d, dns, fns). auto. }
    assert (children_get fin d = []) as ->.
    { unfold fin, scan_live. rewrite (children_prefix order _ [] d Happ).
      apply appended_scan_other. exact Hnot. }
    rewrite Hsize. unfold total. apply sum_with_zero. intros t Ht. apply Hsub in Ht.
    destruct (submitted_dirname t Ht) as (d0 & dns0 & fns0 & f0 & Hw0 & Hf0 & Heq & Hd0).
    unfold weight. rewrite Hd0, bool_decide_eq_false_2, occ_not_in; [lia| |].
    + intros Hanc. destruct (ancestors_walked d0 dns0 fns0 Hw0 d Hanc) as (dns' & fns' & Hin).
      exact (Hnot dns' fns' Hin).
    + intros Hdt. apply (file_not_dir t.1); [apply list_elem_of_fmap; exists t; auto|].
      rewrite <- Hdt. exact Hd.
  - rewrite Hsize. unfold total.
    rewrite (sum_with_ext _ (fun t => default 0 t.2)).
    + rewrite (sum_with_perm _ _ _ Hperm). apply submitted_bytes.
    + intros t Ht. apply Hsub in Ht.
      destruct (submitted_dirname t Ht) as (d & dns & fns & f & Hw & Hf & Heq & Hd).
      unfold weight. rewrite Hd.
      destruct (ancestors_walk_nodup d dns fns Hw) as (_ & _ & ->).
      rewrite bool_decide_eq_false_2; [lia|]. intros Hr.
      apply (file_not_dir t.1); [apply list_elem_of_fmap; exists t; auto|].
      rewrite <- Hr. apply elem_of_dir_paths. left. reflexivity.
  - intros p. rewrite Hsize. unfold total. rewrite (sum_with_perm _ _ _ Hperm).
    symmetry. apply sum_with_filter. intros t _ Hnone.
    destruct t as [pth [sz|]]; [exfalso; apply Hnone; eexists; reflexivity|]. simpl. lia.
Qed.

(** *** The progress counters *)

Lemma counters_exec st o :
  seen_files (exec st o) + seen_dirs (exec st o)
  = seen_files st + seen_dirs st + seen_steps [o]
  /\ total_files (exec st o) + total_dirs (exec st o)
     = total_files st + total_dirs st + total_steps [o].
Proof. destruct o; unfold seen_steps, total_steps; simpl; lia. Qed.

Lemma seen_steps_app l1 l2 : seen_steps (l1 ++ l2) = seen_steps l1 + seen_steps l2.
Proof. apply sum_with_app. Qed.

Lemma total_steps_app l1 l2 : total_steps (l1 ++ l2) = total_steps l1 + total_steps l2.
Proof. apply sum_with_app. Qed.

Lemma sum_with_nonneg {A} (f : A -> Z) l : (forall x, 0 <= f x) -> 0 <= sum_with f l.
Proof. intros H. induction l as [|x l IH]; simpl; [lia|]. specialize (H x). lia. Qed.

Lemma seen_steps_nonneg l : 0 <= seen_steps l.
Proof. apply sum_with_nonneg. intros []; lia. Qed.

Lemma total_steps_nonneg l : 0 <= total_steps l.
Proof. apply sum_with_nonneg. intros []; lia. Qed.

Lemma counters_run ops : forall st,
  seen_files (run ops st) + seen_dirs (run ops st)
  = seen_files st + seen_dirs st + seen_steps ops
  /\ total_files (run ops st) + total_dirs (run ops st)
     = total_files st + total_dirs st + total_steps ops.
Proof.
  induction ops as [|o ops IH]; intros st.
  - unfold seen_steps, total_steps. simpl. lia.
  - rewrite run_cons. destruct (IH (exec st o)) as [-> ->].
    destruct (counters_exec st o) as [-> ->].
    change (o :: ops) with ([o] ++ ops). rewrite seen_steps_app, total_steps_app. lia.
Qed.

Lemma seen_steps_pre_count : seen_steps (pre_count_ops rt tree) = 0.
Proof.
  apply sum_with_zero. intros o Ho.
  apply elem_of_pre_count_ops in Ho as (d & dns & fns & _ & [->|[(n & _ & ->)| ->]]);
    reflexivity.
Qed.

Lemma total_steps_after_pre order :
  total_steps (live_ops rt tree ++ map (fun t => Complete t.1 t.2) order ++ [Finish]) = 0.
Proof.
  apply sum_with_zero. intros o Ho.
  apply elem_of_after_pre in Ho as [Ho|[(t & _ & ->)| ->]]; try reflexivity.
  apply elem_of_live_ops in Ho as (d & dns & fns & _ & [->|(f & _ & ->)]); reflexivity.
Qed.

Lemma flat_map_cons' {A B} (f : A -> list B) (x : A) (l : list A) :
  flat_map f (x :: l) = f x ++ flat_map f l.
Proof. reflexivity. Qed.

Lemma total_steps_pre_count top es :
  total_steps (pre_count_ops top es)
  = Z.of_nat (length (walk top es)) + Z.of_nat (length (submitted top es)).
Proof.
  unfold pre_count_ops, submitted, total_steps.
  induction (walk top es) as [|[[d dns] fns] W IH]; [reflexivity|].
  rewrite !flat_map_cons', length_app, length_map. rewrite sum_with_app, IH.
  rewrite sum_with_cons, sum_with_app.
  rewrite (sum_with_zero _ (map (PreChild d) dns)).
  2:{ intros o Ho. apply list_elem_of_fmap in Ho as (n & -> & _). reflexivity. }
  simpl. lia.
Qed.

Lemma seen_steps_after_pre top es (order : list (str * option Z)) :
  seen_steps (live_ops top es ++ map (fun t => Complete t.1 t.2) order ++ [Finish])
  = Z.of_nat (length (walk top es)) + Z.of_nat (length order).
Proof.
  rewrite !seen_steps_app. unfold live_ops, seen_steps.
  assert (sum_with (fun o => match o with LiveDir _ _ | Complete _ _ => 1 | _ => 0 end)
            (map (fun t : str * option Z => Complete t.1 t.2) order)
          = Z.of_nat (length order)) as ->.
  { induction order as [|t order IH]; [reflexivity|]. simpl map. rewrite sum_with_cons, IH.
    simpl length. lia. }
  change (sum_with _ [Finish]) with 0.
  induction (walk top es) as [|[[d dns] fns] W IH]; [simpl; lia|].
  rewrite flat_map_cons', sum_with_app, sum_with_cons.
  rewrite (sum_with_zero _ (map (fun f : str * option Z => LiveFile d f.1) fns)).
  2:{ intros o Ho. apply list_elem_of_fmap in Ho as (n & -> & _). reflexivity. }
  simpl length. lia.
Qed.

(** Before the end of the pre-count nothing is seen; after it the totals
    stay as they are. *)
Lemma scan_split_phase order pre post :
  scan_ops rt tree order = pre ++ post -> seen_steps pre = 0 \/ total_steps post = 0.
Proof.
  unfold scan_ops. intros Heq. symmetry in Heq.
  apply app_eq_inv in Heq as [(l & Hpre & Hpost)|(l & Hpre & Hpost)].
  - right. pose proof (total_steps_after_pre order) as H.
    rewrite Hpost, total_steps_app in H.
    pose proof (total_steps_nonneg l). pose proof (total_steps_nonneg post). lia.
  - left. pose proof seen_steps_pre_count as H. rewrite Hpre, seen_steps_app in H.
    pose proof (seen_steps_nonneg l). pose proof (seen_steps_nonneg pre). lia.
Qed.

Lemma pct_zero st :
  seen_files st + seen_dirs st = 0 -> (progress_pct st == 0)%Q.
Proof.
  intros H. unfold progress_pct. rewrite H.
  rewrite Q.min_r; [reflexivity|]. unfold Qle. simpl. lia.
Qed.

Lemma pct_nonneg st :
  0 <= seen_files st + seen_dirs st -> (0 <= progress_pct st)%Q.
Proof.
  intros H. unfold progress_pct.
  apply Qmult_le_0_compat; [discriminate|].
  apply Q.min_glb; [discriminate|]. unfold Qle. simpl. lia.
Qed.

Lemma pct_mono st st' :
  total_files st + total_dirs st = total_files st' + total_dirs st' ->
  seen_files st + seen_dirs st <= seen_files st' + seen_dirs st' ->
  (progress_pct st <= progress_pct st')%Q.
Proof.
  intros Ht Hs. unfold progress_pct. rewrite Ht.
  apply Qmult_le_l; [reflexivity|].
  apply Q.min_le_compat_l. unfold Qle. simpl.
  apply Z.mul_le_mono_nonneg_r; lia.
Qed.

Lemma pct_below_100 st :
  0 <= seen_files st + seen_dirs st < total_files st + total_dirs st ->
  (progress_pct st < 100)%Q.
Proof.
  intros [H0 Hlt]. unfold progress_pct.
  set (q := (seen_files st + seen_dirs st) # Z.to_pos (Z.max 1 (total_files st + total_dirs st))).
  assert (q < 1)%Q as Hq.
  { unfold q, Qlt. simpl. rewrite Z2Pos.id by lia. lia. }
  rewrite Q.min_r by (apply Qlt_le_weak; exact Hq).
  apply Qlt_le_trans with (100 * 1)%Q; [|discriminate].
  apply Qmult_lt_l; [reflexivity|exact Hq].
Qed.

Lemma counters_prefix pre :
  seen_files (run pre (State_init rt)) + seen_dirs (run pre (State_init rt)) = seen_steps pre
  /\ total_files (run pre (State_init rt)) + total_dirs (run pre (State_init rt))
     = 2 + total_steps pre.
Proof. destruct (counters_run pre (State_init rt)) as [-> ->]. simpl. lia. Qed.

Lemma pct_exact st :
  0 <= seen_files st + seen_dirs st <= total_files st + total_dirs st ->
  1 <= total_files st + total_dirs st ->
  (progress_pct st
   == 100 * ((seen_files st + seen_dirs st) # Z.to_pos (total_files st + total_dirs st)))%Q.
Proof.
  intros Hs Ht. unfold progress_pct.
  rewrite Z.max_r by lia.
  rewrite Q.min_r; [reflexivity|].
  unfold Qle. simpl. rewrite Z2Pos.id by lia. lia.
Qed.

Lemma pct_strict st st' :
  total_files st + total_dirs st = total_files st' + total_dirs st' ->
  0 <= seen_files st + seen_dirs st ->
  seen_files st + seen_dirs st < seen_files st' + seen_dirs st' ->
  seen_files st' + seen_dirs st' <= total_files st' + total_dirs st' ->
  (progress_pct st < progress_pct st')%Q.
Proof.
  intros Ht H0 Hlt Hle.
  rewrite (pct_exact st) by lia. rewrite (pct_exact st') by lia. rewrite Ht.
  apply Qmult_lt_l; [reflexivity|].
  unfold Qlt. simpl. apply Z.mul_lt_mono_pos_r; lia.
Qed.

(** The seen counts stay below the totals at every point of the scan, the
    end included: both totals start at 1, which the seen counts never make
    up for. *)
Lemma seen_below_total order pre post :
  Permutation order (submitted rt tree) ->
  scan_ops rt tree order = pre ++ post ->
  0 <= seen_steps pre < 2 + total_steps pre.
Proof.
  intros Hperm Heq.
  pose proof (seen_steps_nonneg pre). pose proof (total_steps_nonneg pre).
  split; [lia|].
  destruct (scan_split_phase order pre post Heq) as [Hz|Hz]; [lia|].
  pose proof (f_equal seen_steps Heq) as Hs. pose proof (f_equal total_steps Heq) as Ht.
  unfold scan_ops in Hs, Ht.
  rewrite seen_steps_app, seen_steps_pre_count, seen_steps_after_pre, seen_steps_app in Hs.
  rewrite total_steps_app, total_steps_pre_count, total_steps_after_pre, total_steps_app in Ht.
  rewrite (Permutation_length Hperm) in Hs.
  pose proof (seen_steps_nonneg post). lia.
Qed.

(** The percentage stays below 100 at every point of the scan, the end
    included. *)
Lemma progress_below_100_always order pre post :
  Permutation order (submitted rt tree) ->
  scan_ops rt tree order = pre ++ post ->
  (progress_pct (run pre (State_init rt)) < 100)%Q.
Proof.
  intros Hperm Heq. apply pct_below_100.
  destruct (counters_prefix pre) as [-> ->].
  pose proof (seen_below_total order pre post Hperm Heq). lia.
Qed.

(** C3. Along a scan the percentage of the header never decreases from
    one point to a later one.  It is 0 all through the pre-count, and
    afterwards it grows with every directory walked and every file sized.
    It is below 100 at every point, the end included: both totals start at
    1, so that with [n] directories and files in all the percentage stands
    at [100 n / (n + 2)] once the scanning flag is cleared. *)
Theorem progress_never_decreases order :
  Permutation order (submitted rt tree) ->
  (forall pre mid post,
     scan_ops rt tree order = pre ++ mid ++ post ->
     (progress_pct (run pre (State_init rt))
      <= progress_pct (run (pre ++ mid) (State_init rt)))%Q)
  /\ (forall pre post,
        scan_ops rt tree order = pre ++ post ->
        (progress_pct (run pre (State_init rt)) < 100)%Q)
  /\ (forall pre post,
        pre_count_ops rt tree = pre ++ post ->
        (progress_pct (run pre (State_init rt)) == 0)%Q)
  /\ (forall pre o post,
        scan_ops rt tree order = pre ++ o :: post ->
        (exists d dns, o = LiveDir d dns) \/ (exists p r, o = Complete p r) ->
        (progress_pct (run pre (State_init rt))
         < progress_pct (run (pre ++ [o]) (State_init rt)))%Q)
  /\ (let fin := scan_live rt tree order (State_init rt) in
      let n := Z.of_nat (length (walk rt tree)) + Z.of_nat (length (submitted rt tree)) in
      scanning fin = false
      /\ (progress_pct fin == 100 * (n # Z.to_pos (n + 2)))%Q
      /\ (progress_pct fin < 100)%Q).
Proof.
  intros Hperm. split; [|split; [|split; [|split]]].
  - intros pre mid post Heq.
    destruct (counters_prefix pre) as [Hs1 Ht1].
    destruct (counters_prefix (pre ++ mid)) as [Hs2 Ht2].
    rewrite seen_steps_app in Hs2. rewrite total_steps_app in Ht2.
    pose proof (seen_steps_nonneg pre). pose proof (seen_steps_nonneg mid).
    destruct (scan_split_phase order pre (mid ++ post) Heq) as [Hz|Hz].
    + rewrite (pct_zero (run pre (State_init rt))) by lia. apply pct_nonneg. lia.
    + rewrite total_steps_app in Hz.
      pose proof (total_steps_nonneg mid). pose proof (total_steps_nonneg post).
      apply pct_mono; lia.
  - intros pre post Heq. eapply progress_below_100_always; eauto.
  - intros pre post Heq. apply pct_zero.
    destruct (counters_prefix pre) as [-> _].
    pose proof seen_steps_pre_count as H. rewrite Heq, seen_steps_app in H.
    pose proof (seen_steps_nonneg pre). pose proof (seen_steps_nonneg post). lia.
  - intros pre o post Heq Ho.
    assert (seen_steps [o] = 1 /\ total_steps [o] = 0) as [Hs Ht].
    { destruct Ho as [(d & dns & ->)|(p & r & ->)]; split; reflexivity. }
    assert (scan_ops rt tree order = (pre ++ [o]) ++ post) as Heq'.
    { rewrite <- app_assoc. exact Heq. }
    pose proof (seen_below_total order _ _ Hperm Heq') as Hb.
    rewrite seen_steps_app, total_steps_app in Hb.
    destruct (counters_prefix pre) as [Hs1 Ht1].
    destruct (counters_prefix (pre ++ [o])) as [Hs2 Ht2].
    rewrite seen_steps_app in Hs2. rewrite total_steps_app in Ht2.
    pose proof (seen_steps_nonneg pre).
    apply pct_strict; lia.
  - intros fin n.
    assert (scan_ops rt tree order = scan_ops rt tree order ++ []) as Heq
      by (rewrite app_nil_r; reflexivity).
    split; [apply scanning_scan|].
    split; [|exact (progress_below_100_always order _ _ Hperm Heq)].
    unfold fin, scan_live.
    destruct (counters_prefix (scan_ops rt tree order)) as [Hs Ht].
    unfold scan_ops in Hs at 3. unfold scan_ops in Ht at 3.
    rewrite seen_steps_app, seen_steps_pre_count, seen_steps_after_pre in Hs.
    rewrite total_steps_app, total_steps_pre_count, total_steps_after_pre in Ht.
    rewrite (Permutation_length Hperm) in Hs.
    rewrite pct_exact by (fold n in Hs, Ht; lia).
    rewrite Hs, Ht. fold n.
    replace (0 + n) with n by lia. replace (2 + (n + 0)) with (n + 2) by lia.
    reflexivity.
Qed.

(** ** The browser *)

Lemma sort_insert_perm {K} (leb : K -> K -> bool) (key : str -> K) x l :
  Permutation (sort_insert leb key x l) (x :: l).
Proof.
  induction l as [|y l IH]; simpl; [reflexivity|].
  destruct (leb (key x) (key y)); [reflexivity|].
  rewrite IH. apply perm_swap.
Qed.

Lemma sort_by_perm {K} (leb : K -> K -> bool) (key : str -> K) l :
  Permutation (sort_by leb key l) l.
Proof.
  induction l as [|x l IH]; simpl; [reflexivity|].
  rewrite sort_insert_perm. constructor. exact IH.
Qed.

Lemma sorted_children_perm st mode path :
  Permutation (sorted_children st mode path)
    (filter (fun k => k ∈ exists_ st) (children_get st path)).
Proof.
  unfold sorted_children, children_get.
  destruct (mode =? 1); [apply sort_by_perm|].
  destruct (mode =? 2); apply sort_by_perm.
Qed.

Lemma elem_of_sorted_children st mode path x :
  x ∈ sorted_children st mode path <-> x ∈ exists_ st /\ x ∈ children_get st path.
Proof.
  rewrite sorted_children_perm.
  apply (list_elem_of_filter (fun k => k ∈ exists_ st)).
Qed.

Lemma default_false_true (m : gmap str bool) k :
  default false (m !! k) = true -> m !! k = Some true.
Proof. destruct (m !! k) as [[]|]; simpl; congruence. Qed.

(** What a key can do to the current directory. *)
Lemma on_key_cwd st st' ch b b' :
  on_key st st' ch b = Next b' ->
  cwd b' = cwd b
  \/ ((ch = KEY_RIGHT \/ ch = ord_newline)
      /\ cwd b' ∈ sorted_children st (sort_mode b) (cwd b)
      /\ is_dir st' !! cwd b' = Some true)
  \/ (ch = KEY_LEFT
      /\ cwd b' = posixpath.dirname (cwd b)
      /\ posixpath.dirname (cwd b) <> []
      /\ posixpath.dirname (cwd b) ∈ exists_ st).
Proof.
  unfold on_key.
  destruct ((ch =? ord_q) || (ch =? ESC)); [discriminate|].
  destruct ((ch =? KEY_UP) || (ch =? ord_k)); [intros [= <-]; auto|].
  destruct ((ch =? KEY_DOWN) || (ch =? ord_j)); [intros [= <-]; auto|].
  destruct ((ch =? KEY_RIGHT) || (ch =? ord_newline)) eqn:Hr.
  { destruct (bool_decide (sorted_children st (sort_mode b) (cwd b) = []));
      [intros [= <-]; auto|].
    destruct (sorted_children st (sort_mode b) (cwd b) !! _) as [sel|] eqn:Hsel;
      [|discriminate].
    destruct (default false (is_dir st' !! sel)) eqn:Hd; intros [= <-]; [|auto].
    right. left. simpl. split; [|split].
    - apply orb_true_iff in Hr as [Hr|Hr]; apply Z.eqb_eq in Hr; auto.
    - eapply list_elem_of_lookup_2. exact Hsel.
    - apply default_false_true. exact Hd. }
  destruct (ch =? KEY_LEFT) eqn:Hl.
  { destruct (bool_decide (posixpath.dirname (cwd b) <> [])
              && bool_decide (posixpath.dirname (cwd b) ∈ exists_ st)) eqn:Hp;
      intros [= <-]; [|auto].
    right. right. apply andb_prop in Hp as [Hp1 Hp2].
    apply bool_decide_eq_true in Hp1. apply bool_decide_eq_true in Hp2.
    apply Z.eqb_eq in Hl. auto. }
  destruct (ch =? ord_s); intros [= <-]; auto.
Qed.

Lemma cwd_ok_mono st st' b :
  scan_inv rt tree st -> scan_inv rt tree st' ->
  (forall p, p ∈ exists_ st -> p ∈ exists_ st') ->
  cwd_ok st b -> cwd_ok st' b.
Proof.
  intros (Hroot & _ & Hmark & _) (Hroot' & _ & _ & Hdir') Hmono [Hc|[He Hd]].
  - left. congruence.
  - right. split; [auto|]. apply Hdir'; auto.
Qed.

Lemma cwd_ok_dir st b :
  scan_inv rt tree st -> cwd_ok st b -> cwd b ∈ dir_paths rt tree.
Proof.
  intros (Hroot & _ & Hmark & _) [Hc|[He Hd]]; [|auto].
  rewrite Hc, Hroot. apply elem_of_dir_paths. left. reflexivity.
Qed.

Lemma on_key_ok st st' ch b b' :
  scan_inv rt tree st -> scan_inv rt tree st' ->
  (forall p, p ∈ exists_ st -> p ∈ exists_ st') ->
  cwd_ok st b -> on_key st st' ch b = Next b' -> cwd_ok st' b'.
Proof.
  intros Hinv Hinv' Hmono Hok Hkey.
  pose proof (cwd_ok_mono st st' b Hinv Hinv' Hmono Hok) as Hok'.
  apply on_key_cwd in Hkey as [Hc|[(_ & Hsel & Hd)|(_ & Hc & _ & Hpar)]].
  - unfold cwd_ok in *. rewrite Hc. exact Hok'.
  - right. split; [|exact Hd]. apply elem_of_sorted_children in Hsel as [He _]. auto.
  - pose proof (cwd_ok_dir st b Hinv Hok) as Hdirp.
    destruct (recorded_parent st (cwd b) Hinv (or_intror Hdirp) Hpar) as [Hpd _].
    destruct Hinv' as (_ & _ & _ & Hdir').
    right. rewrite Hc. split; [auto|]. apply Hdir'; auto.
Qed.

(** ** Scanner and browser together *)

Lemma sys_inv_init order : sys_inv rt tree order (sys_init rt tree order).
Proof.
  exists []. split; [reflexivity|]. split; [reflexivity|]. left. reflexivity.
Qed.

Lemma sys_inv_step order s e :
  sys_inv rt tree order s -> sys_inv rt tree order (sys_step s e).
Proof.
  intros (pre & Heq & Hsh & Hok).
  pose proof (scan_inv_prefix order pre (todo s) Heq) as Hinv. rewrite <- Hsh in Hinv.
  destruct e as [| |ch k]; simpl.
  - destruct (todo s) as [|o ops] eqn:Htodo.
    + exists pre. rewrite Htodo. auto.
    + assert (scan_ops rt tree order = (pre ++ [o]) ++ ops) as Heq'
        by (rewrite <- app_assoc; exact Heq).
      exists (pre ++ [o]). simpl. split; [exact Heq'|].
      split; [rewrite run_app, <- Hsh; reflexivity|].
      apply (cwd_ok_mono (shared s)); auto.
      * pose proof (scan_inv_prefix order _ _ Heq') as Hinv'.
        rewrite run_app, <- Hsh in Hinv'. exact Hinv'.
      * intros p. apply exists_exec_mono.
  - destruct (running s); [|exists pre; auto].
    exists pre. simpl. auto.
  - destruct (running s); [|exists pre; auto].
    assert (scan_ops rt tree order = (pre ++ take k (todo s)) ++ drop k (todo s)) as Heq'
      by (rewrite <- app_assoc, take_drop; exact Heq).
    pose proof (scan_inv_prefix order _ _ Heq') as Hinv'.
    rewrite run_app, <- Hsh in Hinv'.
    assert (forall p, p ∈ exists_ (shared s) ->
                      p ∈ exists_ (run (take k (todo s)) (shared s))) as Hmono
      by (intros p; apply exists_run_mono).
    destruct (on_key _ _ ch (browser s)) as [b'| |] eqn:Hkey;
      exists (pre ++ take k (todo s)); simpl;
      (split; [exact Heq'|]); (split; [rewrite run_app, <- Hsh; reflexivity|]).
    + exact (on_key_ok _ _ ch _ b' Hinv Hinv' Hmono Hok Hkey).
    + exact (cwd_ok_mono _ _ _ Hinv Hinv' Hmono Hok).
    + exact (cwd_ok_mono _ _ _ Hinv Hinv' Hmono Hok).
Qed.

Lemma sys_inv_run order evs : forall s,
  sys_inv rt tree order s -> sys_inv rt tree order (sys_run evs s).
Proof.
  induction evs as [|e evs IH]; intros s Hs; [exact Hs|].
  apply IH. apply sys_inv_step. exact Hs.
Qed.

(** C10. Whatever the scanner and the browser do, in whatever order: the
    current directory of the browser is the scan root or a recorded path
    marked as a directory, and it is one of the directories of the scanned
    tree.  A key changes it only by descending to a child of the current
    directory that is recorded and marked as a directory, or by ascending
    to its [dirname] when that is recorded. *)
Theorem cwd_stays_in_tree order evs :
  let s := sys_run evs (sys_init rt tree order) in
  (cwd (browser s) = root (shared s)
   \/ (cwd (browser s) ∈ exists_ (shared s)
       /\ is_dir (shared s) !! cwd (browser s) = Some true))
  /\ cwd (browser s) ∈ dir_paths rt tree
  /\ (forall st st' ch b b',
        on_key st st' ch b = Next b' ->
        cwd b' = cwd b
        \/ ((ch = KEY_RIGHT \/ ch = ord_newline)
            /\ cwd b' ∈ children_get st (cwd b)
            /\ cwd b' ∈ exists_ st
            /\ is_dir st' !! cwd b' = Some true)
        \/ (ch = KEY_LEFT
            /\ cwd b' = posixpath.dirname (cwd b)
            /\ cwd b' ∈ exists_ st)).
Proof.
  intros s.
  destruct (sys_inv_run order evs _ (sys_inv_init order)) as (pre & Heq & Hsh & Hok).
  fold s in Heq, Hsh, Hok.
  pose proof (scan_inv_prefix order pre (todo s) Heq) as Hinv. rewrite <- Hsh in Hinv.
  split; [exact Hok|]. split; [eapply cwd_ok_dir; eauto|].
  intros st st' ch b b' Hkey.
  apply on_key_cwd in Hkey as [Hc|[(Hch & Hsel & Hd)|(Hch & Hc & _ & Hpar)]]; [auto| |].
  - right. left. apply elem_of_sorted_children in Hsel as [He Hc]. auto.
  - right. right. rewrite Hc. auto.
Qed.

Lemma browser_eta (b : Browser) :
  {| cwd := cwd b; pos := pos b; sort_mode := sort_mode b; spinner_idx := spinner_idx b |} = b.
Proof. destruct b. reflexivity. Qed.

Lemma on_key_right st st' ch b :
  ch = KEY_RIGHT \/ ch = ord_newline ->
  on_key st st' ch b
  = let kids := sorted_children st (sort_mode b) (cwd b) in
    if bool_decide (kids = []) then Next b
    else
      let pos' := Z.max 0 (Z.min (pos b) (Z.of_nat (length kids) - 1)) in
      match kids !! Z.to_nat pos' with
      | None => IndexError
      | Some sel =>
          if default false (is_dir st' !! sel)
          then Next {| cwd := sel; pos := 0;
                       sort_mode := sort_mode b; spinner_idx := spinner_idx b |}
          else Next {| cwd := cwd b; pos := pos';
                       sort_mode := sort_mode b; spinner_idx := spinner_idx b |}
      end.
Proof. intros [->| ->]; reflexivity. Qed.

Lemma on_key_left st st' b :
  on_key st st' KEY_LEFT b
  = let parent := posixpath.dirname (cwd b) in
    if bool_decide (parent <> []) && bool_decide (parent ∈ exists_ st)
    then Next {| cwd := parent; pos := 0;
                 sort_mode := sort_mode b; spinner_idx := spinner_idx b |}
    else Next b.
Proof. reflexivity. Qed.

(** C4, as the code has it.  At every point of a scan of a well-formed
    tree: descending when the selected child is a file leaves [cwd] as it is
    and leaves [pos] clamped to the rows there are, so that the browser is
    unchanged when [pos] was a row; ascending sets [cwd] to its [dirname]
    and [pos] to 0 when the [dirname] is not empty and recorded, and changes
    nothing otherwise; at the scan root ascending leaves [cwd] as it is, and
    changes nothing at all unless the root is its own [dirname]. *)
Theorem descend_file_ascend_root order pre post :
  scan_ops rt tree order = pre ++ post ->
  let st := run pre (State_init rt) in
  (forall st' b ch sel,
     ch = KEY_RIGHT \/ ch = ord_newline ->
     let kids := sorted_children st (sort_mode b) (cwd b) in
     let pos' := Z.max 0 (Z.min (pos b) (Z.of_nat (length kids) - 1)) in
     kids !! Z.to_nat pos' = Some sel ->
     is_dir_get st' sel = false ->
     on_key st st' ch b
     = Next {| cwd := cwd b; pos := pos';
               sort_mode := sort_mode b; spinner_idx := spinner_idx b |}
     /\ (0 <= pos b < Z.of_nat (length kids) -> on_key st st' ch b = Next b))
  /\ (forall st' b,
        (posixpath.dirname (cwd b) <> [] /\ posixpath.dirname (cwd b) ∈ exists_ st ->
         on_key st st' KEY_LEFT b
         = Next {| cwd := posixpath.dirname (cwd b); pos := 0;
                   sort_mode := sort_mode b; spinner_idx := spinner_idx b |})
        /\ (~ (posixpath.dirname (cwd b) <> [] /\ posixpath.dirname (cwd b) ∈ exists_ st) ->
            on_key st st' KEY_LEFT b = Next b)
        /\ (cwd b = rt ->
            exists b', on_key st st' KEY_LEFT b = Next b'
                       /\ cwd b' = rt
                       /\ (posixpath.dirname rt <> rt -> b' = b))).
Proof.
  intros Heq st. pose proof (scan_inv_prefix order pre post Heq) as Hinv. fold st in Hinv.
  split.
  - intros st' b ch sel Hch kids pos' Hsel Hfile.
    assert (kids <> []) as Hne by (intros H; rewrite H in Hsel; discriminate).
    assert (on_key st st' ch b
            = Next {| cwd := cwd b; pos := pos';
                      sort_mode := sort_mode b; spinner_idx := spinner_idx b |}) as Hkey.
    { rewrite (on_key_right st st' ch b Hch). cbv zeta. fold kids.
      rewrite bool_decide_eq_false_2 by exact Hne. fold pos'. rewrite Hsel.
      unfold is_dir_get in Hfile. rewrite Hfile. reflexivity. }
    split; [exact Hkey|]. intros Hrow. rewrite Hkey.
    replace pos' with (pos b) by (unfold pos'; lia). rewrite browser_eta. reflexivity.
  - intros st' b. rewrite on_key_left. cbv zeta. split; [|split].
    + intros [Hne Hin]. rewrite !bool_decide_eq_true_2 by assumption. reflexivity.
    + intros Hno.
      destruct (bool_decide (posixpath.dirname (cwd b) <> [])) eqn:H1;
        destruct (bool_decide (posixpath.dirname (cwd b) ∈ exists_ st)) eqn:H2;
        try reflexivity.
      exfalso. apply Hno. split; [apply bool_decide_eq_true in H1|apply bool_decide_eq_true in H2];
        assumption.
    + intros Hc.
      destruct (bool_decide (posixpath.dirname (cwd b) <> [])
                && bool_decide (posixpath.dirname (cwd b) ∈ exists_ st)) eqn:Hp.
      * apply andb_prop in Hp as [_ Hp]. apply bool_decide_eq_true in Hp.
        destruct (recorded_parent st (cwd b) Hinv (or_introl Hc) Hp) as [_ Hr].
        specialize (Hr Hc). eexists. split; [reflexivity|]. simpl.
        split; [exact Hr|]. intros Hne. exfalso. apply Hne. rewrite <- Hc at 1. exact Hr.
      * exists b. auto.
Qed.

(** ** Propositions, lists and filters *)

Lemma or_assoc_iff (A B C : Prop) : (A \/ B) \/ C <-> A \/ B \/ C.
Proof. split; [intros [[H|H]|H]|intros [H|[H|H]]]; auto. Qed.

Lemma or_comm_iff (A B : Prop) : A \/ B <-> B \/ A.
Proof. split; intros [H|H]; auto. Qed.

Lemma or_False_iff (A : Prop) : A <-> A \/ False.
Proof. split; [auto|intros [H|[]]; exact H]. Qed.

Lemma False_or_iff (A : Prop) : False \/ A <-> A.
Proof. split; [intros [[]|H]; exact H|auto]. Qed.

Lemma filter_none {A} (P : A -> Prop) `{forall x, Decision (P x)} (l : list A) :
  (forall y, y ∈ l -> ~ P y) -> filter P l = [].
Proof.
  induction l as [|x l IH]; intros Hl; [reflexivity|].
  rewrite filter_cons, decide_False by (apply Hl; left).
  apply IH. intros y Hy. apply Hl. right. exact Hy.
Qed.

Lemma filter_all {A} (P : A -> Prop) `{forall x, Decision (P x)} (l : list A) :
  (forall y, y ∈ l -> P y) -> filter P l = l.
Proof.
  induction l as [|x l IH]; intros Hl; [reflexivity|].
  rewrite filter_cons, decide_True by (apply Hl; left).
  f_equal. apply IH. intros y Hy. apply Hl. right. exact Hy.
Qed.

(** ** What the scanner never undoes *)

Lemma grows_refl st : grows st st.
Proof. unfold grows. repeat split; auto; try lia; try reflexivity. Qed.

Lemma grows_trans st1 st2 st3 : grows st1 st2 -> grows st2 st3 -> grows st1 st3.
Proof.
  intros (A1 & A2 & A3 & A4 & A5 & A6 & A7 & A8 & A9 & A10 & A11)
         (B1 & B2 & B3 & B4 & B5 & B6 & B7 & B8 & B9 & B10 & B11).
  unfold grows. split; [congruence|]. split; [etransitivity; [exact A2|exact B2]|].
  split; [intros d; etransitivity; [apply A3|apply B3]|].
  split; [auto|]. split; [auto|]. repeat (split; [lia|]). auto.
Qed.

Lemma bubble_keys sz chain : forall (m : gmap str Z) p,
  is_Some (bubble sz chain m !! p) <-> is_Some (m !! p) \/ p ∈ chain.
Proof.
  unfold bubble. induction chain as [|a chain IH]; intros m p; simpl.
  - split; [auto|]. intros [H|H]; [exact H|]. apply elem_of_nil in H. contradiction.
  - rewrite IH, lookup_insert_is_Some', elem_of_cons. split.
    + intros [[->|H]|H]; auto.
    + intros [H|[->|H]]; auto.
Qed.

Lemma append_new_prefix d xs : forall (m : gmap str (list str)) k,
  default [] (m !! k) `prefix_of` default [] (fold_left (append_new d) xs m !! k).
Proof.
  induction xs as [|x xs IH]; intros m k; simpl; [reflexivity|].
  etransitivity; [|apply IH]. unfold append_new.
  destruct (bool_decide (x ∈ default [] (m !! d))).
  - rewrite default_setdefault_nil. reflexivity.
  - rewrite default_append_child. apply prefix_app_r. reflexivity.
Qed.

Lemma grows_exec st o : grows st (exec st o).
Proof.
  unfold grows, children_get.
  destruct o as [d|d n|c|d dns|d f|pth r|];
    cbn [exec root exists_ children is_dir size total_files seen_files total_dirs
         seen_dirs errors scanning];
    (split; [reflexivity|]); (split; [first [reflexivity|apply union_subseteq_r]|]).
  - split; [intros k; rewrite default_setdefault_nil; reflexivity|].
    split; [intros p Hp; apply lookup_insert_is_Some'; auto|].
    split; [auto|]. repeat (split; [lia|]). auto.
  - split; [intros k; rewrite default_append_child; apply prefix_app_r; reflexivity|].
    split; [intros p Hp; apply lookup_insert_is_Some'; auto|].
    split; [auto|]. repeat (split; [lia|]). auto.
  - split; [reflexivity|]. split; [auto|].
    split; [auto|]. repeat (split; [lia|]). auto.
  - split.
    { intros k. etransitivity; [|apply append_new_prefix].
      rewrite default_setdefault_nil. reflexivity. }
    split; [intros p Hp; apply lookup_insert_is_Some'; auto|].
    split; [auto|]. repeat (split; [lia|]). auto.
  - split; [intros k; rewrite default_append_child; apply prefix_app_r; reflexivity|].
    split; [intros p Hp; apply lookup_insert_is_Some'; auto|].
    split; [auto|]. repeat (split; [lia|]). auto.
  - split; [reflexivity|]. split; [auto|].
    split.
    { intros p Hp. rewrite bubble_keys, lookup_insert_is_Some'. auto. }
    repeat (split; [lia|]). split; [destruct r; lia|auto].
  - split; [reflexivity|]. split; [auto|].
    split; [auto|]. repeat (split; [lia|]). auto.
Qed.

Lemma grows_run ops : forall st, grows st (run ops st).
Proof.
  induction ops as [|o ops IH]; intros st; [apply grows_refl|].
  rewrite run_cons. eapply grows_trans; [apply grows_exec|apply IH].
Qed.

(** Every path a critical section records, it also marks as a directory
    or as a file. *)
Lemma marked_exec st o :
  (forall p, p ∈ exists_ st <-> is_Some (is_dir st !! p)) ->
  forall p, p ∈ exists_ (exec st o) <-> is_Some (is_dir (exec st o) !! p).
Proof.
  intros Hm p.
  destruct o as [d|d n|c|d dns|d f|pth r|]; cbn [exec exists_ is_dir]; try apply Hm;
    rewrite lookup_insert_is_Some', elem_of_union, elem_of_singleton, Hm;
    split; intros [H|H]; auto.
Qed.

Lemma marked_run ops : forall st,
  (forall p, p ∈ exists_ st <-> is_Some (is_dir st !! p)) ->
  forall p, p ∈ exists_ (run ops st) <-> is_Some (is_dir (run ops st) !! p).
Proof.
  induction ops as [|o ops IH]; intros st Hm; [exact Hm|].
  rewrite run_cons. apply IH. apply marked_exec. exact Hm.
Qed.

(** X1. Whatever critical sections the scanner runs, on whatever state: the
    root stays, every recorded path stays recorded, every list of children
    only grows at its end, every marked or sized path stays marked or sized,
    no counter goes down, and the scanning flag, once cleared, stays cleared.
    If the recorded paths were the marked ones before, they still are. *)
Theorem scanner_only_adds (ops : list op) (st : State) :
  let st' := run ops st in
  root st' = root st
  /\ exists_ st ⊆ exists_ st'
  /\ (forall d, children_get st d `prefix_of` children_get st' d)
  /\ (forall p, is_Some (is_dir st !! p) -> is_Some (is_dir st' !! p))
  /\ (forall p, is_Some (size st !! p) -> is_Some (size st' !! p))
  /\ total_files st <= total_files st' /\ seen_files st <= seen_files st'
  /\ total_dirs st <= total_dirs st' /\ seen_dirs st <= seen_dirs st'
  /\ errors st <= errors st'
  /\ (scanning st = false -> scanning st' = false)
  /\ ((forall p, p ∈ exists_ st <-> is_Some (is_dir st !! p)) ->
      forall p, p ∈ exists_ st' <-> is_Some (is_dir st' !! p)).
Proof.
  intros st'. pose proof (grows_run ops st) as H. unfold grows in H. fold st' in H.
  destruct H as (H1 & H2 & H3 & H4 & H5 & H6 & H7 & H8 & H9 & H10 & H11).
  repeat (split; [assumption|]). apply marked_run.
Qed.

(** ** The state after the pre-count and after the scan *)

Lemma exists_run ops : forall st p,
  p ∈ exists_ (run ops st) <-> p ∈ exists_ st \/ p ∈ registered ops.
Proof.
  induction ops as [|o ops IH]; intros st p.
  - simpl. split; [auto|]. intros [H|H]; [exact H|]. apply elem_of_nil in H. contradiction.
  - rewrite run_cons, IH. unfold registered. rewrite flat_map_cons', elem_of_app.
    fold (registered ops).
    assert (p ∈ exists_ (exec st o)
            <-> p ∈ exists_ st
                \/ p ∈ match o with
                       | PreDir d | LiveDir d _ => [d]
                       | PreChild d n | LiveFile d n => [posixpath.join d n]
                       | _ => []
                       end) as ->; [|apply or_assoc_iff].
    destruct o as [d|d n|c|d dns|d f|pth r|]; cbn [exec exists_];
      rewrite ?elem_of_union, ?elem_of_singleton, ?list_elem_of_singleton, ?elem_of_nil;
      first [apply or_comm_iff|apply or_False_iff].
Qed.

Lemma registered_flat_map {A} (block : A -> list op) (l : list A) :
  registered (flat_map block l) = flat_map (fun w => registered (block w)) l.
Proof.
  unfold registered. induction l as [|w l IH]; [reflexivity|].
  rewrite !flat_map_cons', flat_map_app, IH. reflexivity.
Qed.

Lemma registered_app l1 l2 : registered (l1 ++ l2) = registered l1 ++ registered l2.
Proof. apply flat_map_app. Qed.

Lemma registered_pre_block d dns (c : nat) :
  registered (PreDir d :: map (PreChild d) dns ++ [PreFiles c])
  = d :: map (posixpath.join d) dns.
Proof.
  change (PreDir d :: map (PreChild d) dns ++ [PreFiles c])
    with ([PreDir d] ++ map (PreChild d) dns ++ [PreFiles c]).
  rewrite !registered_app. change (registered [PreDir d]) with [d].
  change (registered [PreFiles c]) with (@nil str). rewrite app_nil_r. simpl. f_equal.
  unfold registered. induction dns as [|n dns IH]; [reflexivity|]. simpl. f_equal. exact IH.
Qed.

Lemma registered_live_block d dns (fns : list (str * option Z)) :
  registered (LiveDir d dns :: map (fun f => LiveFile d f.1) fns)
  = d :: map (fun f => posixpath.join d f.1) fns.
Proof.
  change (LiveDir d dns :: map (fun f => LiveFile d f.1) fns)
    with ([LiveDir d dns] ++ map (fun f : str * option Z => LiveFile d f.1) fns).
  rewrite registered_app. change (registered [LiveDir d dns]) with [d]. simpl. f_equal.
  unfold registered. induction fns as [|f fns IH]; [reflexivity|]. simpl. f_equal. exact IH.
Qed.

Lemma registered_complete (order : list (str * option Z)) :
  registered (map (fun t => Complete t.1 t.2) order ++ [Finish]) = [].
Proof.
  rewrite registered_app. change (registered [Finish]) with (@nil str). rewrite app_nil_r.
  unfold registered. induction order as [|t order IH]; [reflexivity|exact IH].
Qed.

Lemma walk_root : (rt, dirnames tree, filenames tree) ∈ walk rt tree.
Proof. left. Qed.

Lemma registered_pre_count p :
  p ∈ registered (pre_count_ops rt tree) <-> p ∈ dir_paths rt tree.
Proof.
  unfold pre_count_ops. rewrite registered_flat_map, elem_of_flat_map. split.
  - intros ([[d dns] fns] & Hin & Hp). rewrite registered_pre_block in Hp.
    apply elem_of_cons in Hp as [->|Hp]; [eapply walk_dir_path; eauto|].
    apply list_elem_of_fmap in Hp as (n & -> & Hn).
    apply elem_of_dir_paths. right. exists d, dns, fns, n. auto.
  - intros Hp. apply elem_of_dir_paths in Hp as [->|(d & dns & fns & n & Hin & Hn & ->)].
    + exists (rt, dirnames tree, filenames tree). split; [apply walk_root|].
      rewrite registered_pre_block. left.
    + exists (d, dns, fns). split; [exact Hin|]. rewrite registered_pre_block. right.
      apply list_elem_of_fmap. exists n. auto.
Qed.

Lemma registered_live p :
  p ∈ registered (live_ops rt tree)
  <-> (exists dns fns, (p, dns, fns) ∈ walk rt tree) \/ p ∈ file_paths rt tree.
Proof.
  unfold live_ops. rewrite registered_flat_map, elem_of_flat_map. split.
  - intros ([[d dns] fns] & Hin & Hp). rewrite registered_live_block in Hp.
    apply elem_of_cons in Hp as [->|Hp]; [left; eauto|].
    apply list_elem_of_fmap in Hp as (f & -> & Hf).
    right. apply elem_of_file_paths. exists d, dns, fns, f. auto.
  - intros [(dns & fns & Hin)|Hp].
    + exists (p, dns, fns). split; [exact Hin|]. rewrite registered_live_block. left.
    + apply elem_of_file_paths in Hp as (d & dns & fns & f & Hin & Hf & ->).
      exists (d, dns, fns). split; [exact Hin|]. rewrite registered_live_block. right.
      apply list_elem_of_fmap. exists f. auto.
Qed.

Lemma registered_scan order p :
  p ∈ registered (scan_ops rt tree order)
  <-> p ∈ dir_paths rt tree \/ p ∈ file_paths rt tree.
Proof.
  unfold scan_ops. rewrite registered_app, registered_app, registered_complete, app_nil_r.
  rewrite elem_of_app, registered_pre_count, registered_live. split.
  - intros [H|[(dns & fns & H)|H]]; auto. left. eapply walk_dir_path; eauto.
  - intros [H|H]; auto.
Qed.

Lemma exists_init p : p ∈ exists_ (State_init rt) <-> False.
Proof. simpl. apply elem_of_empty. Qed.

(** The single counters. *)

Lemma counters_pre_block d dns (c : nat) st :
  let st' := run (PreDir d :: map (PreChild d) dns ++ [PreFiles c]) st in
  total_dirs st' = total_dirs st + 1
  /\ total_files st' = total_files st + Z.of_nat c
  /\ seen_dirs st' = seen_dirs st /\ seen_files st' = seen_files st
  /\ errors st' = errors st /\ scanning st' = scanning st /\ size st' = size st.
Proof.
  intros st'. subst st'. rewrite run_cons, run_app.
  set (st1 := exec st (PreDir d)).
  assert (total_dirs st1 = total_dirs st + 1 /\ total_files st1 = total_files st
          /\ seen_dirs st1 = seen_dirs st /\ seen_files st1 = seen_files st
          /\ errors st1 = errors st /\ scanning st1 = scanning st /\ size st1 = size st) as H1
    by (subst st1; simpl; auto 10).
  clearbody st1. revert st1 H1.
  induction dns as [|n dns IH]; intros st1 H1.
  - simpl. destruct H1 as (-> & -> & -> & -> & -> & -> & ->). auto 10.
  - simpl map. rewrite run_cons. apply IH. simpl. exact H1.
Qed.

Lemma counters_pre_count st :
  let st' := pre_count rt tree st in
  total_dirs st' = total_dirs st + Z.of_nat (length (walk rt tree))
  /\ total_files st' = total_files st + Z.of_nat (length (submitted rt tree))
  /\ seen_dirs st' = seen_dirs st /\ seen_files st' = seen_files st
  /\ errors st' = errors st /\ scanning st' = scanning st /\ size st' = size st.
Proof.
  unfold pre_count, pre_count_ops, submitted. revert st.
  induction (walk rt tree) as [|[[d dns] fns] W IH]; intros st.
  - simpl. repeat split; lia.
  - rewrite !flat_map_cons', run_app, length_app, length_map.
    destruct (IH (run (PreDir d :: map (PreChild d) dns ++ [PreFiles (length fns)]) st))
      as (-> & -> & -> & -> & -> & -> & ->).
    destruct (counters_pre_block d dns (length fns) st) as (-> & -> & -> & -> & -> & -> & ->).
    simpl length. repeat split; lia.
Qed.

Lemma counters_live_block d dns (fns : list (str * option Z)) st :
  let st' := run (LiveDir d dns :: map (fun f => LiveFile d f.1) fns) st in
  total_dirs st' = total_dirs st /\ total_files st' = total_files st
  /\ seen_dirs st' = seen_dirs st + 1 /\ seen_files st' = seen_files st
  /\ errors st' = errors st /\ scanning st' = scanning st /\ size st' = size st.
Proof.
  intros st'. subst st'. rewrite run_cons.
  set (st1 := exec st (LiveDir d dns)).
  assert (total_dirs st1 = total_dirs st /\ total_files st1 = total_files st
          /\ seen_dirs st1 = seen_dirs st + 1 /\ seen_files st1 = seen_files st
          /\ errors st1 = errors st /\ scanning st1 = scanning st /\ size st1 = size st) as H1
    by (subst st1; simpl; auto 10).
  clearbody st1. revert st1 H1.
  induction fns as [|f fns IH]; intros st1 H1; [exact H1|].
  simpl map. rewrite run_cons. apply IH. simpl. exact H1.
Qed.

Lemma counters_live st :
  let st' := run (live_ops rt tree) st in
  total_dirs st' = total_dirs st /\ total_files st' = total_files st
  /\ seen_dirs st' = seen_dirs st + Z.of_nat (length (walk rt tree))
  /\ seen_files st' = seen_files st
  /\ errors st' = errors st /\ scanning st' = scanning st /\ size st' = size st.
Proof.
  unfold live_ops. revert st.
  induction (walk rt tree) as [|[[d dns] fns] W IH]; intros st.
  - simpl. repeat split; lia.
  - rewrite !flat_map_cons', run_app.
    destruct (IH (run (LiveDir d dns :: map (fun f => LiveFile d f.1) fns) st))
      as (-> & -> & -> & -> & -> & -> & ->).
    destruct (counters_live_block d dns fns st) as (-> & -> & -> & -> & -> & -> & ->).
    simpl length. repeat split; lia.
Qed.

Lemma counters_complete (order : list (str * option Z)) : forall st,
  let st' := run (map (fun t => Complete t.1 t.2) order) st in
  total_dirs st' = total_dirs st /\ total_files st' = total_files st
  /\ seen_dirs st' = seen_dirs st
  /\ seen_files st' = seen_files st + Z.of_nat (length order)
  /\ errors st' = errors st + Z.of_nat (length (unreadable order))
  /\ scanning st' = scanning st
  /\ exists_ st' = exists_ st /\ children st' = children st /\ is_dir st' = is_dir st.
Proof.
  induction order as [|[p r] order IH]; intros st.
  - simpl. repeat split; lia.
  - simpl map. cbv zeta. rewrite run_cons.
    destruct (IH (exec st (Complete p r))) as (-> & -> & -> & -> & -> & -> & -> & -> & ->).
    unfold unreadable.
    destruct r as [sz|];
      cbn [exec total_dirs total_files seen_dirs seen_files errors scanning exists_ children
           is_dir].
    + rewrite filter_cons_False by (simpl; discriminate). simpl length. repeat split; lia.
    + rewrite filter_cons_True by reflexivity. simpl length. repeat split; lia.
Qed.

Lemma scan_ops_nil_split :
  scan_ops rt tree []
  = pre_count_ops rt tree ++ (live_ops rt tree ++ map (fun t => Complete t.1 t.2) [] ++ [Finish]).
Proof. reflexivity. Qed.

Lemma marked_prefix order pre post :
  scan_ops rt tree order = pre ++ post ->
  let st := run pre (State_init rt) in
  (forall p, is_dir st !! p = Some true <-> p ∈ exists_ st /\ p ∈ dir_paths rt tree)
  /\ (forall p, is_dir st !! p = Some false <-> p ∈ exists_ st /\ p ∈ file_paths rt tree).
Proof.
  intros Heq st.
  destruct (scan_inv_prefix order pre post Heq) as (_ & Hreg & Hmark & Hdir). fold st in Hreg, Hmark, Hdir.
  assert (forall p, p ∈ exists_ st <-> is_Some (is_dir st !! p)) as Hm.
  { apply marked_run. intros p. simpl. rewrite lookup_empty. split.
    - intros H. apply elem_of_empty in H. contradiction.
    - intros [x Hx]. discriminate. }
  split; intros p; split.
  - intros Hp. split; [apply Hm; eauto|auto].
  - intros [He Hd]. auto.
  - intros Hp. assert (p ∈ exists_ st) as He by (apply Hm; eauto). split; [exact He|].
    destruct (Hreg p He) as [Hd|Hf]; [|exact Hf].
    rewrite (Hdir p He Hd) in Hp. discriminate.
  - intros [He Hf]. apply Hm in He as [[|] Hb]; [|exact Hb].
    apply Hmark in Hb. exfalso. revert Hb. apply file_not_dir. exact Hf.
Qed.

(** X2. The skeleton [pre_count] builds from the fresh state.  Below a
    root that [os.walk] can list, the yielded directories and the files are
    counted on top of the 1 each total starts with; nothing is seen or sized
    yet; exactly the directory paths of the tree, the root among them, are
    recorded, all marked as directories; and [children[d]] holds the
    subdirectories of [d], in the order of the listing, for the directories
    the walk yields and nothing for any other path.  On a root that
    [os.walk] cannot list, a regular file for one, nothing is yielded and
    the state stays as it was created: no path recorded, not even the root,
    and both totals still 1. *)
Theorem pre_count_skeleton :
  (let st := pre_count_at rt (Listed tree) (State_init rt) in
   total_dirs st = 1 + Z.of_nat (length (walk rt tree))
   /\ total_files st = 1 + Z.of_nat (length (submitted rt tree))
   /\ seen_dirs st = 0 /\ seen_files st = 0 /\ errors st = 0
   /\ scanning st = true /\ size st = ∅
   /\ (forall p, p ∈ exists_ st <-> p ∈ dir_paths rt tree)
   /\ (forall p, is_dir st !! p = Some true <-> p ∈ dir_paths rt tree)
   /\ (forall p, is_dir st !! p <> Some false)
   /\ (forall d dns fns,
         (d, dns, fns) ∈ walk rt tree -> children_get st d = map (posixpath.join d) dns)
   /\ (forall d,
         (forall dns fns, (d, dns, fns) ∉ walk rt tree) -> children_get st d = []))
  /\ (let st := pre_count_at rt Unlisted (State_init rt) in
      exists_ st = ∅ /\ is_dir st = ∅ /\ children st = ∅ /\ size st = ∅
      /\ total_dirs st = 1 /\ total_files st = 1
      /\ seen_dirs st = 0 /\ seen_files st = 0 /\ errors st = 0
      /\ scanning st = true).
Proof.
  split; [|repeat split; reflexivity].
  change (pre_count_at rt (Listed tree) (State_init rt))
    with (pre_count rt tree (State_init rt)).
  intros st.
  destruct (counters_pre_count (State_init rt)) as (H1 & H2 & H3 & H4 & H5 & H6 & H7).
  fold st in H1, H2, H3, H4, H5, H6, H7.
  cbn [State_init total_dirs total_files seen_dirs seen_files errors scanning size]
    in H1, H2, H3, H4, H5, H6, H7.
  assert (forall p, p ∈ exists_ st <-> p ∈ dir_paths rt tree) as Hex.
  { intros p. unfold st, pre_count. rewrite exists_run, registered_pre_count, exists_init.
    apply False_or_iff. }
  destruct (marked_prefix [] _ _ scan_ops_nil_split) as [Htrue Hfalse].
  fold (pre_count rt tree (State_init rt)) in Htrue, Hfalse. fold st in Htrue, Hfalse.
  assert (pre_count_ops rt tree = pre_count_ops rt tree ++ []) as Happ
    by (rewrite app_nil_r; reflexivity).
  split; [lia|]. split; [lia|]. do 6 (split; [assumption|]).
  split; [|split; [|split]].
  - intros p. rewrite Htrue, Hex. split; [intros [H _]; exact H|intros H; split; exact H].
  - intros p Hp. apply Hfalse in Hp as [He Hf]. apply Hex in He. revert He.
    apply file_not_dir. exact Hf.
  - intros d dns fns Hin. unfold st, pre_count.
    rewrite (children_pre_prefix _ [] d Happ). eapply appended_pre_count. exact Hin.
  - intros d Hnot. unfold st, pre_count. rewrite (children_pre_prefix _ [] d Happ).
    pose proof (appended_scan_other d [] Hnot) as Hnil.
    rewrite scan_ops_nil_split, appended_app in Hnil.
    apply app_eq_nil in Hnil as [Hnil _]. exact Hnil.
Qed.

Lemma scan_ops_app_nil order : scan_ops rt tree order = scan_ops rt tree order ++ [].
Proof. rewrite app_nil_r. reflexivity. Qed.

Lemma scan_live_at_listed top es order st :
  scan_live_at top (Listed es) order st = scan_live top es order st.
Proof.
  unfold scan_live, scan_ops, scan_live_at, pre_count_at. rewrite !run_app. reflexivity.
Qed.

(** X3. What a whole scan has recorded.  Below a root that [os.walk] can
    list, in whatever order the futures complete, and even if some never do:
    exactly the directory paths and the file paths of the tree, the first
    marked as directories and the second as files; and [children[d]] lists
    the subdirectories of [d] followed by its files, in the order of the
    listing, for the directories the walk yields and nothing for any other
    path.  On a root that [os.walk] cannot list no future is submitted and
    the scan ends with nothing recorded, not even the root, nothing seen
    and both totals at 1: the browser has no row to show, in any mode. *)
Theorem scan_records_the_tree order :
  (let fin := scan_live_at rt (Listed tree) order (State_init rt) in
   (forall p, p ∈ exists_ fin <-> p ∈ dir_paths rt tree \/ p ∈ file_paths rt tree)
   /\ (forall p, is_dir fin !! p = Some true <-> p ∈ dir_paths rt tree)
   /\ (forall p, is_dir fin !! p = Some false <-> p ∈ file_paths rt tree)
   /\ (forall d dns fns,
         (d, dns, fns) ∈ walk rt tree -> children_get fin d = listing_paths d dns fns)
   /\ (forall d,
         (forall dns fns, (d, dns, fns) ∉ walk rt tree) -> children_get fin d = []))
  /\ (let fin := scan_live_at rt Unlisted (submitted_at rt Unlisted) (State_init rt) in
      submitted_at rt Unlisted = []
      /\ exists_ fin = ∅ /\ is_dir fin = ∅ /\ children fin = ∅ /\ size fin = ∅
      /\ total_dirs fin = 1 /\ total_files fin = 1
      /\ seen_dirs fin = 0 /\ seen_files fin = 0 /\ errors fin = 0
      /\ scanning fin = false
      /\ (forall mode, sorted_children fin mode rt = [])).
Proof.
  split.
  2:{ do 11 (split; [reflexivity|]). intros mode. unfold sorted_children.
      destruct (mode =? 1), (mode =? 2); reflexivity. }
  rewrite scan_live_at_listed.
  intros fin.
  assert (forall p, p ∈ exists_ fin <-> p ∈ dir_paths rt tree \/ p ∈ file_paths rt tree) as Hex.
  { intros p. unfold fin, scan_live. rewrite exists_run, registered_scan, exists_init.
    apply False_or_iff. }
  destruct (marked_prefix order _ _ (scan_ops_app_nil order)) as [Htrue Hfalse].
  fold (scan_live rt tree order (State_init rt)) in Htrue, Hfalse. fold fin in Htrue, Hfalse.
  split; [exact Hex|]. split; [|split; [|split]].
  - intros p. rewrite Htrue, Hex.
    split; [intros [_ H]; exact H|intros H; split; [left|]; exact H].
  - intros p. rewrite Hfalse, Hex.
    split; [intros [_ H]; exact H|intros H; split; [right|]; exact H].
  - intros d dns fns Hin. unfold fin, scan_live.
    rewrite (children_prefix order _ [] d (scan_ops_app_nil order)).
    apply appended_scan. exact Hin.
  - intros d Hnot. unfold fin, scan_live.
    rewrite (children_prefix order _ [] d (scan_ops_app_nil order)).
    apply appended_scan_other. exact Hnot.
Qed.

Lemma counters_scan order :
  let fin := scan_live rt tree order (State_init rt) in
  seen_dirs fin = Z.of_nat (length (walk rt tree))
  /\ total_dirs fin = 1 + Z.of_nat (length (walk rt tree))
  /\ seen_files fin = Z.of_nat (length order)
  /\ total_files fin = 1 + Z.of_nat (length (submitted rt tree))
  /\ errors fin = Z.of_nat (length (unreadable order))
  /\ scanning fin = false.
Proof.
  intros fin. subst fin. unfold scan_live, scan_ops. rewrite !run_app.
  fold (pre_count rt tree (State_init rt)).
  set (st1 := pre_count rt tree (State_init rt)).
  set (st2 := run (live_ops rt tree) st1).
  set (st3 := run (map (fun t => Complete t.1 t.2) order) st2).
  destruct (counters_pre_count (State_init rt)) as (A1 & A2 & A3 & A4 & A5 & A6 & A7).
  fold st1 in A1, A2, A3, A4, A5, A6, A7.
  cbn [State_init total_dirs total_files seen_dirs seen_files errors scanning size]
    in A1, A2, A3, A4, A5, A6, A7.
  destruct (counters_live st1) as (B1 & B2 & B3 & B4 & B5 & B6 & B7).
  fold st2 in B1, B2, B3, B4, B5, B6, B7.
  destruct (counters_complete order st2) as (C1 & C2 & C3 & C4 & C5 & C6 & _).
  fold st3 in C1, C2, C3, C4, C5, C6.
  change (run [Finish] st3) with (exec st3 Finish).
  cbn [exec total_dirs total_files seen_dirs seen_files errors scanning].
  repeat split; lia.
Qed.

(** X4. The counters at the end of a scan in which every future completes:
    as many directories seen as the walk yields and as many files as were
    submitted, each total one more than that; as many errors as there are
    files that could not be read.  With [n] directories and files in all the
    percentage of the header ends at [100 n / (n + 2)]. *)
Theorem scan_final_counters order :
  Permutation order (submitted rt tree) ->
  let fin := scan_live rt tree order (State_init rt) in
  let n := Z.of_nat (length (walk rt tree)) + Z.of_nat (length (submitted rt tree)) in
  seen_dirs fin = Z.of_nat (length (walk rt tree))
  /\ total_dirs fin = seen_dirs fin + 1
  /\ seen_files fin = Z.of_nat (length (submitted rt tree))
  /\ total_files fin = seen_files fin + 1
  /\ errors fin = Z.of_nat (length (unreadable (submitted rt tree)))
  /\ scanning fin = false
  /\ (progress_pct fin == 100 * (n # Z.to_pos (n + 2)))%Q.
Proof.
  intros Hperm fin n.
  destruct (counters_scan order) as (H1 & H2 & H3 & H4 & H5 & H6). fold fin in H1, H2, H3, H4, H5, H6.
  rewrite (Permutation_length Hperm) in H3.
  assert (length (unreadable order) = length (unreadable (submitted rt tree))) as Hu.
  { apply Permutation_length. unfold unreadable. rewrite Hperm. reflexivity. }
  rewrite Hu in H5.
  split; [exact H1|]. split; [lia|]. split; [exact H3|]. split; [lia|].
  split; [exact H5|]. split; [exact H6|].
  unfold progress_pct. rewrite H1, H2, H3, H4.
  replace (1 + Z.of_nat (length (submitted rt tree)) + (1 + Z.of_nat (length (walk rt tree))))
    with (n + 2) by (unfold n; lia).
  replace (Z.of_nat (length (submitted rt tree)) + Z.of_nat (length (walk rt tree)))
    with n by (unfold n; lia).
  rewrite Z.max_r by (unfold n; lia).
  rewrite Q.min_r; [reflexivity|].
  unfold Qle. simpl. rewrite Z2Pos.id by (unfold n; lia). lia.
Qed.

(** ** The order of completion *)

Lemma size_keys_run ops : forall st p,
  is_Some (size (run ops st) !! p)
  <-> is_Some (size st !! p)
      \/ exists t, t ∈ completed ops
                   /\ (p = t.1 \/ p ∈ ancestors (posixpath.dirname t.1) (root st)).
Proof.
  induction ops as [|o ops IH]; intros st p.
  - simpl. split; [auto|]. intros [H|(t & Ht & _)]; [exact H|].
    apply elem_of_nil in Ht. contradiction.
  - rewrite run_cons, IH, root_exec, completed_cons.
    assert (is_Some (size (exec st o) !! p)
            <-> is_Some (size st !! p)
                \/ exists t, t ∈ completed [o]
                             /\ (p = t.1 \/ p ∈ ancestors (posixpath.dirname t.1) (root st)))
      as ->.
    { destruct o as [d|d n|c|d dns|d f|pth r|]; cbn [exec size];
        try (split; [auto|]; intros [H|(t & Ht & _)]; [exact H|];
             apply elem_of_nil in Ht; contradiction).
      rewrite bubble_keys, lookup_insert_is_Some'. split.
      - intros [[Hp|H]|H]; [right|left; exact H|right]; exists (pth, r);
          (split; [left|]); simpl; auto.
      - intros [H|(t & Ht & Hp)]; [auto|].
        apply list_elem_of_singleton in Ht as ->. simpl in Hp.
        destruct Hp as [->|Hp]; auto. }
    split.
    + intros [[H|(t & Ht & Hp)]|(t & Ht & Hp)]; [auto| |];
        right; exists t; (split; [apply elem_of_app; auto|exact Hp]).
    + intros [H|(t & Ht & Hp)]; [auto|].
      apply elem_of_app in Ht as [Ht|Ht]; [left; right|right]; eauto.
Qed.

Lemma State_eq (a b : State) :
  root a = root b -> size a = size b -> exists_ a = exists_ b ->
  children a = children b -> is_dir a = is_dir b ->
  total_files a = total_files b -> seen_files a = seen_files b ->
  total_dirs a = total_dirs b -> seen_dirs a = seen_dirs b ->
  scanning a = scanning b -> errors a = errors b -> a = b.
Proof. destruct a, b. simpl. intros. subst. reflexivity. Qed.

(** X5. The state a whole scan ends in does not depend on the order in which
    the futures complete. *)
Theorem completion_order_irrelevant order order' :
  Permutation order (submitted rt tree) ->
  Permutation order' (submitted rt tree) ->
  scan_live rt tree order (State_init rt) = scan_live rt tree order' (State_init rt).
Proof.
  intros Hperm Hperm'.
  assert (Permutation order order') as Hoo by (rewrite Hperm, Hperm'; reflexivity).
  assert (forall p, size_get (scan_live rt tree order (State_init rt)) p
                    = size_get (scan_live rt tree order' (State_init rt)) p) as Hsz.
  { intros p. unfold scan_live.
    rewrite (size_prefix order _ [] p Hperm (scan_ops_app_nil order)).
    rewrite (size_prefix order' _ [] p Hperm' (scan_ops_app_nil order')).
    rewrite !completed_scan. unfold total. apply sum_with_perm. exact Hoo. }
  assert (forall p, is_Some (size (scan_live rt tree order (State_init rt)) !! p)
                    <-> is_Some (size (scan_live rt tree order' (State_init rt)) !! p)) as Hkeys.
  { intros p. unfold scan_live. rewrite !size_keys_run, !completed_scan.
    split; intros [H|(t & Ht & Hp)]; auto; right; exists t; split; auto.
    - rewrite <- Hoo. exact Ht.
    - rewrite Hoo. exact Ht. }
  pose proof (counters_scan order) as (A1 & A2 & A3 & A4 & A5 & A6).
  pose proof (counters_scan order') as (B1 & B2 & B3 & B4 & B5 & B6).
  assert (length (unreadable order) = length (unreadable order')) as Hu.
  { apply Permutation_length. unfold unreadable. rewrite Hoo. reflexivity. }
  pose proof (Permutation_length Hoo) as Hlen.
  assert (forall o, let st2 := run (live_ops rt tree) (pre_count rt tree (State_init rt)) in
                    let fin := scan_live rt tree o (State_init rt) in
                    exists_ fin = exists_ st2 /\ children fin = children st2
                    /\ is_dir fin = is_dir st2) as Hrest.
  { intros o st2 fin. subst fin. unfold scan_live, scan_ops. rewrite !run_app.
    fold (pre_count rt tree (State_init rt)). fold st2.
    destruct (counters_complete o st2) as (_ & _ & _ & _ & _ & _ & C1 & C2 & C3).
    change (run [Finish] ?s) with (exec s Finish). cbn [exec exists_ children is_dir]. auto. }
  destruct (Hrest order) as (E1 & E2 & E3). destruct (Hrest order') as (F1 & F2 & F3).
  apply State_eq; try congruence.
  - unfold scan_live. rewrite !root_run. reflexivity.
  - apply map_eq. intros p. specialize (Hsz p). specialize (Hkeys p).
    unfold size_get in Hsz.
    destruct (size (scan_live rt tree order (State_init rt)) !! p) as [v|] eqn:Hv;
      destruct (size (scan_live rt tree order' (State_init rt)) !! p) as [v'|] eqn:Hv';
      simpl in Hsz; [congruence| | |reflexivity].
    + destruct (proj1 Hkeys ltac:(eauto)) as [x Hx]. discriminate.
    + destruct (proj2 Hkeys ltac:(eauto)) as [x Hx]. discriminate.
Qed.

(** ** The sizes all along the scan *)

Lemma sum_with_ge {A} (f : A -> Z) l x :
  (forall y, y ∈ l -> 0 <= f y) -> x ∈ l -> f x <= sum_with f l.
Proof.
  induction l as [|y l IH]; intros Hpos Hx; [apply elem_of_nil in Hx; contradiction|].
  rewrite sum_with_cons.
  assert (0 <= sum_with f l) as Hs.
  { clear IH Hx. induction l as [|z l IH]; [simpl; lia|]. rewrite sum_with_cons.
    assert (0 <= f z) by (apply Hpos; right; left).
    assert (0 <= sum_with f l); [|lia]. apply IH. intros w Hw. apply Hpos.
    apply elem_of_cons in Hw as [->|Hw]; [left|right; right; exact Hw]. }
  apply elem_of_cons in Hx as [->|Hx].
  - lia.
  - assert (0 <= f y) by (apply Hpos; left).
    assert (f x <= sum_with f l); [|lia]. apply IH; [|exact Hx].
    intros w Hw. apply Hpos. right. exact Hw.
Qed.

Lemma children_all_along order pre post d :
  scan_ops rt tree order = pre ++ post ->
  completed pre <> [] ->
  children_get (run pre (State_init rt)) d = appended d (scan_ops rt tree order).
Proof.
  intros Heq Hdone. rewrite (children_prefix order pre post d Heq).
  pose proof Heq as Heq'. unfold scan_ops in Heq'. rewrite app_assoc in Heq'.
  symmetry in Heq'. apply app_eq_inv in Heq' as [(l & Hpre & Hpost)|(l & Hpre & Hpost)].
  - rewrite Heq, appended_app.
    pose proof (appended_complete d order) as Hnil.
    rewrite Hpost, appended_app in Hnil. apply app_eq_nil in Hnil as [_ Hnil].
    rewrite Hnil, app_nil_r. reflexivity.
  - exfalso. apply Hdone.
    pose proof (f_equal completed Hpre) as Hc.
    rewrite !completed_app, completed_pre_count, completed_live in Hc. simpl in Hc.
    symmetry in Hc. apply app_eq_nil in Hc as [Hc _]. exact Hc.
Qed.

(** X6. The sums hold at every point of the scan, not only at its end: for
    every directory [d] the walk yields, [size[d]] is the sum of [size[c]]
    over the children in [children[d]], whatever futures have completed so
    far.  If no file has a negative size then, at every point, no size is
    negative, no child is larger than its directory, and the next critical
    section makes no size smaller. *)
Theorem sizes_add_up_all_along order pre post :
  Permutation order (submitted rt tree) ->
  scan_ops rt tree order = pre ++ post ->
  let st := run pre (State_init rt) in
  (forall d dns fns,
     (d, dns, fns) ∈ walk rt tree ->
     size_get st d = sum_with (size_get st) (children_get st d))
  /\ ((forall t, t ∈ submitted rt tree -> 0 <= default 0 t.2) ->
      (forall p, 0 <= size_get st p)
      /\ (forall d dns fns c,
            (d, dns, fns) ∈ walk rt tree ->
            c ∈ children_get st d -> size_get st c <= size_get st d)
      /\ (forall o post' p, post = o :: post' -> size_get st p <= size_get (exec st o) p)).
Proof.
  intros Hperm Heq st.
  assert (forall x, size_get st x = total rt (completed pre) x) as Hsize
    by (intros x; apply (size_prefix order pre post x Hperm Heq)).
  assert (forall t, t ∈ completed pre -> t ∈ submitted rt tree) as Hsub.
  { intros t Ht. rewrite <- Hperm, <- (completed_scan order), Heq, completed_app.
    apply elem_of_app. auto. }
  assert (forall d dns fns,
            (d, dns, fns) ∈ walk rt tree ->
            size_get st d = sum_with (size_get st) (children_get st d)) as Hsum.
  { intros d dns fns Hin.
    destruct (completed pre) as [|t0 done] eqn:Hdone.
    { rewrite Hsize. rewrite (sum_with_zero (size_get st)); [reflexivity|].
      intros c _. rewrite Hsize. reflexivity. }
    assert (children_get st d = listing_paths d dns fns) as ->.
    { unfold st. rewrite (children_all_along order pre post d Heq) by (rewrite Hdone; discriminate).
      apply appended_scan. exact Hin. }
    rewrite (sum_with_ext _ (total rt (t0 :: done))) by (intros; apply Hsize).
    rewrite Hsize. unfold total.
    rewrite (sum_with_ext (fun t => default 0 t.2 * weight rt d t)
               (fun t => sum_with (fun c => default 0 t.2 * weight rt c t)
                           (listing_paths d dns fns))).
    2:{ intros t Ht. rewrite sum_with_mul. f_equal. apply weight_children; auto. }
    apply sum_with_swap. }
  split; [exact Hsum|]. intros Hpos.
  assert (forall l p, (forall t, t ∈ l -> t ∈ submitted rt tree) -> 0 <= total rt l p) as Htot.
  { intros l p Hl. unfold total. induction l as [|t l IH]; [simpl; lia|].
    rewrite sum_with_cons.
    assert (0 <= default 0 t.2) by (apply Hpos, Hl; left).
    assert (0 <= weight rt p t).
    { unfold weight, occ.
      assert (0 <= sum_with (fun x : str => if bool_decide (x = p) then 1 else 0)
                     (ancestors (posixpath.dirname t.1) rt)).
      { apply sum_with_nonneg. intros x. destruct (bool_decide (x = p)); lia. }
      destruct (bool_decide (p = t.1)); lia. }
    assert (0 <= sum_with (fun t => default 0 t.2 * weight rt p t) l); [|nia].
    apply IH. intros t' Ht'. apply Hl. right. exact Ht'. }
  assert (forall p, 0 <= size_get st p) as Hnn.
  { intros p. rewrite Hsize. apply Htot. exact Hsub. }
  split; [exact Hnn|]. split.
  - intros d dns fns c Hin Hc. rewrite (Hsum d dns fns Hin).
    apply sum_with_ge; [|exact Hc]. intros y _. apply Hnn.
  - intros o post' p ->.
    assert (scan_ops rt tree order = (pre ++ [o]) ++ post') as Heq'
      by (rewrite <- app_assoc; exact Heq).
    pose proof (size_prefix order _ _ p Hperm Heq') as Hnext.
    rewrite run_app in Hnext. change (run [o] ?s) with (exec s o) in Hnext. fold st in Hnext.
    rewrite Hnext, Hsize, completed_app, total_app.
    assert (0 <= total rt (completed [o]) p); [|lia].
    apply Htot. intros t Ht. rewrite <- Hperm, <- (completed_scan order), Heq', completed_app.
    apply elem_of_app. left. rewrite completed_app. apply elem_of_app. right. exact Ht.
Qed.

(** ** The names on the rows *)

Lemma takewhile_app_stop {A} (f : A -> bool) (l1 : list A) (x : A) (l2 : list A) :
  forallb f l1 = true -> f x = false -> takewhile f (l1 ++ x :: l2) = l1.
Proof.
  intros Hl Hx. induction l1 as [|y l1 IH]; simpl.
  - rewrite Hx. reflexivity.
  - simpl in Hl. apply andb_prop in Hl as [Hy Hl]. rewrite Hy. f_equal. auto.
Qed.

Lemma basename_join d n :
  good_dir d = true -> valid_name n = true ->
  posixpath.basename (posixpath.join d n) = n.
Proof.
  intros Hd Hn.
  pose proof (good_dir_nonempty d Hd) as Hne.
  pose proof (valid_name_nosep n Hn) as Hns. rewrite <- forallb_rev in Hns.
  destruct (rev_nonempty d Hne) as (c & r & Hr).
  unfold posixpath.basename.
  destruct (join_cases d n Hd Hn) as [[Ha ->]|(Ha & He & ->)].
  - rewrite rev_app_distr, Hr.
    pose proof (all_sep_endswith d Hne Ha) as He. unfold endswith_sep in He.
    rewrite Hr in He. simpl in He.
    rewrite takewhile_app_stop; [apply rev_involutive|exact Hns|].
    rewrite He. reflexivity.
  - assert (rev (d ++ sep :: n) = rev n ++ sep :: rev d) as ->.
    { rewrite rev_app_distr. simpl. rewrite <- app_assoc. reflexivity. }
    rewrite takewhile_app_stop; [apply rev_involutive|exact Hns|].
    unfold is_sep. rewrite bool_decide_eq_true_2 by reflexivity. reflexivity.
Qed.

Lemma row_name_join d n :
  good_dir d = true -> valid_name n = true -> row_name (posixpath.join d n) = n.
Proof.
  intros Hd Hn. unfold row_name. rewrite basename_join by assumption.
  rewrite bool_decide_eq_false_2; [reflexivity|]. apply valid_name_nonempty. exact Hn.
Qed.

(** X7. After a scan, whatever the order of completion, the browser shows
    the listing of every directory [d] the walk yields: [children[d]] holds
    one path for each name of the listing, the directories first, all of
    them recorded; the name shown for a path, and the name it is sorted by,
    is the name of the listing, and its [dirname] is [d]; and in every sort
    mode the rows are these paths, each once. *)
Theorem rows_show_the_listing order d dns fns :
  (d, dns, fns) ∈ walk rt tree ->
  let fin := scan_live rt tree order (State_init rt) in
  map row_name (children_get fin d) = dns ++ fns.*1
  /\ map posixpath.basename (children_get fin d) = dns ++ fns.*1
  /\ Forall (fun c => posixpath.dirname c = d /\ c ∈ exists_ fin) (children_get fin d)
  /\ (forall mode, Permutation (sorted_children fin mode d) (children_get fin d))
  /\ (forall mode,
        length (sorted_children fin mode d) = (length dns + length fns)%nat).
Proof.
  intros Hin fin.
  pose proof (walk_good d dns fns Hin) as Hg.
  assert (children_get fin d = listing_paths d dns fns) as Hkids.
  { unfold fin, scan_live. rewrite (children_prefix order _ [] d (scan_ops_app_nil order)).
    apply appended_scan. exact Hin. }
  assert (forall p, p ∈ exists_ fin <-> p ∈ dir_paths rt tree \/ p ∈ file_paths rt tree) as Hex.
  { intros p. unfold fin, scan_live. rewrite exists_run, registered_scan, exists_init.
    apply False_or_iff. }
  assert (forall (g : str -> str),
            (forall n, valid_name n = true -> g (posixpath.join d n) = n) ->
            map g (listing_paths d dns fns) = dns ++ fns.*1) as Hnames.
  { intros g Hgn. unfold listing_paths. rewrite map_app, !map_map. f_equal.
    - rewrite <- (map_id dns) at 2. apply map_ext_in. intros n Hn. apply Hgn.
      apply list_elem_of_In in Hn. exact (walk_child_valid d dns fns n Hin Hn).
    - apply map_ext_in. intros f Hf. apply Hgn.
      apply list_elem_of_In in Hf. exact (walk_file_valid d dns fns f Hin Hf). }
  assert (Forall (fun c => posixpath.dirname c = d /\ c ∈ exists_ fin)
            (listing_paths d dns fns)) as Hall.
  { apply Forall_forall. intros c Hc. unfold listing_paths in Hc.
    apply elem_of_app in Hc as [Hc|Hc].
    - apply list_elem_of_fmap in Hc as (n & -> & Hn). split.
      + apply dirname_join; [exact Hg|]. exact (walk_child_valid d dns fns n Hin Hn).
      + apply Hex. left. apply elem_of_dir_paths. right. exists d, dns, fns, n. auto.
    - apply list_elem_of_fmap in Hc as (f & -> & Hf). split.
      + apply dirname_join; [exact Hg|]. exact (walk_file_valid d dns fns f Hin Hf).
      + apply Hex. right. apply elem_of_file_paths. exists d, dns, fns, f. auto. }
  assert (forall mode, Permutation (sorted_children fin mode d) (children_get fin d)) as Hperm.
  { intros mode. rewrite sorted_children_perm, Hkids. rewrite filter_all; [reflexivity|].
    intros c Hc. rewrite Forall_forall in Hall. apply Hall. exact Hc. }
  rewrite Hkids. split; [|split; [|split; [|split]]].
  - apply Hnames. intros n Hn. apply row_name_join; assumption.
  - apply Hnames. intros n Hn. apply basename_join; assumption.
  - exact Hall.
  - intros mode. rewrite <- Hkids. apply Hperm.
  - intros mode. rewrite (Permutation_length (Hperm mode)), Hkids.
    unfold listing_paths. rewrite length_app, !length_map. reflexivity.
Qed.

(** ** Which paths get a size *)

Lemma size_final order x :
  Permutation order (submitted rt tree) ->
  size_get (scan_live rt tree order (State_init rt)) x = total rt (submitted rt tree) x.
Proof.
  intros Hperm. unfold scan_live.
  rewrite (size_prefix order _ [] x Hperm (scan_ops_app_nil order)), completed_scan.
  unfold total. apply sum_with_perm. exact Hperm.
Qed.

Lemma size_keys_final order p :
  Permutation order (submitted rt tree) ->
  is_Some (size (scan_live rt tree order (State_init rt)) !! p)
  <-> exists t, t ∈ submitted rt tree
                /\ (p = t.1 \/ p ∈ ancestors (posixpath.dirname t.1) rt).
Proof.
  intros Hperm. unfold scan_live. rewrite size_keys_run, completed_scan, root_init.
  cbn [State_init size]. rewrite lookup_empty. split.
  - intros [[x Hx]|(t & Ht & Hp)]; [discriminate|]. exists t. rewrite <- Hperm. auto.
  - intros (t & Ht & Hp). right. exists t. rewrite Hperm. auto.
Qed.

(** X8. After a scan every file has a size of its own: what [getsize]
    answered for it, and 0 if it could not be read. *)
Theorem files_keep_their_own_size order p r :
  Permutation order (submitted rt tree) ->
  (p, r) ∈ submitted rt tree ->
  size (scan_live rt tree order (State_init rt)) !! p = Some (default 0 r).
Proof.
  intros Hperm Ht.
  assert (size_get (scan_live rt tree order (State_init rt)) p = default 0 r) as Hval.
  { rewrite size_final by exact Hperm. unfold total.
    pose proof file_paths_nodup as Hnd. unfold file_paths in Hnd.
    rewrite (sum_with_single _ _ (p, r) (NoDup_fmap_1 fst _ Hnd) Ht).
    - unfold weight. cbn [fst snd]. rewrite bool_decide_eq_true_2 by reflexivity.
      rewrite occ_not_in; [lia|]. exact (submitted_not_ancestor (p, r) (p, r) Ht Ht).
    - intros [p' r'] Hy Hne. unfold weight. cbn [fst snd].
      rewrite bool_decide_eq_false_2.
      + rewrite occ_not_in; [lia|]. exact (submitted_not_ancestor (p, r) (p', r') Ht Hy).
      + intros ->. apply Hne. f_equal. exact (NoDup_fst_functional _ _ _ _ Hnd Hy Ht). }
  destruct (proj2 (size_keys_final order p Hperm)) as [v Hv].
  { exists (p, r). auto. }
  unfold size_get in Hval. rewrite Hv in Hval. simpl in Hval. rewrite Hv, Hval. reflexivity.
Qed.

(** X9. A directory gets a size only when a file lies somewhere beneath it.
    For a subdirectory [c] of [d] without one (an empty directory, a
    directory of empty directories, a link to a directory) [size] has no
    entry after the scan: the row of [c] shows 0 bytes, but the sort of modes
    0 and 2 takes the size of [d] itself for it.  For a subdirectory with a
    size, the sort takes that size. *)
Theorem unsized_directory_sorts_as_parent order d dns fns n :
  Permutation order (submitted rt tree) ->
  (d, dns, fns) ∈ walk rt tree -> n ∈ dns ->
  let fin := scan_live rt tree order (State_init rt) in
  let c := posixpath.join d n in
  (size fin !! c = None
   <-> forall t, t ∈ submitted rt tree -> c ∉ ancestors (posixpath.dirname t.1) rt)
  /\ (size fin !! c = None -> size_get fin c = 0 /\ snapshot_size fin d c = size_get fin d)
  /\ (size fin !! c <> None -> snapshot_size fin d c = size_get fin c).
Proof.
  intros Hperm Hin Hn fin c.
  assert (c ∈ dir_paths rt tree) as Hc.
  { apply elem_of_dir_paths. right. exists d, dns, fns, n. auto. }
  assert (is_dir fin !! c = Some true) as Hdir.
  { destruct (marked_prefix order _ _ (scan_ops_app_nil order)) as [Htrue _].
    apply Htrue. split; [|exact Hc].
    rewrite exists_run, registered_scan. auto. }
  split; [|split].
  - rewrite eq_None_not_Some. unfold fin. rewrite (size_keys_final order c Hperm). split.
    + intros Hno t Ht Hanc. apply Hno. exists t. auto.
    + intros Hno (t & Ht & [Heq|Hanc]); [|exact (Hno t Ht Hanc)].
      apply (file_not_dir t.1); [apply list_elem_of_fmap; exists t; auto|].
      rewrite <- Heq. exact Hc.
  - intros Hnone. unfold size_get, snapshot_size. rewrite Hnone, Hdir. auto.
  - intros Hsome. unfold size_get, snapshot_size.
    destruct (size fin !! c) as [v|]; [reflexivity|contradiction].
Qed.

(** ** Down into a directory and up again *)

Lemma app_split_at {A} (l1 l2 pre : list A) (o : A) (post : list A) :
  l1 ++ l2 = pre ++ o :: post ->
  (exists k, l1 = pre ++ o :: k)
  \/ (exists k, pre = l1 ++ k /\ l2 = k ++ o :: post).
Proof.
  revert pre. induction l1 as [|a l1 IH]; intros pre Heq.
  - right. exists pre. auto.
  - destruct pre as [|b pre].
    + left. injection Heq as -> _. exists l1. reflexivity.
    + injection Heq as -> Heq. destruct (IH pre Heq) as [(k & ->)|(k & -> & ->)].
      * left. exists k. reflexivity.
      * right. exists k. auto.
Qed.

Lemma flat_map_split_at {A B} (f : A -> list B) (l : list A) :
  forall pre x post,
    flat_map f l = pre ++ x :: post ->
    exists l1 a b1 b2,
      a ∈ l /\ f a = b1 ++ x :: b2 /\ pre = flat_map f l1 ++ b1.
Proof.
  induction l as [|a l IH]; intros pre x post Heq.
  - destruct pre; discriminate.
  - rewrite flat_map_cons' in Heq.
    apply app_split_at in Heq as [(k & Hfa)|(k & -> & Hrest)].
    + exists [], a, pre, k. split; [left|]. auto.
    + destruct (IH k x post Hrest) as (l1 & a' & b1 & b2 & Hin & Hfa & ->).
      exists (a :: l1), a', b1, b2. split; [right; exact Hin|]. split; [exact Hfa|].
      rewrite flat_map_cons', app_assoc. reflexivity.
Qed.

(** A directory is recorded before anything is put into its list of
    children. *)
Lemma child_after_dir order pre o post d x :
  scan_ops rt tree order = pre ++ o :: post ->
  o = PreChild d x \/ o = LiveFile d x ->
  d ∈ registered pre.
Proof.
  intros Heq Ho. unfold scan_ops in Heq.
  apply app_split_at in Heq as [(k & Hpre)|(k1 & -> & Heq)].
  { unfold pre_count_ops in Hpre.
    apply flat_map_split_at in Hpre as (l1 & [[d' dns] fns] & b1 & b2 & _ & Hblock & ->).
    rewrite registered_app, elem_of_app. right.
    destruct b1 as [|o1 b1].
    - injection Hblock as <- _. destruct Ho; discriminate.
    - injection Hblock as <- Hrest.
      assert (o ∈ map (PreChild d') dns ++ [PreFiles (length fns)]) as Hin
        by (rewrite Hrest; apply elem_of_app; right; left).
      apply elem_of_app in Hin as [Hin|Hin].
      + apply list_elem_of_fmap in Hin as (n & -> & _).
        destruct Ho as [[= -> _]|Ho]; [left|discriminate].
      + apply list_elem_of_singleton in Hin as ->. destruct Ho; discriminate. }
  apply app_split_at in Heq as [(k & Hlive)|(k2 & -> & Heq)].
  { rewrite registered_app, elem_of_app. right. unfold live_ops in Hlive.
    apply flat_map_split_at in Hlive as (l1 & [[d' dns] fns] & b1 & b2 & _ & Hblock & ->).
    rewrite registered_app, elem_of_app. right.
    destruct b1 as [|o1 b1].
    - injection Hblock as <- _. destruct Ho; discriminate.
    - injection Hblock as <- Hrest.
      assert (o ∈ map (fun f : str * option Z => LiveFile d' f.1) fns) as Hin
        by (rewrite Hrest; apply elem_of_app; right; left).
      apply list_elem_of_fmap in Hin as (f & -> & _).
      destruct Ho as [Ho|[= -> _]]; [discriminate|left]. }
  exfalso.
  assert (o ∈ map (fun t : str * option Z => Complete t.1 t.2) order ++ [Finish]) as Hin
    by (rewrite Heq; apply elem_of_app; right; left).
  apply elem_of_app in Hin as [Hin|Hin].
  - apply list_elem_of_fmap in Hin as (t & -> & _). destruct Ho; discriminate.
  - apply list_elem_of_singleton in Hin as ->. destruct Ho; discriminate.
Qed.

Lemma elem_of_appended d ops c :
  c ∈ appended d ops ->
  exists l1 o l2 x,
    ops = l1 ++ o :: l2 /\ (o = PreChild d x \/ o = LiveFile d x) /\ c = posixpath.join d x.
Proof.
  induction ops as [|o ops IH]; intros Hc; [apply elem_of_nil in Hc; contradiction|].
  rewrite appended_cons in Hc. apply elem_of_app in Hc as [Hc|Hc].
  - exists [], o, ops.
    destruct o as [d'|d' n|k|d' dns|d' f|pth r|]; simpl in Hc;
      try (apply elem_of_nil in Hc; contradiction);
      (destruct (bool_decide (d' = d)) eqn:Hd; [|apply elem_of_nil in Hc; contradiction]);
      apply bool_decide_eq_true in Hd; subst d'; apply list_elem_of_singleton in Hc as ->;
      eexists; (split; [reflexivity|]); auto.
  - destruct (IH Hc) as (l1 & o' & l2 & x & -> & Ho & ->).
    exists (o :: l1), o', l2, x. auto.
Qed.

(** X10. At every point of a scan, and from whatever directory: when the right
    key or the enter key has moved the browser into a child, that child is a
    recorded subdirectory whose [dirname] is the directory the browser came
    from, and a left key at any later point of the scan brings the browser
    back there.  The selection is then on the first row, not on the row of
    the directory just left. *)
Theorem descend_then_ascend order pre mid later post (b b1 : Browser) (ch : Z)
    (st4 : State) :
  scan_ops rt tree order = pre ++ mid ++ later ++ post ->
  let st := run pre (State_init rt) in
  let st2 := run (pre ++ mid) (State_init rt) in
  let st3 := run (pre ++ mid ++ later) (State_init rt) in
  ch = KEY_RIGHT \/ ch = ord_newline ->
  on_key st st2 ch b = Next b1 ->
  cwd b1 <> cwd b ->
  cwd b1 ∈ dir_paths rt tree
  /\ posixpath.dirname (cwd b1) = cwd b
  /\ pos b1 = 0
  /\ on_key st3 st4 KEY_LEFT b1
     = Next {| cwd := cwd b; pos := 0;
               sort_mode := sort_mode b; spinner_idx := spinner_idx b |}.
Proof.
  intros Heq st st2 st3 Hch Hkey Hne.
  rewrite (on_key_right st st2 ch b Hch) in Hkey. cbv zeta in Hkey.
  destruct (bool_decide (sorted_children st (sort_mode b) (cwd b) = []));
    [injection Hkey as <-; contradiction|].
  destruct (sorted_children st (sort_mode b) (cwd b) !! _) as [sel|] eqn:Hsel; [|discriminate].
  destruct (default false (is_dir st2 !! sel)) eqn:Hd;
    injection Hkey as <-; [|contradiction]. cbn [cwd pos sort_mode spinner_idx] in *.
  apply list_elem_of_lookup_2 in Hsel. apply elem_of_sorted_children in Hsel as [Hex Hc].
  unfold st in Hc. rewrite (children_prefix order pre (mid ++ later ++ post) (cwd b) Heq) in Hc.
  apply elem_of_appended in Hc as (l1 & o & l2 & x & Hpre & Ho & ->).
  assert (scan_ops rt tree order = l1 ++ o :: (l2 ++ mid ++ later ++ post)) as Heq'.
  { rewrite Heq, Hpre, <- app_assoc. reflexivity. }
  pose proof (child_after_dir order l1 o _ (cwd b) x Heq' Ho) as Hreg.
  assert (o ∈ scan_ops rt tree order) as Hin by (rewrite Heq'; apply elem_of_app; right; left).
  assert (exists dns fns, (cwd b, dns, fns) ∈ walk rt tree /\ valid_name x = true) as Hw.
  { unfold scan_ops in Hin. apply elem_of_app in Hin as [Hin|Hin].
    - apply elem_of_pre_count_ops in Hin as (d & dns & fns & Hw & [->|[(n & Hn & ->)| ->]]);
        destruct Ho as [Ho|Ho]; try discriminate.
      injection Ho as <- <-. exists dns, fns. split; [exact Hw|].
      exact (walk_child_valid d dns fns n Hw Hn).
    - apply elem_of_after_pre in Hin as [Hin|[(t & _ & ->)| ->]];
        [|destruct Ho; discriminate|destruct Ho; discriminate].
      apply elem_of_live_ops in Hin as (d & dns & fns & Hw & [->|(f & Hf & ->)]);
        destruct Ho as [Ho|Ho]; try discriminate.
      injection Ho as <- <-. exists dns, fns. split; [exact Hw|].
      exact (walk_file_valid d dns fns f Hw Hf). }
  destruct Hw as (dns & fns & Hw & Hx).
  pose proof (walk_good _ dns fns Hw) as Hg.
  assert (posixpath.dirname (posixpath.join (cwd b) x) = cwd b) as Hdn
    by (apply dirname_join; assumption).
  assert (cwd b ∈ exists_ st3) as Hrec.
  { unfold st3. rewrite run_app. apply exists_run_mono.
    apply exists_run. right. rewrite Hpre, registered_app. apply elem_of_app. left. exact Hreg. }
  split; [|split; [exact Hdn|split; [reflexivity|]]].
  - destruct (scan_inv_prefix order (pre ++ mid) (later ++ post)) as (_ & _ & Hmark & _).
    { rewrite <- app_assoc. exact Heq. }
    apply Hmark. apply default_false_true. exact Hd.
  - rewrite on_key_left. cbv zeta. cbn [cwd sort_mode spinner_idx]. rewrite Hdn.
    rewrite bool_decide_eq_true_2 by (apply good_dir_nonempty; exact Hg).
    rewrite bool_decide_eq_true_2 by exact Hrec. reflexivity.
Qed.

End Walk.

Lemma on_key_up st st' ch b :
  ch = KEY_UP \/ ch = ord_k ->
  on_key st st' ch b
  = Next {| cwd := cwd b; pos := Z.max 0 (pos b - 1);
            sort_mode := sort_mode b; spinner_idx := spinner_idx b |}.
Proof. intros [->| ->]; reflexivity. Qed.

Lemma on_key_down st st' ch b :
  ch = KEY_DOWN \/ ch = ord_j ->
  on_key st st' ch b
  = Next {| cwd := cwd b; pos := pos b + 1;
            sort_mode := sort_mode b; spinner_idx := spinner_idx b |}.
Proof. intros [->| ->]; reflexivity. Qed.

Lemma draw_pos st b :
  let n := Z.of_nat (length (sorted_children st (sort_mode b) (cwd b))) in
  (0 < n -> pos (draw st b) = Z.max 0 (Z.min (pos b) (n - 1)))
  /\ (n = 0 -> pos (draw st b) = pos b).
Proof.
  unfold draw. cbn [pos].
  destruct (sorted_children st (sort_mode b) (cwd b)) as [|x l].
  - split; [simpl; lia|reflexivity].
  - rewrite bool_decide_eq_true_2 by discriminate.
    split; [reflexivity|]. simpl length. lia.
Qed.

(** C5, as the code has it.  An up or a down key moves [pos] by one,
    an up key not below 0; nothing else of the browser changes.  When the
    browser next draws a list of [n] children, [pos] is then the old [pos]
    minus or plus one clamped to the rows 0 to [n - 1], never wrapped
    around; when the list is empty the drawing does not clamp it. *)
Theorem up_down_clamped_at_redraw (st st' st2 : State) (b : Browser) (ch : Z) :
  let up := (ch =? KEY_UP) || (ch =? ord_k) in
  let moved := if up then pos b - 1 else pos b + 1 in
  let n := Z.of_nat (length (sorted_children st2 (sort_mode b) (cwd b))) in
  ch = KEY_UP \/ ch = ord_k \/ ch = KEY_DOWN \/ ch = ord_j ->
  exists b',
    on_key st st' ch b = Next b'
    /\ cwd b' = cwd b /\ sort_mode b' = sort_mode b /\ spinner_idx b' = spinner_idx b
    /\ pos b' = (if up then Z.max 0 moved else moved)
    /\ (0 < n -> pos (draw st2 b') = Z.max 0 (Z.min moved (n - 1))
                 /\ 0 <= pos (draw st2 b') <= n - 1)
    /\ (n = 0 -> pos (draw st2 b') = pos b').
Proof.
  intros up moved n Hch.
  assert ((up = true /\ (ch = KEY_UP \/ ch = ord_k))
          \/ (up = false /\ (ch = KEY_DOWN \/ ch = ord_j))) as Hcase.
  { destruct Hch as [->|[->|[->| ->]]]; [left|left|right|right]; split; auto. }
  destruct Hcase as [[Hup Hk]|[Hup Hk]]; subst moved; rewrite Hup.
  - eexists. split; [apply (on_key_up st st' ch b Hk)|]. cbn [cwd sort_mode spinner_idx pos].
    repeat (split; [reflexivity|]).
    match goal with |- context [draw st2 ?b'] => destruct (draw_pos st2 b') as [Hd1 Hd2] end.
    cbn [cwd sort_mode pos] in Hd1, Hd2. fold n in Hd1, Hd2.
    split; [intros Hn; rewrite (Hd1 Hn); lia|exact Hd2].
  - eexists. split; [apply (on_key_down st st' ch b Hk)|]. cbn [cwd sort_mode spinner_idx pos].
    repeat (split; [reflexivity|]).
    match goal with |- context [draw st2 ?b'] => destruct (draw_pos st2 b') as [Hd1 Hd2] end.
    cbn [cwd sort_mode pos] in Hd1, Hd2. fold n in Hd1, Hd2.
    split; [intros Hn; rewrite (Hd1 Hn); lia|exact Hd2].
Qed.

(** ** Sorting *)

Lemma str_leb_total a : forall b, str_leb a b = true \/ str_leb b a = true.
Proof.
  induction a as [|x a IH]; intros [|y b]; simpl; auto.
  destruct (nat_of_ascii x <? nat_of_ascii y)%nat eqn:H1; [auto|].
  destruct (nat_of_ascii y <? nat_of_ascii x)%nat eqn:H2; [auto|].
  apply IH.
Qed.

Lemma key3_leb_total a b : key3_leb a b = true \/ key3_leb b a = true.
Proof.
  unfold key3_leb, bool_ltb.
  destruct a as [[a1 a2] a3], b as [[b1 b2] b3]. simpl.
  destruct a1, b1; simpl; auto;
    destruct (a2 <? b2) eqn:H1; auto; destruct (b2 <? a2) eqn:H2; auto;
    apply str_leb_total.
Qed.

Lemma sort_insert_sorted {K} (leb : K -> K -> bool) (key : str -> K) x l :
  (forall a b, leb a b = true \/ leb b a = true) ->
  Sorted (fun a b => leb (key a) (key b) = true) l ->
  Sorted (fun a b => leb (key a) (key b) = true) (sort_insert leb key x l).
Proof.
  intros Htot. induction 1 as [|y l Hs IH Hhd]; simpl.
  - constructor; constructor.
  - destruct (leb (key x) (key y)) eqn:Hxy.
    + constructor; [constructor; assumption|constructor; exact Hxy].
    + constructor; [exact IH|].
      destruct l as [|z l]; simpl.
      * constructor. destruct (Htot (key x) (key y)); congruence.
      * destruct (leb (key x) (key z)); constructor.
        -- destruct (Htot (key x) (key y)); congruence.
        -- inversion Hhd; assumption.
Qed.

Lemma sort_by_sorted {K} (leb : K -> K -> bool) (key : str -> K) l :
  (forall a b, leb a b = true \/ leb b a = true) ->
  Sorted (fun a b => leb (key a) (key b) = true) (sort_by leb key l).
Proof.
  intros Htot. induction l as [|x l IH]; simpl; [constructor|].
  apply sort_insert_sorted; assumption.
Qed.

Lemma Sorted_weaken {A} (R1 R2 : A -> A -> Prop) (l : list A) :
  (forall a b, R1 a b -> R2 a b) -> Sorted R1 l -> Sorted R2 l.
Proof.
  intros Himp. induction 1 as [|x l Hs IH Hhd]; constructor; [exact IH|].
  destruct Hhd; constructor. auto.
Qed.

(** What [<=] on the keys of modes 0 and 2 says of two children. *)
Lemma key_size_leb (st : State) (path a b : str) :
  key3_leb (key_size st path a) (key_size st path b) = true ->
  (is_dir_get st a = true /\ is_dir_get st b = false)
  \/ (is_dir_get st a = is_dir_get st b
      /\ (snapshot_size st path b < snapshot_size st path a
          \/ (snapshot_size st path a = snapshot_size st path b
              /\ str_leb (lower (posixpath.basename a)) (lower (posixpath.basename b))
                 = true))).
Proof.
  unfold key3_leb, key_size, bool_ltb, is_dir_get. cbn [fst snd].
  destruct (default false (is_dir st !! a)), (default false (is_dir st !! b));
    cbn [negb andb]; try discriminate; auto;
    (destruct (- snapshot_size st path a <? - snapshot_size st path b) eqn:H1;
     [apply Z.ltb_lt in H1; intros _; right; split; [reflexivity|left; lia]|];
     destruct (- snapshot_size st path b <? - snapshot_size st path a) eqn:H2;
     [discriminate|];
     apply Z.ltb_ge in H1, H2; intros Hn; right; split; [reflexivity|right];
     split; [lia|exact Hn]).
Qed.

(** C6. Mode 0 and mode 2 sort every list of children alike: the result
    is the same list; it holds the recorded children of the directory; and
    of two rows that follow each other either the first is a directory and
    the second is not, or both are of one kind and the first has the larger
    entry in the snapshot of sizes, or they have the same entry and the name
    of the first, upper case folded to lower case, is not the greater one.
    The snapshot holds the recorded size of a child that has one; a
    directory without a recorded size stands there with the size of the
    directory that is listed, anything else without one with 0. *)
Theorem size_and_type_modes_agree (st : State) (path : str) :
  sorted_children st 0 path = sorted_children st 2 path
  /\ Permutation (sorted_children st 0 path)
       (filter (fun k => k ∈ exists_ st) (children_get st path))
  /\ Sorted (fun a b =>
               (is_dir_get st a = true /\ is_dir_get st b = false)
               \/ (is_dir_get st a = is_dir_get st b
                   /\ (snapshot_size st path b < snapshot_size st path a
                       \/ (snapshot_size st path a = snapshot_size st path b
                           /\ str_leb (lower (posixpath.basename a))
                                      (lower (posixpath.basename b)) = true))))
       (sorted_children st 0 path)
  /\ (forall k v, size st !! k = Some v -> snapshot_size st path k = v)
  /\ (forall k, size st !! k = None -> is_dir_get st k = true ->
                snapshot_size st path k = size_get st path)
  /\ (forall k, size st !! k = None -> is_dir_get st k = false ->
                snapshot_size st path k = 0).
Proof.
  split; [reflexivity|]. split; [apply sorted_children_perm|].
  split; [|split; [|split]].
  - apply Sorted_weaken
      with (R1 := fun a b => key3_leb (key_size st path a) (key_size st path b) = true).
    + intros a b. apply key_size_leb.
    + unfold sorted_children. simpl. apply sort_by_sorted. apply key3_leb_total.
  - intros k v Hk. unfold snapshot_size. rewrite Hk. reflexivity.
  - intros k Hk Hd. unfold snapshot_size, is_dir_get in *. rewrite Hk, Hd. reflexivity.
  - intros k Hk Hd. unfold snapshot_size, is_dir_get in *. rewrite Hk, Hd. reflexivity.
Qed.

(** ** The chain of ancestors, whatever the path *)

Lemma ancestors_general (s : str) (n : nat) : forall p, (length p <= n)%nat ->
  exists k : nat,
    ancestors p s = map (fun i => Nat.iter i posixpath.dirname p) (seq 0 (S k))
    /\ (k <= length p)%nat
    /\ (forall i, (i < k)%nat ->
          Nat.iter i posixpath.dirname p <> posixpath.abspath getcwd s
          /\ Nat.iter (S i) posixpath.dirname p <> Nat.iter i posixpath.dirname p)
    /\ (Nat.iter k posixpath.dirname p = posixpath.abspath getcwd s
        \/ posixpath.dirname (Nat.iter k posixpath.dirname p) = Nat.iter k posixpath.dirname p)
    /\ (forall x, x ∈ ancestors p s -> (length x <= length p)%nat)
    /\ NoDup (ancestors p s).
Proof.
  induction n as [|n IH]; intros p Hn; rewrite ancestors_unfold;
    destruct (bool_decide (p = posixpath.abspath getcwd s)
              || bool_decide (p = posixpath.dirname p)) eqn:Hstop.
  1,3: exists 0%nat; split; [reflexivity|]; split; [lia|];
    split; [intros i Hi; lia|]; split; [|split];
    [ apply orb_true_iff in Hstop as [H|H]; apply bool_decide_eq_true in H; simpl; auto
    | intros x Hx; apply list_elem_of_singleton in Hx as ->; reflexivity
    | apply NoDup_singleton ].
  - apply orb_false_iff in Hstop as [_ H]. apply bool_decide_eq_false in H.
    pose proof (dirname_shorter p H). lia.
  - apply orb_false_iff in Hstop as [Hs Hd].
    apply bool_decide_eq_false in Hs. apply bool_decide_eq_false in Hd.
    pose proof (dirname_shorter p Hd) as Hlt.
    destruct (IH (posixpath.dirname p)) as (k & Heq & Hk & Hgo & Hend & Hlen & Hnd); [lia|].
    exists (S k). split; [|split; [lia|split; [|split; [|split]]]].
    + rewrite Heq. change (seq 0 (S (S k))) with (0%nat :: seq 1 (S k)).
      rewrite <- seq_shift. cbn [map]. rewrite map_map. f_equal.
      apply map_ext. intros i. rewrite Nat.iter_succ_r. reflexivity.
    + intros [|i] Hi.
      * simpl. split; [exact Hs|]. intros Heq'. apply Hd. symmetry. exact Heq'.
      * rewrite !(Nat.iter_succ_r (S i)), (Nat.iter_succ_r i). apply Hgo. lia.
    + rewrite !Nat.iter_succ_r. exact Hend.
    + intros x Hx. apply elem_of_cons in Hx as [->|Hx]; [reflexivity|].
      apply Hlen in Hx. lia.
    + apply NoDup_cons. split; [|exact Hnd]. intros Hp. apply Hlen in Hp. lia.
Qed.

(** X11. The list [ancestors] returns, for any path and any stop: [p], its
    [dirname], the [dirname] of that and so on, up to the first path that
    is the stop made absolute or has itself as [dirname].  The loop ends
    after at most one round per character of [p], and no path is listed
    twice. *)
Theorem ancestors_shape (p s : str) :
  exists k : nat,
    ancestors p s = map (fun i => Nat.iter i posixpath.dirname p) (seq 0 (S k))
    /\ (k <= length p)%nat
    /\ (forall i, (i < k)%nat ->
          Nat.iter i posixpath.dirname p <> posixpath.abspath getcwd s
          /\ Nat.iter (S i) posixpath.dirname p <> Nat.iter i posixpath.dirname p)
    /\ (Nat.iter k posixpath.dirname p = posixpath.abspath getcwd s
        \/ posixpath.dirname (Nat.iter k posixpath.dirname p) = Nat.iter k posixpath.dirname p)
    /\ NoDup (ancestors p s).
Proof.
  destruct (ancestors_general s (length p) p (le_n _)) as (k & H1 & H2 & H3 & H4 & _ & H5).
  exists k. auto.
Qed.

(** ** The formatter on counts below 1024 *)

Lemma float_of_int_small z :
  Z.abs z < 2 ^ 53 -> float_of_int z = Some (Finite (inject_Z z)).
Proof.
  intros H53. unfold float_of_int.
  assert (Z.log2 (Z.abs z) + 1 <= 53) as Hbits.
  { destruct (Z.eq_dec (Z.abs z) 0) as [->|Hz]; [simpl; lia|].
    assert (Z.log2 (Z.abs z) < 53); [|lia]. apply Z.log2_lt_pow2; lia. }
  rewrite (proj2 (Z.leb_le _ _) Hbits).
  assert ((2 ^ 1024 <=? Z.abs z) = false) as ->.
  { apply Z.leb_gt. apply Z.lt_trans with (2 ^ 53); [lia|].
    apply Z.pow_lt_mono_r; lia. }
  destruct (z <? 0) eqn:Hneg; do 3 f_equal.
  - apply Z.ltb_lt in Hneg. lia.
  - apply Z.ltb_ge in Hneg. lia.
Qed.

Lemma format_1f_int z :
  format_1f (Finite (inject_Z z))
  = (if z <? 0 then py "-" else []) ++ py (pretty (Z.abs z)) ++ py ".0".
Proof.
  unfold format_1f.
  assert (round_half_even (Qabs (inject_Z z) * 10) = Z.abs z * 10) as ->.
  { unfold round_half_even. simpl. rewrite Z.div_1_r, Z.mod_1_r. reflexivity. }
  rewrite Z.div_mul, Z.mod_mul by lia.
  destruct (Qlt_le_dec (inject_Z z) 0) as [Hneg|Hpos].
  - assert ((z <? 0) = true) as ->; [|reflexivity].
    apply Z.ltb_lt. unfold Qlt in Hneg. simpl in Hneg. lia.
  - assert ((z <? 0) = false) as ->; [|reflexivity].
    apply Z.ltb_ge. unfold Qle in Hpos. simpl in Hpos. lia.
Qed.

(** X12. A count below 1024 that a double holds exactly is written as it is,
    with [.0B] after it.  This includes the negative counts: they are never
    scaled, whatever their magnitude. *)
Theorem human_below_1024 (z : Z) :
  - 2 ^ 53 < z < 1024 ->
  human (PyInt z)
  = (if z <? 0 then py "-" else []) ++ py (pretty (Z.abs z)) ++ py ".0B".
Proof.
  intros Hz. unfold human, py_float.
  rewrite float_of_int_small by lia.
  assert (lt_1024 (Finite (inject_Z z)) = true) as Hlt.
  { unfold lt_1024. destruct (Qlt_le_dec (inject_Z z) 1024) as [|Hge]; [reflexivity|].
    unfold Qle in Hge. simpl in Hge. lia. }
  unfold units. cbn [human_loop]. rewrite Hlt, format_1f_int.
  rewrite <- !app_assoc. reflexivity.
Qed.

(** ** Keys *)

Lemma clamped_row {A} (kids : list A) (p : Z) :
  kids <> [] ->
  is_Some (kids !! Z.to_nat (Z.max 0 (Z.min p (Z.of_nat (length kids) - 1)))).
Proof.
  intros Hne. apply lookup_lt_is_Some_2.
  destruct kids as [|x l]; [contradiction|]. simpl length. lia.
Qed.

Lemma on_key_total (st st' : State) (ch : Z) (b : Browser) :
  (on_key st st' ch b = Break <-> ch = ord_q \/ ch = ESC)
  /\ (on_key st st' ch b = Break \/ exists b', on_key st st' ch b = Next b')
  /\ (forall b',
        on_key st st' ch b = Next b' ->
        spinner_idx b' = spinner_idx b
        /\ (sort_mode b' = sort_mode b
            \/ (ch = ord_s /\ sort_mode b' = (sort_mode b + 1) mod 3))
        /\ (0 <= pos b -> 0 <= pos b')).
Proof.
  unfold on_key.
  destruct ((ch =? ord_q) || (ch =? ESC)) eqn:Hq.
  { apply orb_true_iff in Hq. rewrite !Z.eqb_eq in Hq.
    split; [split; [intros _; exact Hq|reflexivity]|]. split; [auto|].
    intros b' H. discriminate. }
  apply orb_false_iff in Hq as [Hq1 Hq2]. apply Z.eqb_neq in Hq1, Hq2.
  assert (forall (o : outcome) (P : Browser -> Prop),
            (exists b', o = Next b' /\ P b') ->
            ((o = Break <-> ch = ord_q \/ ch = ESC)
             /\ (o = Break \/ exists b', o = Next b')
             /\ (forall b', o = Next b' -> P b'))) as Hall.
  { intros o P (b' & -> & HP).
    split; [split; [discriminate|intros [H|H]; contradiction]|]. split; [eauto|].
    intros b'' [= <-]. exact HP. }
  destruct ((ch =? KEY_UP) || (ch =? ord_k)).
  { apply Hall. eexists. split; [reflexivity|]. simpl. split; [|split]; auto. lia. }
  destruct ((ch =? KEY_DOWN) || (ch =? ord_j)).
  { apply Hall. eexists. split; [reflexivity|]. simpl. split; [|split]; auto. lia. }
  destruct ((ch =? KEY_RIGHT) || (ch =? ord_newline)).
  { destruct (bool_decide (sorted_children st (sort_mode b) (cwd b) = [])) eqn:He.
    { apply Hall. exists b. auto. }
    apply bool_decide_eq_false in He.
    destruct (clamped_row _ (pos b) He) as [sel ->].
    destruct (default false (is_dir st' !! sel)); apply Hall; eexists;
      (split; [reflexivity|]); simpl; (split; [|split]); auto; lia. }
  destruct (ch =? KEY_LEFT).
  { destruct (_ && _); apply Hall; eexists; (split; [reflexivity|]); simpl;
      (split; [|split]); auto; lia. }
  destruct (ch =? ord_s) eqn:Hs.
  { apply Z.eqb_eq in Hs. apply Hall. eexists. split; [reflexivity|]. simpl.
    split; [|split]; auto. }
  apply Hall. exists b. auto.
Qed.

Lemma on_key_other st st' ch b :
  Forall (fun k => ch <> k)
    [ord_q; ESC; KEY_UP; ord_k; KEY_DOWN; ord_j; KEY_RIGHT; ord_newline; KEY_LEFT; ord_s] ->
  on_key st st' ch b = Next b.
Proof.
  intros H. repeat (apply Forall_cons in H as [?%Z.eqb_neq H]).
  unfold on_key.
  repeat match goal with E : (ch =? _) = false |- _ => rewrite E; clear E end.
  reflexivity.
Qed.

(** X13. A key never fails: the loop of [Browser.run] ends on [q] and on the
    escape key and on no other, and every other key leaves a browser to go
    on with; in particular the row the right key selects is always a row of
    the list.  No key touches the spinner, only [s] the sort mode, and the
    selection never becomes negative.  A key that is none of the ten the
    loop tests for changes nothing: so the [f] key, which the footer
    announces. *)
Theorem key_never_fails (st st' : State) (ch : Z) (b : Browser) :
  (on_key st st' ch b = Break <-> ch = ord_q \/ ch = ESC)
  /\ (on_key st st' ch b = Break \/ exists b', on_key st st' ch b = Next b')
  /\ (forall b',
        on_key st st' ch b = Next b' ->
        spinner_idx b' = spinner_idx b
        /\ (sort_mode b' = sort_mode b
            \/ (ch = ord_s /\ sort_mode b' = (sort_mode b + 1) mod 3))
        /\ (0 <= pos b -> 0 <= pos b'))
  /\ (Forall (fun k => ch <> k)
         [ord_q; ESC; KEY_UP; ord_k; KEY_DOWN; ord_j; KEY_RIGHT; ord_newline; KEY_LEFT; ord_s] ->
      on_key st st' ch b = Next b)
  /\ on_key st st' 102 b = Next b.
Proof.
  destruct (on_key_total st st' ch b) as (H1 & H2 & H3).
  split; [exact H1|]. split; [exact H2|]. split; [exact H3|].
  split; [apply on_key_other|reflexivity].
Qed.

(** ** The browser along a run *)

Lemma browser_range_step s e :
  0 <= pos (browser s) /\ 0 <= sort_mode (browser s) < 3 /\ 0 <= spinner_idx (browser s) ->
  0 <= pos (browser (sys_step s e))
  /\ 0 <= sort_mode (browser (sys_step s e)) < 3
  /\ 0 <= spinner_idx (browser (sys_step s e)).
Proof.
  intros (Hp & Hm & Hs). destruct e as [| |ch k]; simpl.
  - destruct (todo s); simpl; auto.
  - destruct (running s); simpl; [|auto].
    split; [|split; [exact Hm|]].
    + destruct (bool_decide _); lia.
    + destruct (scanning (shared s)); lia.
  - destruct (running s); simpl; [|auto].
    destruct (on_key_total (shared s) (run (take k (todo s)) (shared s)) ch (browser s))
      as (_ & Htot & Hnext).
    destruct Htot as [Hb|[b' Hb]]; rewrite Hb; simpl; [auto|].
    destruct (Hnext b' Hb) as (Hsp & Hsm & Hpos).
    split; [auto|]. split; [|lia].
    destruct Hsm as [->|[_ ->]]; [exact Hm|]. apply Z.mod_pos_bound. lia.
Qed.

Lemma browser_range_run evs : forall s,
  0 <= pos (browser s) /\ 0 <= sort_mode (browser s) < 3 /\ 0 <= spinner_idx (browser s) ->
  0 <= pos (browser (sys_run evs s))
  /\ 0 <= sort_mode (browser (sys_run evs s)) < 3
  /\ 0 <= spinner_idx (browser (sys_run evs s)).
Proof.
  induction evs as [|e evs IH]; intros s Hs; [exact Hs|].
  change (sys_run (e :: evs) s) with (sys_run evs (sys_step s e)).
  apply IH. apply browser_range_step. exact Hs.
Qed.

(** The loop does not start again once it has ended. *)
Lemma ended_step s e : running s = false -> running (sys_step s e) = false.
Proof.
  intros Hr. destruct e as [| |ch k]; simpl.
  - destruct (todo s); simpl; exact Hr.
  - rewrite Hr. exact Hr.
  - rewrite Hr. exact Hr.
Qed.

Lemma ended_run evs : forall s, running s = false -> running (sys_run evs s) = false.
Proof.
  induction evs as [|e evs IH]; intros s Hr; [exact Hr|].
  change (sys_run (e :: evs) s) with (sys_run evs (sys_step s e)).
  apply IH. apply ended_step. exact Hr.
Qed.

Lemma quit_key_step s ch k : ch = ord_q \/ ch = ESC -> running (sys_step s (EvKey ch k)) = false.
Proof.
  intros Hq. simpl. destruct (running s) eqn:Hr; [|exact Hr].
  destruct (on_key_total (shared s) (run (take k (todo s)) (shared s)) ch (browser s))
    as (Hbreak & _ & _).
  apply Hbreak in Hq. rewrite Hq. reflexivity.
Qed.

(** X14. Whatever the scanner, the redraws and the keys have done from the
    start of [main] on, as long as every redraw returned: the selection and
    the spinner count are never negative and the sort mode is 0, 1 or 2;
    and once [q] or the escape key has been among the keys, the loop of the
    browser has ended. *)
Theorem browser_stays_in_range (root0 : str) (es : list entry)
    (order : list (str * option Z)) (evs : list event) :
  let s := sys_run evs (sys_init root0 es order) in
  0 <= pos (browser s)
  /\ 0 <= sort_mode (browser s) < 3
  /\ 0 <= spinner_idx (browser s)
  /\ ((exists ch k, EvKey ch k ∈ evs /\ (ch = ord_q \/ ch = ESC)) -> running s = false).
Proof.
  intros s.
  destruct (browser_range_run evs (sys_init root0 es order)) as (H1 & H2 & H3).
  { simpl. lia. }
  fold s in H1, H2, H3. split; [exact H1|]. split; [exact H2|]. split; [exact H3|].
  intros (ch & k & Hin & Hq). subst s.
  apply list_elem_of_split in Hin as (l1 & l2 & ->).
  unfold sys_run. rewrite fold_left_app. cbn [fold_left].
  apply ended_run. apply quit_key_step. exact Hq.
Qed.

(** ** More about the order of the rows *)

Lemma str_leb_refl a : str_leb a a = true.
Proof.
  induction a as [|x a IH]; [reflexivity|]. simpl.
  rewrite Nat.ltb_irrefl. exact IH.
Qed.

Lemma key2_leb_refl a : key2_leb a a = true.
Proof.
  unfold key2_leb, bool_ltb. destruct a as [[] a2]; simpl; apply str_leb_refl.
Qed.

Lemma key3_leb_refl a : key3_leb a a = true.
Proof.
  unfold key3_leb, bool_ltb. destruct a as [[[] a2] a3]; simpl;
    rewrite Z.ltb_irrefl; apply str_leb_refl.
Qed.

Lemma key2_leb_total a b : key2_leb a b = true \/ key2_leb b a = true.
Proof.
  unfold key2_leb, bool_ltb. destruct a as [a1 a2], b as [b1 b2]. simpl.
  destruct a1, b1; simpl; auto; apply str_leb_total.
Qed.

Lemma key2_leb_dirs a b : key2_leb a b = true -> a.1 = true -> b.1 = true.
Proof.
  unfold key2_leb, bool_ltb. destruct a as [[] a2], b as [[] b2]; simpl; congruence.
Qed.

Lemma key3_leb_dirs a b : key3_leb a b = true -> a.1.1 = true -> b.1.1 = true.
Proof.
  unfold key3_leb, bool_ltb. destruct a as [[[] a2] a3], b as [[[] b2] b3]; simpl; congruence.
Qed.

(** A list in which no directory comes after a file is its directories
    followed by its files. *)
Lemma dirs_then_files (st : State) (l : list str) :
  Sorted (fun a b => is_dir_get st b = true -> is_dir_get st a = true) l ->
  l = filter (fun p => is_dir_get st p = true) l
        ++ filter (fun p => is_dir_get st p <> true) l.
Proof.
  intros Hs. apply Sorted_StronglySorted in Hs.
  2:{ intros a b c Hab Hbc Hc. auto. }
  induction Hs as [|x l Hs IH Hall]; [reflexivity|].
  rewrite !filter_cons.
  destruct (decide (is_dir_get st x = true)) as [Hx|Hx].
  - rewrite decide_False by (intros H; apply H; exact Hx).
    simpl. f_equal. exact IH.
  - rewrite decide_True by exact Hx.
    assert (forall y, y ∈ l -> is_dir_get st y <> true) as Hfiles.
    { intros y Hy Hd. rewrite Forall_forall in Hall. apply Hx. apply (Hall y); [exact Hy|exact Hd]. }
    rewrite (filter_none _ l Hfiles), (filter_all _ l Hfiles). reflexivity.
Qed.

Lemma sorted_children_cases st mode path :
  (mode = 1
   /\ sorted_children st mode path
      = sort_by key2_leb (key_name st)
          (filter (fun k => k ∈ exists_ st) (children_get st path)))
  \/ (mode <> 1
      /\ sorted_children st mode path
         = sort_by key3_leb (key_size st path)
             (filter (fun k => k ∈ exists_ st) (children_get st path))).
Proof.
  unfold sorted_children, children_get.
  destruct (mode =? 1) eqn:H1.
  - left. apply Z.eqb_eq in H1. auto.
  - right. apply Z.eqb_neq in H1. destruct (mode =? 2); auto.
Qed.

(** X15. In every sort mode the rows are the directories followed by the
    files.  Mode 1 orders each of the two groups by the name with upper case
    folded to lower case, and every mode other than 1 lists as mode 0
    does. *)
Theorem directories_listed_first (st : State) (mode : Z) (path : str) :
  (exists dirs files,
     sorted_children st mode path = dirs ++ files
     /\ Forall (fun p => is_dir_get st p = true) dirs
     /\ Forall (fun p => is_dir_get st p = false) files)
  /\ Sorted (fun a b => key2_leb (key_name st a) (key_name st b) = true)
       (sorted_children st 1 path)
  /\ (mode <> 1 -> sorted_children st mode path = sorted_children st 0 path).
Proof.
  split; [|split].
  - assert (Sorted (fun a b => is_dir_get st b = true -> is_dir_get st a = true)
              (sorted_children st mode path)) as Hs.
    { destruct (sorted_children_cases st mode path) as [[_ ->]|[_ ->]].
      - eapply Sorted_weaken; [|apply sort_by_sorted; apply key2_leb_total].
        intros a b Hab Hb. unfold is_dir_get in *.
        pose proof (key2_leb_dirs _ _ Hab) as Hd. unfold key_name in Hd. simpl in Hd.
        destruct (default false (is_dir st !! a)); [reflexivity|].
        rewrite Hb in Hd. simpl in Hd. specialize (Hd eq_refl). discriminate.
      - eapply Sorted_weaken; [|apply sort_by_sorted; apply key3_leb_total].
        intros a b Hab Hb. unfold is_dir_get in *.
        pose proof (key3_leb_dirs _ _ Hab) as Hd. unfold key_size in Hd. simpl in Hd.
        destruct (default false (is_dir st !! a)); [reflexivity|].
        rewrite Hb in Hd. simpl in Hd. specialize (Hd eq_refl). discriminate. }
    apply dirs_then_files in Hs.
    eexists _, _. split; [exact Hs|]. split.
    + apply Forall_forall. intros p Hp.
      apply list_elem_of_filter in Hp as [Hp _]. exact Hp.
    + apply Forall_forall. intros p Hp.
      apply list_elem_of_filter in Hp as [Hp _].
      destruct (is_dir_get st p); [contradiction|reflexivity].
  - destruct (sorted_children_cases st 1 path) as [[_ ->]|[H _]]; [|contradiction].
    apply sort_by_sorted. apply key2_leb_total.
  - intros Hm. destruct (sorted_children_cases st mode path) as [[H _]|[_ ->]]; [contradiction|].
    destruct (sorted_children_cases st 0 path) as [[H _]|[_ ->]]; [discriminate|reflexivity].
Qed.

Lemma sort_insert_stable {K} `{EqDecision K} (leb : K -> K -> bool) (key : str -> K) x l k :
  (forall a, leb a a = true) ->
  filter (fun p => key p = k) (sort_insert leb key x l)
  = filter (fun p => key p = k) (x :: l).
Proof.
  intros Hrefl. induction l as [|y l IH]; [reflexivity|]. simpl.
  destruct (leb (key x) (key y)) eqn:Hxy; [reflexivity|].
  rewrite (filter_cons _ y), IH, !filter_cons.
  destruct (decide (key y = k)) as [Hy|Hy]; destruct (decide (key x = k)) as [Hx|Hx];
    try reflexivity.
  rewrite Hx, Hy, Hrefl in Hxy. discriminate.
Qed.

Lemma sort_by_stable {K} `{EqDecision K} (leb : K -> K -> bool) (key : str -> K) l k :
  (forall a, leb a a = true) ->
  filter (fun p => key p = k) (sort_by leb key l) = filter (fun p => key p = k) l.
Proof.
  intros Hrefl. induction l as [|x l IH]; [reflexivity|]. simpl.
  rewrite sort_insert_stable by exact Hrefl. rewrite !filter_cons, IH. reflexivity.
Qed.

(** X16. The sort is stable: in every mode, the rows with one and the same
    key stand in the order in which [children[path]] holds them. *)
Theorem equal_keys_keep_their_order (st : State) (path : str) :
  (forall mode k,
     mode <> 1 ->
     filter (fun p => key_size st path p = k) (sorted_children st mode path)
     = filter (fun p => key_size st path p = k)
         (filter (fun p => p ∈ exists_ st) (children_get st path)))
  /\ (forall k,
        filter (fun p => key_name st p = k) (sorted_children st 1 path)
        = filter (fun p => key_name st p = k)
            (filter (fun p => p ∈ exists_ st) (children_get st path))).
Proof.
  split.
  - intros mode k Hm.
    destruct (sorted_children_cases st mode path) as [[H _]|[_ ->]]; [contradiction|].
    apply sort_by_stable. apply key3_leb_refl.
  - intros k.
    destruct (sorted_children_cases st 1 path) as [[_ ->]|[H _]]; [|contradiction].
    apply sort_by_stable. apply key2_leb_refl.
Qed.

(** ** The rows on the screen *)

Lemma py_range_lookup a b (i : nat) x :
  py_range a b !! i = Some x <-> x = a + Z.of_nat i /\ Z.of_nat i < b - a.
Proof.
  unfold py_range. rewrite list_lookup_fmap.
  destruct (seq 0 (Z.to_nat (b - a)) !! i) as [j|] eqn:Hj; simpl.
  - apply lookup_seq in Hj as [-> Hlt]. simpl. split.
    + intros [= <-]. split; [reflexivity|lia].
    + intros [-> _]. reflexivity.
  - split; [discriminate|]. intros [_ Hlt].
    assert (i < Z.to_nat (b - a))%nat as Hi by lia.
    rewrite (lookup_seq_lt 0 _ i Hi) in Hj. discriminate.
Qed.

Lemma elem_of_drawn_rows h st b row idx :
  (row, idx) ∈ drawn_rows h st b
  <-> exists i : nat,
        let top := if h - 5 - 1 <=? pos (draw st b)
                   then pos (draw st b) - (h - 5 - 1) + 1 else 0 in
        row = 5 + Z.of_nat i /\ idx = top + Z.of_nat i
        /\ idx < Z.min (Z.of_nat (length (sorted_children st (sort_mode b) (cwd b))))
                   (top + (h - 5 - 1)).
Proof.
  unfold drawn_rows. cbv zeta. rewrite elem_of_lookup_imap. split.
  - intros (i & y & [= -> ->] & Hy). apply py_range_lookup in Hy as [-> Hlt].
    exists i. split; [reflexivity|]. split; [reflexivity|lia].
  - intros (i & -> & -> & Hlt). exists i. eexists. split; [reflexivity|].
    apply py_range_lookup. split; [reflexivity|lia].
Qed.

(** X17. The row loop of [Browser.draw], on a screen of any height and for any
    selection: every index it uses is a row of the list, so that [kids[idx]]
    never fails and never counts from the end; every line it writes lies
    between the column header and the footer; it writes at most [h - 6]
    rows, each child at most once; and when the screen has room for one row
    at least, the selected row is among them. *)
Theorem rows_fit_the_screen (h : Z) (st : State) (b : Browser) :
  let kids := sorted_children st (sort_mode b) (cwd b) in
  (forall row idx,
     (row, idx) ∈ drawn_rows h st b ->
     0 <= idx < Z.of_nat (length kids) /\ 5 <= row < h - 1)
  /\ Z.of_nat (length (drawn_rows h st b)) <= Z.max 0 (h - 6)
  /\ NoDup (drawn_rows h st b).*2
  /\ (7 <= h -> kids <> [] ->
      0 <= pos (draw st b) < Z.of_nat (length kids)
      /\ exists row, (row, pos (draw st b)) ∈ drawn_rows h st b).
Proof.
  intros kids.
  set (P := pos (draw st b)).
  set (top := if h - 5 - 1 <=? P then P - (h - 5 - 1) + 1 else 0).
  assert (0 <= top) as Htop.
  { unfold top. destruct (h - 5 - 1 <=? P) eqn:Hc; [|lia]. apply Z.leb_le in Hc. lia. }
  split; [|split; [|split]].
  - intros row idx Hin. apply elem_of_drawn_rows in Hin as (i & -> & -> & Hlt).
    fold P top kids in Hlt. fold P top. lia.
  - unfold drawn_rows. cbv zeta. rewrite length_imap. unfold py_range.
    rewrite length_map, length_seq. fold P top. lia.
  - unfold drawn_rows. cbv zeta. fold P top kids.
    apply NoDup_alt. intros i j x Hi Hj.
    rewrite list_lookup_fmap, list_lookup_imap in Hi, Hj.
    destruct (py_range top (Z.min (Z.of_nat (length kids)) (top + (h - 5 - 1))) !! i)
      as [xi|] eqn:Hxi; [|discriminate].
    destruct (py_range top (Z.min (Z.of_nat (length kids)) (top + (h - 5 - 1))) !! j)
      as [xj|] eqn:Hxj; [|discriminate].
    simpl in Hi, Hj. apply py_range_lookup in Hxi as [-> _]. apply py_range_lookup in Hxj as [-> _].
    injection Hi as <-. injection Hj as Hj. lia.
  - intros Hh Hne.
    destruct (draw_pos st b) as [Hclamp _]. fold kids P in Hclamp.
    assert (0 < Z.of_nat (length kids)) as Hn by (destruct kids; [contradiction|simpl; lia]).
    specialize (Hclamp Hn).
    assert (0 <= P < Z.of_nat (length kids)) as HP by lia.
    split; [exact HP|].
    exists (5 + Z.of_nat (Z.to_nat (P - top))). apply elem_of_drawn_rows.
    exists (Z.to_nat (P - top)). fold P top kids.
    assert (top <= P) as Hle.
    { unfold top. destruct (h - 5 - 1 <=? P) eqn:Hc; lia. }
    split; [reflexivity|]. split; [lia|].
    unfold top. destruct (h - 5 - 1 <=? P) eqn:Hc; [lia|]. apply Z.leb_gt in Hc. lia.
Qed.

(** ** The root [main] hands over *)

Lemma plain_name_valid w : plain_name w = true -> valid_name w = true.
Proof.
  unfold plain_name. intros H. apply andb_prop in H as [H _].
  apply andb_prop in H as [H _]. exact H.
Qed.

Lemma norm_step_plain k acc comp :
  k <> 0%nat ->
  Forall (fun w => plain_name w = true) acc ->
  forallb (fun c => negb (is_sep c)) comp = true ->
  Forall (fun w => plain_name w = true) (posixpath.norm_step k acc comp).
Proof.
  intros Hk Hacc Hcomp. unfold posixpath.norm_step.
  destruct (bool_decide (comp = [])) eqn:He; [exact Hacc|]. cbn [orb].
  destruct (bool_decide (comp = py ".")) eqn:Hdot; [exact Hacc|].
  destruct (bool_decide (comp <> py "..")) eqn:Hdd; cbn [orb].
  - apply Forall_app. split; [exact Hacc|]. constructor; [|constructor].
    unfold plain_name, valid_name. rewrite He, Hcomp, Hdot. simpl.
    apply bool_decide_eq_true in Hdd. rewrite bool_decide_eq_false_2 by exact Hdd. reflexivity.
  - rewrite (bool_decide_eq_false_2 (k = 0%nat)) by exact Hk. cbn [andb orb].
    destruct (bool_decide (acc <> [])) eqn:Hne; cbn [andb]; [|apply Forall_removelast; exact Hacc].
    destruct (bool_decide (last acc = Some (py ".."))) eqn:Hlast;
      [|apply Forall_removelast; exact Hacc].
    apply bool_decide_eq_true in Hlast. exfalso.
    assert (py ".." ∈ acc) as Hin.
    { clear -Hlast. induction acc as [|a acc IH]; [discriminate|].
      destruct acc as [|b acc]; [injection Hlast as ->; left|right; apply IH; exact Hlast]. }
    rewrite Forall_forall in Hacc. specialize (Hacc _ Hin). discriminate.
Qed.

Lemma norm_fold_plain k l : forall acc,
  k <> 0%nat ->
  Forall (fun w => plain_name w = true) acc ->
  Forall (fun w => forallb (fun c => negb (is_sep c)) w = true) l ->
  Forall (fun w => plain_name w = true) (fold_left (posixpath.norm_step k) l acc).
Proof.
  induction l as [|x l IH]; intros acc Hk Hacc Hl; simpl; [exact Hacc|].
  inversion Hl; subst. apply IH; [exact Hk| |assumption].
  apply norm_step_plain; assumption.
Qed.

Lemma norm_fold_keeps k comps : forall acc,
  Forall (fun w => plain_name w = true) comps ->
  fold_left (posixpath.norm_step k) comps acc = acc ++ comps.
Proof.
  induction comps as [|w comps IH]; intros acc Hc; simpl; [rewrite app_nil_r; reflexivity|].
  inversion Hc as [|? ? Hw Hcs]; subst.
  rewrite IH by exact Hcs.
  assert (posixpath.norm_step k acc w = acc ++ [w]) as ->.
  { unfold posixpath.norm_step, plain_name, valid_name in *.
    apply andb_prop in Hw as [Hw Hdd]. apply andb_prop in Hw as [Hw Hdot].
    apply andb_prop in Hw as [He _].
    apply negb_true_iff in He, Hdot, Hdd. rewrite He, Hdot. cbn [orb].
    apply bool_decide_eq_false in Hdd. rewrite (bool_decide_eq_true_2 _ Hdd). reflexivity. }
  rewrite <- app_assoc. reflexivity.
Qed.

Lemma split_sep_plain c :
  forallb (fun a => negb (is_sep a)) c = true -> posixpath.split_sep c = [c].
Proof.
  induction c as [|a c IH]; intros H; [reflexivity|].
  simpl in H. apply andb_prop in H as [Ha Hc]. apply negb_true_iff in Ha.
  simpl. rewrite Ha, (IH Hc). reflexivity.
Qed.

Lemma split_sep_app c rest :
  forallb (fun a => negb (is_sep a)) c = true ->
  posixpath.split_sep (c ++ sep :: rest) = c :: posixpath.split_sep rest.
Proof.
  induction c as [|a c IH]; intros H.
  - reflexivity.
  - simpl in H. apply andb_prop in H as [Ha Hc]. apply negb_true_iff in Ha.
    simpl. rewrite Ha, (IH Hc). reflexivity.
Qed.

Lemma split_join_sep comps :
  comps <> [] ->
  Forall (fun w => plain_name w = true) comps ->
  posixpath.split_sep (posixpath.join_sep comps) = comps.
Proof.
  induction comps as [|w comps IH]; [contradiction|]. intros _ Hc.
  inversion Hc as [|? ? Hw Hcs]; subst.
  pose proof (valid_name_nosep w (plain_name_valid w Hw)) as Hns.
  destruct comps as [|w' comps].
  - simpl. apply split_sep_plain. exact Hns.
  - change (posixpath.join_sep (w :: w' :: comps))
      with (w ++ sep :: posixpath.join_sep (w' :: comps)).
    rewrite split_sep_app by exact Hns. f_equal. apply IH; [discriminate|exact Hcs].
Qed.

Lemma join_sep_start comps :
  Forall (fun w => plain_name w = true) comps ->
  startswith_sep (posixpath.join_sep comps) = false.
Proof.
  intros Hc. destruct comps as [|w comps]; [reflexivity|].
  inversion Hc as [|? ? Hw Hcs]; subst.
  pose proof (valid_name_start w (plain_name_valid w Hw)) as Hs.
  pose proof (valid_name_nonempty w (plain_name_valid w Hw)) as Hne.
  destruct w as [|a w]; [contradiction|].
  destruct comps; exact Hs.
Qed.

(** What [normpath] returns for an absolute path: one or two slashes, then
    plain names with single slashes between them. *)
Lemma normpath_abs x :
  startswith_sep x = true ->
  exists (k : nat) comps,
    (k = 1%nat \/ k = 2%nat)
    /\ Forall (fun w => plain_name w = true) comps
    /\ posixpath.normpath x = replicate k sep ++ posixpath.join_sep comps.
Proof.
  intros Hx. unfold posixpath.normpath.
  rewrite bool_decide_eq_false_2 by (intros ->; discriminate). rewrite Hx.
  set (k := match x with
            | _ :: c2 :: rest => if is_sep c2 && negb (startswith_sep rest) then 2%nat else 1%nat
            | _ => 1%nat
            end).
  assert (k = 1%nat \/ k = 2%nat) as Hk.
  { subst k. destruct x as [|c [|c2 rest]]; auto. destruct (_ && _); auto. }
  exists k, (fold_left (posixpath.norm_step k) (posixpath.split_sep x) []).
  split; [exact Hk|]. split.
  - apply norm_fold_plain; [lia|constructor|apply split_sep_nosep].
  - rewrite bool_decide_eq_false_2; [reflexivity|].
    destruct Hk as [-> | ->]; discriminate.
Qed.

(** On such a path [normpath] changes nothing. *)
Lemma normpath_fixed (k : nat) comps :
  k = 1%nat \/ k = 2%nat ->
  Forall (fun w => plain_name w = true) comps ->
  posixpath.normpath (replicate k sep ++ posixpath.join_sep comps)
  = replicate k sep ++ posixpath.join_sep comps.
Proof.
  intros Hk Hc. pose proof (join_sep_start comps Hc) as Hstart.
  assert (fold_left (posixpath.norm_step k) (posixpath.split_sep (posixpath.join_sep comps)) []
          = comps) as Hfold.
  { destruct comps as [|w comps]; [reflexivity|].
    rewrite split_join_sep by (discriminate || exact Hc).
    apply (norm_fold_keeps k (w :: comps) [] Hc). }
  assert (is_sep sep = true) as Hsep
    by (unfold is_sep; rewrite bool_decide_eq_true_2; reflexivity).
  unfold posixpath.normpath.
  rewrite bool_decide_eq_false_2 by (destruct Hk as [-> | ->]; discriminate).
  destruct Hk as [-> | ->]; cbn [replicate app startswith_sep]; rewrite Hsep.
  - assert (match posixpath.join_sep comps with
            | [] => 1%nat
            | c2 :: rest => if is_sep c2 && negb (startswith_sep rest) then 2%nat else 1%nat
            end = 1%nat) as ->.
    { destruct (posixpath.join_sep comps) as [|c2 rest]; [reflexivity|].
      simpl in Hstart. rewrite Hstart. reflexivity. }
    cbn [posixpath.split_sep]. rewrite Hsep. cbn [fold_left].
    change (posixpath.norm_step 1 [] []) with (@nil str). rewrite Hfold.
    cbn [replicate app]. rewrite bool_decide_eq_false_2 by discriminate. reflexivity.
  - cbn [andb]. rewrite Hstart. cbn [negb].
    cbn [posixpath.split_sep]. rewrite Hsep. cbn [fold_left].
    change (posixpath.norm_step 2 (posixpath.norm_step 2 [] []) []) with (@nil str).
    rewrite Hfold.
    cbn [replicate app]. rewrite bool_decide_eq_false_2 by discriminate. reflexivity.
Qed.

Lemma abspath_abs p :
  posixpath.isabs getcwd = true ->
  exists (k : nat) comps,
    (k = 1%nat \/ k = 2%nat)
    /\ Forall (fun w => plain_name w = true) comps
    /\ posixpath.abspath getcwd p = replicate k sep ++ posixpath.join_sep comps.
Proof.
  intros Hcwd. unfold posixpath.abspath. apply normpath_abs.
  unfold posixpath.isabs in *. destruct (startswith_sep p) eqn:Hp; [exact Hp|].
  unfold posixpath.join. rewrite Hp.
  destruct getcwd as [|c l]; [discriminate|].
  destruct (_ || _); exact Hcwd.
Qed.

Lemma abspath_idempotent p :
  posixpath.isabs getcwd = true ->
  posixpath.abspath getcwd (posixpath.abspath getcwd p) = posixpath.abspath getcwd p.
Proof.
  intros Hcwd. destruct (abspath_abs p Hcwd) as (k & comps & Hk & Hc & ->).
  unfold posixpath.abspath, posixpath.isabs.
  assert (startswith_sep (replicate k sep ++ posixpath.join_sep comps) = true) as ->.
  { destruct Hk as [-> | ->]; simpl; unfold is_sep; rewrite bool_decide_eq_true_2; reflexivity. }
  apply normpath_fixed; assumption.
Qed.

(** X18. The root [main] computes from the command line is a fixed point of
    [abspath], as [os.getcwd()] is absolute: [State.__init__] and
    [ancestors], which both apply [abspath] again, leave it as it is, so
    that the root of the state, the directory the browser starts in and the
    stop of the ancestor chains are the very string the walk starts from.
    It begins with a slash and has no slash at its end unless it is made of
    slashes only; without an argument it is the single slash. *)
Theorem main_root_is_normal (argv : list str) :
  posixpath.isabs getcwd = true ->
  let rt := main_root argv in
  posixpath.abspath getcwd rt = rt
  /\ posixpath.isabs rt = true
  /\ good_dir rt = true
  /\ root (State_init rt) = rt
  /\ cwd (Browser_init (State_init rt)) = rt
  /\ ancestors rt rt = [rt]
  /\ ((length argv <= 1)%nat -> rt = py "/").
Proof.
  intros Hcwd rt.
  assert (posixpath.abspath getcwd rt = rt) as Hrt by (apply abspath_idempotent; exact Hcwd).
  split; [exact Hrt|]. split; [|split; [|split; [|split; [|split]]]].
  - unfold rt, main_root.
    destruct (abspath_abs (match argv with _ :: a :: _ => a | _ => py "/" end) Hcwd)
      as (k & comps & Hk & _ & ->).
    destruct Hk as [-> | ->]; simpl; unfold is_sep; rewrite bool_decide_eq_true_2; reflexivity.
  - apply abspath_good. exact Hrt.
  - exact Hrt.
  - exact Hrt.
  - apply ancestors_root. exact Hrt.
  - intros Hlen. unfold rt, main_root.
    destruct argv as [|a [|b l]]; [reflexivity|reflexivity|simpl in Hlen; lia].
Qed.

(** ** The sort key *)

(** X19. The [s] key steps the sort mode through 0, 1, 2 and back to 0 and
    changes nothing else; three presses give the browser back as it was.
    As mode 2 lists as mode 0 does, the press that leaves mode 2 leaves every
    list of rows as it is. *)
Theorem sort_key_cycles (st st' : State) (b : Browser) :
  0 <= sort_mode b < 3 ->
  exists b1 b2,
    on_key st st' ord_s b = Next b1
    /\ on_key st st' ord_s b1 = Next b2
    /\ on_key st st' ord_s b2 = Next b
    /\ sort_mode b1 = (sort_mode b + 1) mod 3
    /\ cwd b1 = cwd b /\ pos b1 = pos b /\ spinner_idx b1 = spinner_idx b
    /\ (sort_mode b = 2 ->
        forall s path,
          sorted_children s (sort_mode b1) path = sorted_children s (sort_mode b) path).
Proof.
  intros Hm. destruct b as [c p m i]. simpl in Hm.
  assert (m = 0 \/ m = 1 \/ m = 2) as Hcase by lia.
  eexists _, _. split; [reflexivity|]. split; [reflexivity|]. split.
  - destruct Hcase as [->|[->| ->]]; reflexivity.
  - simpl. repeat (split; [reflexivity|]). intros -> s path. reflexivity.
Qed.

(** ** The bar of a row *)

Lemma bar_clamp frac :
  let m := if float_ltb frac (Finite 1) then frac else Finite 1 in
  exists q,
    (if float_ltb (Finite 0) m then m else Finite 0) = Finite q
    /\ (0 <= q)%Q /\ (q <= 1)%Q
    /\ (float_ltb frac (Finite 1) = false -> q = 1%Q)
    /\ (float_ltb frac (Finite 1) = true -> float_ltb (Finite 0) frac = false -> q = 0%Q).
Proof.
  assert (float_ltb (Finite 0) (Finite 1) = true) as H01 by reflexivity.
  destruct frac as [a| |[|]|]; cbv zeta.
  - destruct (float_ltb (Finite a) (Finite 1)) eqn:H1.
    + destruct (float_ltb (Finite 0) (Finite a)) eqn:H0.
      * exists a. split; [reflexivity|]. simpl in H0, H1.
        destruct (Qlt_le_dec 0 a) as [Ha|]; [|discriminate].
        destruct (Qlt_le_dec a 1) as [Hb|]; [|discriminate].
        split; [apply Qlt_le_weak; exact Ha|]. split; [apply Qlt_le_weak; exact Hb|].
        split; [discriminate|]. intros _ H. discriminate.
      * exists 0%Q. split; [reflexivity|]. split; [apply Qle_refl|]. split; [discriminate|].
        split; [discriminate|]. reflexivity.
    + rewrite H01. exists 1%Q. split; [reflexivity|]. split; [discriminate|].
      split; [apply Qle_refl|]. split; [reflexivity|]. discriminate.
  - exists 0%Q. split; [reflexivity|]. split; [apply Qle_refl|]. split; [discriminate|].
    split; [discriminate|]. reflexivity.
  - exists 0%Q. split; [reflexivity|]. split; [apply Qle_refl|]. split; [discriminate|].
    split; [discriminate|]. reflexivity.
  - exists 1%Q. split; [reflexivity|]. split; [discriminate|].
    split; [apply Qle_refl|]. split; [reflexivity|]. discriminate.
  - exists 1%Q. split; [reflexivity|]. split; [discriminate|].
    split; [apply Qle_refl|]. split; [reflexivity|]. discriminate.
Qed.

Lemma int_of_Q_bounds (x : Q) (lo hi : Z) :
  0 <= lo ->
  (inject_Z lo <= x)%Q -> (x <= (2 * hi + 1) # 2)%Q ->
  lo <= int_of_Q x <= hi.
Proof.
  intros Hlo Hge Hle. unfold int_of_Q, Qle in *. simpl in Hge, Hle.
  assert (0 <= Qnum x) as Hn by nia.
  rewrite Z.quot_div_nonneg by lia. split.
  - apply Z.div_le_lower_bound; lia.
  - assert (Qnum x / Z.pos (Qden x) < hi + 1); [|lia].
    apply Z.div_lt_upper_bound; lia.
Qed.

Section Bar.

(** Rounding to a double keeps the order, and leaves a half-integer as it
    is when its double takes no more than 53 bits. *)
Hypothesis fround_mono : forall a b : Q, (a <= b)%Q -> (fround a <= fround b)%Q.
Hypothesis fround_half : forall n : Z, Z.abs n <= 2 ^ 53 -> (fround (n # 2) == n # 2)%Q.

Lemma fround_bounds (lo hi : Z) (a : Q) :
  Z.abs lo <= 2 ^ 53 -> Z.abs hi <= 2 ^ 53 ->
  (lo # 2 <= a)%Q -> (a <= hi # 2)%Q -> (lo # 2 <= fround a)%Q /\ (fround a <= hi # 2)%Q.
Proof.
  intros Hlo Hhi Hge Hle. split.
  - rewrite <- (fround_half lo Hlo). apply fround_mono. exact Hge.
  - rewrite <- (fround_half hi Hhi). apply fround_mono. exact Hle.
Qed.

(** X20. [Browser._format_bar] for a width below 2^52, whatever the fraction,
    the infinities and NaN included: it raises nothing and returns a row of
    [@] followed by a row of [-], [max(3, width)] characters in all; a
    fraction that is not below 1 (NaN is not) fills the bar, a fraction below
    1 that is not above 0 leaves it empty. *)
Theorem format_bar_shape (frac : pyfloat) (width : Z) :
  width < 2 ^ 52 ->
  exists filled : Z,
    0 <= filled <= Z.max 3 width
    /\ format_bar frac width
       = Some (replicate (Z.to_nat filled) "@"%char
                 ++ replicate (Z.to_nat (Z.max 3 width - filled)) "-"%char)
    /\ (forall s, format_bar frac width = Some s -> length s = Z.to_nat (Z.max 3 width))
    /\ (float_ltb frac (Finite 1) = false -> filled = Z.max 3 width)
    /\ (float_ltb frac (Finite 1) = true -> float_ltb (Finite 0) frac = false -> filled = 0).
Proof.
  intros Hw. set (W := Z.max 3 width).
  assert (3 <= W < 2 ^ 52) as HW by (unfold W; lia).
  assert (2 ^ 53 = 2 * 2 ^ 52) as H53 by reflexivity.
  destruct (bar_clamp frac) as (q & Hq & Hq0 & Hq1 & Hfull & Hempty). cbv zeta in Hq.
  unfold format_bar. cbv zeta. fold W. rewrite Hq.
  rewrite float_of_int_exact by lia.
  set (x := fround (fround (q * inject_Z W) + (1 # 2))).
  assert ((0 # 2 <= q * inject_Z W)%Q /\ (q * inject_Z W <= (2 * W) # 2)%Q) as [Hp0 Hp1].
  { unfold Qle in *. simpl in *. split; nia. }
  destruct (fround_bounds 0 (2 * W) _ ltac:(lia) ltac:(lia) Hp0 Hp1) as [Hr0 Hr1].
  assert ((1 # 2 <= fround (q * inject_Z W) + (1 # 2))%Q
          /\ (fround (q * inject_Z W) + (1 # 2) <= (2 * W + 1) # 2)%Q) as [Hy0 Hy1].
  { revert Hr0 Hr1. generalize (fround (q * inject_Z W)). intros r Hr0 Hr1.
    unfold Qle in *. simpl in *. split; lia. }
  destruct (fround_bounds 1 (2 * W + 1) _ ltac:(lia) ltac:(lia) Hy0 Hy1) as [Hx0 Hx1].
  fold x in Hx0, Hx1.
  assert (0 <= int_of_Q x <= W) as Hfilled.
  { apply int_of_Q_bounds; [lia| |exact Hx1].
    eapply Qle_trans; [|exact Hx0]. discriminate. }
  exists (int_of_Q x). split; [exact Hfilled|]. split; [reflexivity|]. split; [|split].
  - intros s [= <-]. rewrite length_app, !length_replicate. lia.
  - intros Hnot. specialize (Hfull Hnot). subst q.
    assert ((2 * W) # 2 <= 1 * inject_Z W)%Q as Hp2 by (unfold Qle; simpl; lia).
    destruct (fround_bounds (2 * W) (2 * W) _ ltac:(lia) ltac:(lia) Hp2 Hp1) as [Hr2 _].
    assert ((2 * W + 1) # 2 <= fround (1 * inject_Z W) + (1 # 2))%Q as Hy2.
    { revert Hr2. generalize (fround (1 * inject_Z W)). intros r Hr2.
      unfold Qle in *. simpl in *. lia. }
    destruct (fround_bounds (2 * W + 1) (2 * W + 1) _ ltac:(lia) ltac:(lia) Hy2 Hy1) as [Hx2 _].
    fold x in Hx2.
    assert (W <= int_of_Q x <= W); [|lia].
    apply int_of_Q_bounds; [lia| |exact Hx1].
    eapply Qle_trans; [|exact Hx2]. unfold Qle. simpl. lia.
  - intros Hlt Hnot. specialize (Hempty Hlt Hnot). subst q.
    assert (0 * inject_Z W <= 0 # 2)%Q as Hp2 by (unfold Qle; simpl; lia).
    destruct (fround_bounds 0 0 _ ltac:(lia) ltac:(lia) Hp0 Hp2) as [_ Hr2].
    assert (fround (0 * inject_Z W) + (1 # 2) <= 1 # 2)%Q as Hy2.
    { revert Hr2. generalize (fround (0 * inject_Z W)). intros r Hr2.
      unfold Qle in *. simpl in *. lia. }
    destruct (fround_bounds 1 1 _ ltac:(lia) ltac:(lia) Hy0 Hy2) as [_ Hx2].
    fold x in Hx2.
    assert (0 <= int_of_Q x <= 0); [|lia].
    apply int_of_Q_bounds; [lia| |exact Hx2].
    eapply Qle_trans; [|exact Hx0]. discriminate.
Qed.

End Bar.

End Pydu.

(** * The properties on the small tree *)

Lemma example_root_normal : posixpath.abspath example_cwd example_root = example_root.
Proof. vm_compute. reflexivity. Defined.

Lemma example_tree_wf : wf_tree example_tree = true.
Proof. vm_compute. reflexivity. Defined.

Lemma example_order_perm :
  Permutation (rev (submitted example_root example_tree)) (submitted example_root example_tree).
Proof. apply Permutation_sym, Permutation_rev. Defined.

Lemma sizes_add_up_example :
  posixpath.abspath example_cwd example_root = example_root
  /\ wf_tree example_tree = true
  /\ Permutation (rev (submitted example_root example_tree))
       (submitted example_root example_tree)
  /\ let fin := scan_live example_cwd example_root example_tree
                  (rev (submitted example_root example_tree))
                  (State_init example_cwd example_root) in
     (forall d dns fns,
        (d, dns, fns) ∈ walk example_root example_tree ->
        size_get fin d = sum_with (size_get fin) (children_get fin d))
     /\ size_get fin example_root = tree_bytes example_tree.
Proof.
  split; [exact example_root_normal|]. split; [exact example_tree_wf|].
  split; [exact example_order_perm|].
  destruct (sizes_add_up example_cwd example_root example_tree
              example_root_normal example_tree_wf _ example_order_perm)
    as (_ & Hsum & _ & Hroot & _).
  split; [exact Hsum|exact Hroot].
Defined.

Lemma bubble_whole_chain_at_once_example :
  posixpath.abspath example_cwd example_root = example_root
  /\ wf_tree example_tree = true
  /\ Permutation (rev (submitted example_root example_tree))
       (submitted example_root example_tree)
  /\ forall pre post x,
       scan_ops example_root example_tree (rev (submitted example_root example_tree))
       = pre ++ post ->
       size_get (run example_cwd pre (State_init example_cwd example_root)) x
       = total example_cwd example_root (completed pre) x.
Proof.
  split; [exact example_root_normal|]. split; [exact example_tree_wf|].
  split; [exact example_order_perm|].
  exact (proj2 (bubble_whole_chain_at_once example_cwd example_root example_tree
                  example_root_normal example_tree_wf _ example_order_perm)).
Defined.

Lemma progress_never_decreases_example :
  Permutation (rev (submitted example_root example_tree))
    (submitted example_root example_tree)
  /\ forall pre post,
       scan_ops example_root example_tree (rev (submitted example_root example_tree))
       = pre ++ post ->
       (progress_pct (run example_cwd pre (State_init example_cwd example_root)) < 100)%Q.
Proof.
  split; [exact example_order_perm|].
  exact (proj1 (proj2 (progress_never_decreases example_cwd example_root example_tree _
                         example_order_perm))).
Defined.

(** At the end of the scan of the small tree, with its two directories
    and four files, the percentage stands at 75, not at 100. *)
Lemma progress_ends_short_of_100 :
  let fin := scan_live example_cwd example_root example_tree
               (submitted example_root example_tree)
               (State_init example_cwd example_root) in
  scanning fin = false
  /\ seen_files fin + seen_dirs fin = 6
  /\ total_files fin + total_dirs fin = 8
  /\ (progress_pct fin == 75)%Q
  /\ ~ (progress_pct fin == 100)%Q.
Proof.
  repeat split; try (vm_compute; reflexivity).
  intros H. vm_compute in H. discriminate.
Qed.

Lemma children_never_duplicated_example :
  posixpath.abspath example_cwd example_root = example_root
  /\ wf_tree example_tree = true
  /\ scan_ops example_root example_tree (submitted example_root example_tree)
     = pre_count_ops example_root example_tree
       ++ (live_ops example_root example_tree
           ++ map (fun t => Complete t.1 t.2) (submitted example_root example_tree)
           ++ [Finish])
  /\ forall d,
       NoDup (children_get
                (run example_cwd (pre_count_ops example_root example_tree)
                   (State_init example_cwd example_root)) d).
Proof.
  split; [exact example_root_normal|]. split; [exact example_tree_wf|].
  split; [reflexivity|].
  exact (proj1 (children_never_duplicated example_cwd example_root example_tree
                  example_root_normal example_tree_wf
                  (submitted example_root example_tree) _ _ eq_refl)).
Defined.

Lemma human_divides_then_formats_example :
  0 <= 1536
  /\ float_of_int 1536 = Some (Finite (inject_Z 1536))
  /\ human example_float_of_str (PyInt 1536) = py "1.5K".
Proof.
  assert (0 <= 1536) as H0 by lia.
  assert (float_of_int 1536 = Some (Finite (inject_Z 1536))) as Hf by reflexivity.
  split; [exact H0|]. split; [exact Hf|].
  destruct (human_divides_then_formats example_float_of_str 1536 _ H0 Hf)
    as (_ & _ & _ & _ & H1536 & _).
  exact H1536.
Defined.

Lemma human_not_a_number_example :
  py_float example_float_of_str (PyStr (py "abc")) = None
  /\ human example_float_of_str (PyStr (py "abc")) = py "?".
Proof.
  split; [reflexivity|].
  apply (proj1 (human_not_a_number example_float_of_str (PyStr (py "abc")))). reflexivity.
Defined.

(** The marker is not a word: for [None] and for a [str] that is no
    number [human] answers the single character [?]. *)
Lemma human_marker_is_not_a_word :
  human example_float_of_str PyNone = py "?"
  /\ human example_float_of_str (PyStr (py "abc")) = py "?"
  /\ human example_float_of_str PyNone <> py "unknown"
  /\ human example_float_of_str (PyStr (py "abc")) <> py "unknown".
Proof. repeat split; try reflexivity; intros H; vm_compute in H; discriminate. Qed.

(** After the scan of the small tree the link [L], a directory without a
    recorded size, is listed above the directory [A] with its 400 bytes, in
    mode 0 and in mode 2: the rows of the directories are not in descending
    order of size. *)
Lemma unsized_directory_listed_above_larger :
  let fin := scan_live example_cwd example_root example_tree
               (submitted example_root example_tree)
               (State_init example_cwd example_root) in
  sorted_children fin 0 example_root = [py "/data/L"; py "/data/A"; py "/data/r"]
  /\ sorted_children fin 2 example_root = [py "/data/L"; py "/data/A"; py "/data/r"]
  /\ is_dir_get fin (py "/data/L") = true
  /\ is_dir_get fin (py "/data/A") = true
  /\ size fin !! py "/data/L" = None
  /\ size_get fin (py "/data/L") = 0
  /\ size_get fin (py "/data/A") = 400
  /\ ~ (size_get fin (py "/data/A") <= size_get fin (py "/data/L")).
Proof.
  repeat split; try (vm_compute; reflexivity).
  intros H. vm_compute in H. apply H. reflexivity.
Qed.

Lemma cwd_stays_in_tree_example :
  posixpath.abspath example_cwd example_root = example_root
  /\ wf_tree example_tree = true
  /\ let s := sys_run example_cwd example_events
                (sys_init example_cwd example_root example_tree
                   (submitted example_root example_tree)) in
     cwd (browser s) ∈ dir_paths example_root example_tree.
Proof.
  split; [exact example_root_normal|]. split; [exact example_tree_wf|].
  exact (proj1 (proj2 (cwd_stays_in_tree example_cwd example_root example_tree
                         example_root_normal example_tree_wf
                         (submitted example_root example_tree) example_events))).
Defined.

Lemma descend_file_ascend_root_example :
  posixpath.abspath example_cwd example_root = example_root
  /\ wf_tree example_tree = true
  /\ scan_ops example_root example_tree (submitted example_root example_tree)
     = scan_ops example_root example_tree (submitted example_root example_tree) ++ []
  /\ let st := run example_cwd
                 (scan_ops example_root example_tree (submitted example_root example_tree))
                 (State_init example_cwd example_root) in
     forall st' b,
       cwd b = example_root ->
       exists b', on_key st st' KEY_LEFT b = Next b'
                  /\ cwd b' = example_root
                  /\ (posixpath.dirname example_root <> example_root -> b' = b).
Proof.
  split; [exact example_root_normal|]. split; [exact example_tree_wf|].
  assert (scan_ops example_root example_tree (submitted example_root example_tree)
          = scan_ops example_root example_tree (submitted example_root example_tree) ++ [])
    as Happ by (rewrite app_nil_r; reflexivity).
  split; [exact Happ|].
  intros st st' b.
  exact (proj2 (proj2 (proj2 (descend_file_ascend_root example_cwd example_root example_tree
                                example_root_normal example_tree_wf _ _ _ Happ) st' b))).
Defined.

Lemma up_down_clamped_at_redraw_example :
  let st := scan_live example_cwd example_root example_tree
              (submitted example_root example_tree) (State_init example_cwd example_root) in
  let b := {| cwd := example_root; pos := 2; sort_mode := 0; spinner_idx := 0 |} in
  (KEY_DOWN = KEY_UP \/ KEY_DOWN = ord_k \/ KEY_DOWN = KEY_DOWN \/ KEY_DOWN = ord_j)
  /\ exists b', on_key st st KEY_DOWN b = Next b' /\ pos b' = 3 /\ pos (draw st b') = 2.
Proof.
  intros st b.
  assert (KEY_DOWN = KEY_UP \/ KEY_DOWN = ord_k \/ KEY_DOWN = KEY_DOWN \/ KEY_DOWN = ord_j)
    as Hch by (right; right; left; reflexivity).
  split; [exact Hch|].
  destruct (up_down_clamped_at_redraw st st st b KEY_DOWN Hch)
    as (b' & Hkey & _ & _ & _ & Hpos & Hdraw & _).
  exists b'. split; [exact Hkey|]. split; [exact Hpos|].
  apply Hdraw. vm_compute. reflexivity.
Defined.

(** Two keys that change the selection where none was expected.  With
    [pos] one past the last row (a down key on the last row, not yet
    redrawn), the right key on a file puts [pos] back on the last row.  At
    the file system root the [dirname] of the scan root is the scan root
    itself, which is recorded: the left key sets [pos] back to the first
    row. *)
Lemma descend_or_ascend_moves_selection :
  let order := submitted example_root example_tree in
  let s := sys_run example_cwd [EvKey KEY_DOWN 100; EvKey KEY_DOWN 0; EvDraw; EvKey KEY_DOWN 0]
             (sys_init example_cwd example_root example_tree order) in
  let s' := sys_run example_cwd [EvKey KEY_DOWN 100; EvKey KEY_DOWN 0; EvDraw]
              (sys_init example_cwd (py "/") example_tree (submitted (py "/") example_tree)) in
  (sorted_children (shared s) (sort_mode (browser s)) (cwd (browser s)) !! 2%nat
   = Some (py "/data/r")
   /\ is_dir_get (shared s) (py "/data/r") = false
   /\ pos (browser s) = 3
   /\ on_key (shared s) (shared s) KEY_RIGHT (browser s)
      = Next {| cwd := example_root; pos := 2; sort_mode := 0; spinner_idx := 0 |}
   /\ on_key (shared s) (shared s) KEY_RIGHT (browser s) <> Next (browser s))
  /\ (cwd (browser s') = root (shared s')
      /\ pos (browser s') = 2
      /\ on_key (shared s') (shared s') KEY_LEFT (browser s')
         = Next {| cwd := py "/"; pos := 0; sort_mode := 0; spinner_idx := 0 |}
      /\ on_key (shared s') (shared s') KEY_LEFT (browser s') <> Next (browser s')).
Proof.
  intros order s s'. split.
  - assert (pos (browser s) = 3) as Hp by (vm_compute; reflexivity).
    assert (on_key (shared s) (shared s) KEY_RIGHT (browser s)
            = Next {| cwd := example_root; pos := 2; sort_mode := 0; spinner_idx := 0 |}) as Hk
      by (vm_compute; reflexivity).
    split; [vm_compute; reflexivity|]. split; [vm_compute; reflexivity|].
    split; [exact Hp|]. split; [exact Hk|].
    rewrite Hk. revert Hp. generalize (browser s). clear. intros b Hp Heq.
    injection Heq as Heq. rewrite <- Heq in Hp. discriminate.
  - assert (cwd (browser s') = py "/") as Hc by (vm_compute; reflexivity).
    assert (root (shared s') = py "/") as Hr by (vm_compute; reflexivity).
    assert (pos (browser s') = 2) as Hp by (vm_compute; reflexivity).
    assert (on_key (shared s') (shared s') KEY_LEFT (browser s')
            = Next {| cwd := py "/"; pos := 0; sort_mode := 0; spinner_idx := 0 |}) as Hk
      by (vm_compute; reflexivity).
    split; [rewrite Hc, Hr; reflexivity|]. split; [exact Hp|]. split; [exact Hk|].
    rewrite Hk. revert Hp. generalize (browser s'). clear. intros b Hp Heq.
    injection Heq as Heq. rewrite <- Heq in Hp. discriminate.
Qed.

(** With no children to show, the down key still moves the selection,
    and the next drawing leaves it there. *)
Lemma down_on_empty_list_moves_selection :
  let st := State_init example_cwd example_root in
  let b := Browser_init st in
  sorted_children st (sort_mode b) (cwd b) = []
  /\ on_key st st KEY_DOWN b
     = Next {| cwd := example_root; pos := 1; sort_mode := 0; spinner_idx := 0 |}
  /\ on_key st st KEY_DOWN b <> Next b
  /\ pos (draw st {| cwd := example_root; pos := 1; sort_mode := 0; spinner_idx := 0 |}) = 1.
Proof.
  intros st b.
  assert (on_key st st KEY_DOWN b
          = Next {| cwd := example_root; pos := 1; sort_mode := 0; spinner_idx := 0 |}) as Hk
    by (vm_compute; reflexivity).
  split; [vm_compute; reflexivity|]. split; [exact Hk|].
  split; [rewrite Hk; vm_compute; discriminate|vm_compute; reflexivity].
Qed.

(** * More properties on the small tree *)

Lemma example_root_walked :
  (example_root, dirnames example_tree, filenames example_tree)
    ∈ walk example_root example_tree.
Proof. left. Defined.

Lemma human_below_1024_example :
  - 2 ^ 53 < -5000 < 1024
  /\ human example_float_of_str (PyInt (-5000)) = py "-5000.0B".
Proof.
  assert (- 2 ^ 53 < -5000 < 1024) as H by lia.
  split; [exact H|].
  etransitivity; [exact (human_below_1024 example_float_of_str (-5000) H)|].
  vm_compute. reflexivity.
Defined.

Lemma pre_count_skeleton_example :
  posixpath.abspath example_cwd example_root = example_root
  /\ wf_tree example_tree = true
  /\ let st := pre_count_at example_cwd example_root (Listed example_tree)
                 (State_init example_cwd example_root) in
     total_dirs st = 1 + Z.of_nat (length (walk example_root example_tree))
     /\ total_files st = 1 + Z.of_nat (length (submitted example_root example_tree))
     /\ forall p, p ∈ exists_ st <-> p ∈ dir_paths example_root example_tree.
Proof.
  split; [exact example_root_normal|]. split; [exact example_tree_wf|].
  destruct (pre_count_skeleton example_cwd example_root example_tree
              example_root_normal example_tree_wf)
    as [(H1 & H2 & _ & _ & _ & _ & _ & H3 & _) _].
  split; [exact H1|]. split; [exact H2|exact H3].
Defined.

Lemma scan_records_the_tree_example :
  posixpath.abspath example_cwd example_root = example_root
  /\ wf_tree example_tree = true
  /\ let fin := scan_live_at example_cwd example_root (Listed example_tree)
                  (submitted example_root example_tree)
                  (State_init example_cwd example_root) in
     forall p, is_dir fin !! p = Some false <-> p ∈ file_paths example_root example_tree.
Proof.
  split; [exact example_root_normal|]. split; [exact example_tree_wf|].
  exact (proj1 (proj2 (proj2 (proj1
           (scan_records_the_tree example_cwd example_root example_tree
              example_root_normal example_tree_wf
              (submitted example_root example_tree)))))).
Defined.

Lemma scan_final_counters_example :
  Permutation (rev (submitted example_root example_tree))
    (submitted example_root example_tree)
  /\ let fin := scan_live example_cwd example_root example_tree
                  (rev (submitted example_root example_tree))
                  (State_init example_cwd example_root) in
     errors fin = Z.of_nat (length (unreadable (submitted example_root example_tree)))
     /\ total_files fin = seen_files fin + 1.
Proof.
  split; [exact example_order_perm|].
  destruct (scan_final_counters example_cwd example_root example_tree _ example_order_perm)
    as (_ & _ & _ & H4 & H5 & _).
  split; [exact H5|exact H4].
Defined.

Lemma completion_order_irrelevant_example :
  posixpath.abspath example_cwd example_root = example_root
  /\ wf_tree example_tree = true
  /\ Permutation (rev (submitted example_root example_tree))
       (submitted example_root example_tree)
  /\ Permutation (submitted example_root example_tree)
       (submitted example_root example_tree)
  /\ scan_live example_cwd example_root example_tree
       (rev (submitted example_root example_tree)) (State_init example_cwd example_root)
     = scan_live example_cwd example_root example_tree
         (submitted example_root example_tree) (State_init example_cwd example_root).
Proof.
  split; [exact example_root_normal|]. split; [exact example_tree_wf|].
  split; [exact example_order_perm|]. split; [apply Permutation_refl|].
  exact (completion_order_irrelevant example_cwd example_root example_tree
           example_root_normal example_tree_wf _ _
           example_order_perm (Permutation_refl _)).
Defined.

Lemma sizes_add_up_all_along_example :
  posixpath.abspath example_cwd example_root = example_root
  /\ wf_tree example_tree = true
  /\ Permutation (rev (submitted example_root example_tree))
       (submitted example_root example_tree)
  /\ forall pre post,
       scan_ops example_root example_tree (rev (submitted example_root example_tree))
       = pre ++ post ->
       let st := run example_cwd pre (State_init example_cwd example_root) in
       forall d dns fns,
         (d, dns, fns) ∈ walk example_root example_tree ->
         size_get st d = sum_with (size_get st) (children_get st d).
Proof.
  split; [exact example_root_normal|]. split; [exact example_tree_wf|].
  split; [exact example_order_perm|].
  intros pre post Heq.
  exact (proj1 (sizes_add_up_all_along example_cwd example_root example_tree
                  example_root_normal example_tree_wf _ pre post
                  example_order_perm Heq)).
Defined.

Lemma rows_show_the_listing_example :
  posixpath.abspath example_cwd example_root = example_root
  /\ wf_tree example_tree = true
  /\ (example_root, dirnames example_tree, filenames example_tree)
       ∈ walk example_root example_tree
  /\ let fin := scan_live example_cwd example_root example_tree
                  (submitted example_root example_tree)
                  (State_init example_cwd example_root) in
     map row_name (children_get fin example_root)
     = dirnames example_tree ++ (filenames example_tree).*1.
Proof.
  split; [exact example_root_normal|]. split; [exact example_tree_wf|].
  split; [exact example_root_walked|].
  exact (proj1 (rows_show_the_listing example_cwd example_root example_tree
                  example_root_normal example_tree_wf
                  (submitted example_root example_tree) _ _ _ example_root_walked)).
Defined.

Lemma example_unreadable_submitted :
  (py "/data/A/a2", None) ∈ submitted example_root example_tree.
Proof. vm_compute. right. right. left. Defined.

Lemma files_keep_their_own_size_example :
  posixpath.abspath example_cwd example_root = example_root
  /\ wf_tree example_tree = true
  /\ Permutation (rev (submitted example_root example_tree))
       (submitted example_root example_tree)
  /\ (py "/data/A/a2", None) ∈ submitted example_root example_tree
  /\ size (scan_live example_cwd example_root example_tree
             (rev (submitted example_root example_tree))
             (State_init example_cwd example_root)) !! py "/data/A/a2"
     = Some 0.
Proof.
  split; [exact example_root_normal|]. split; [exact example_tree_wf|].
  split; [exact example_order_perm|]. split; [exact example_unreadable_submitted|].
  exact (files_keep_their_own_size example_cwd example_root example_tree
           example_root_normal example_tree_wf _ _ _
           example_order_perm example_unreadable_submitted).
Defined.

Lemma example_link_listed : py "L" ∈ dirnames example_tree.
Proof. vm_compute. right. left. Defined.

Lemma unsized_directory_sorts_as_parent_example :
  posixpath.abspath example_cwd example_root = example_root
  /\ wf_tree example_tree = true
  /\ Permutation (submitted example_root example_tree)
       (submitted example_root example_tree)
  /\ (example_root, dirnames example_tree, filenames example_tree)
       ∈ walk example_root example_tree
  /\ py "L" ∈ dirnames example_tree
  /\ let fin := scan_live example_cwd example_root example_tree
                  (submitted example_root example_tree)
                  (State_init example_cwd example_root) in
     size fin !! posixpath.join example_root (py "L") = None ->
     size_get fin (posixpath.join example_root (py "L")) = 0
     /\ snapshot_size fin example_root (posixpath.join example_root (py "L"))
        = size_get fin example_root.
Proof.
  split; [exact example_root_normal|]. split; [exact example_tree_wf|].
  split; [apply Permutation_refl|]. split; [exact example_root_walked|].
  split; [exact example_link_listed|].
  exact (proj1 (proj2 (unsized_directory_sorts_as_parent example_cwd example_root example_tree
                         example_root_normal example_tree_wf
                         (submitted example_root example_tree) _ _ _ _
                         (Permutation_refl _) example_root_walked example_link_listed))).
Defined.

Lemma main_root_is_normal_example :
  posixpath.isabs example_cwd = true
  /\ posixpath.abspath example_cwd (main_root example_cwd example_argv)
     = main_root example_cwd example_argv
  /\ root (State_init example_cwd (main_root example_cwd example_argv))
     = main_root example_cwd example_argv.
Proof.
  assert (posixpath.isabs example_cwd = true) as Hcwd by reflexivity.
  split; [exact Hcwd|].
  destruct (main_root_is_normal example_cwd example_argv Hcwd) as (H1 & _ & _ & H4 & _).
  split; [exact H1|exact H4].
Defined.

Lemma sort_key_cycles_example :
  let st := State_init example_cwd example_root in
  let b := Browser_init st in
  0 <= sort_mode b < 3
  /\ exists b1 b2,
       on_key st st ord_s b = Next b1
       /\ on_key st st ord_s b1 = Next b2
       /\ on_key st st ord_s b2 = Next b.
Proof.
  intros st b.
  assert (0 <= sort_mode b < 3) as Hm by (simpl; lia).
  split; [exact Hm|].
  destruct (sort_key_cycles st st b Hm) as (b1 & b2 & H1 & H2 & H3 & _).
  exists b1, b2. split; [exact H1|]. split; [exact H2|exact H3].
Defined.

Lemma format_bar_shape_example :
  (forall a b : Q, (a <= b)%Q -> (example_fround a <= example_fround b)%Q)
  /\ (forall n : Z, Z.abs n <= 2 ^ 53 -> (example_fround (n # 2) == n # 2)%Q)
  /\ 10 < 2 ^ 52
  /\ forall s,
       format_bar example_fround (Finite (1 # 2)) 10 = Some s ->
       length s = Z.to_nat (Z.max 3 10).
Proof.
  assert (forall a b : Q, (a <= b)%Q -> (example_fround a <= example_fround b)%Q) as Hmono
    by (intros a b H; exact H).
  assert (forall n : Z, Z.abs n <= 2 ^ 53 -> (example_fround (n # 2) == n # 2)%Q) as Hhalf
    by (intros n _; reflexivity).
  assert (10 < 2 ^ 52) as Hw by reflexivity.
  split; [exact Hmono|]. split; [exact Hhalf|]. split; [exact Hw|].
  destruct (format_bar_shape example_fround Hmono Hhalf (Finite (1 # 2)) 10 Hw)
    as (filled & _ & _ & Hlen & _).
  exact Hlen.
Defined.

Lemma descend_then_ascend_example :
  let ops := scan_ops example_root example_tree (submitted example_root example_tree) in
  let st := run example_cwd ops (State_init example_cwd example_root) in
  let st2 := run example_cwd (ops ++ []) (State_init example_cwd example_root) in
  let st3 := run example_cwd (ops ++ [] ++ []) (State_init example_cwd example_root) in
  let b := {| cwd := example_root; pos := 1; sort_mode := 0; spinner_idx := 0 |} in
  let b1 := {| cwd := py "/data/A"; pos := 0; sort_mode := 0; spinner_idx := 0 |} in
  posixpath.abspath example_cwd example_root = example_root
  /\ wf_tree example_tree = true
  /\ ops = ops ++ [] ++ [] ++ []
  /\ (KEY_RIGHT = KEY_RIGHT \/ KEY_RIGHT = ord_newline)
  /\ on_key st st2 KEY_RIGHT b = Next b1
  /\ cwd b1 <> cwd b
  /\ on_key st3 st3 KEY_LEFT b1
     = Next {| cwd := example_root; pos := 0; sort_mode := 0; spinner_idx := 0 |}.
Proof.
  intros ops st st2 st3 b b1.
  assert (ops = ops ++ [] ++ [] ++ []) as Heq by (rewrite !app_nil_r; reflexivity).
  assert (KEY_RIGHT = KEY_RIGHT \/ KEY_RIGHT = ord_newline) as Hch by (left; reflexivity).
  assert (on_key st st2 KEY_RIGHT b = Next b1) as Hkey by (vm_compute; reflexivity).
  assert (cwd b1 <> cwd b) as Hne by (vm_compute; discriminate).
  split; [exact example_root_normal|]. split; [exact example_tree_wf|].
  split; [exact Heq|]. split; [exact Hch|]. split; [exact Hkey|]. split; [exact Hne|].
  exact (proj2 (proj2 (proj2 (descend_then_ascend example_cwd example_root example_tree
                                example_root_normal example_tree_wf
                                (submitted example_root example_tree) ops [] [] []
                                b b1 KEY_RIGHT st3 Heq Hch Hkey Hne)))).
Defined.
